(** * Verification of the engine's linear-algebra, camera and scene core

    The C++ sources under [src/Math] and [src/Graphics] are embedded as Rocq
    functions.  Every arithmetic definition is written once, over an abstract
    scalar type [F] that offers exactly the operations the C++ code applies
    to its [f32] values.  Two instances interpret them:

    - [R_Scalar] / [R_Libm]: the real numbers, i.e. the arithmetic without
      rounding, in which the algebraic content of the algorithms is proved;
    - [b32_Scalar]: IEEE-754 binary32 (the C++ [f32]) through the Standard
      Library's executable [SpecFloat] operations with [prec = 24] and
      [emax = 128], in which the code is evaluated on concrete inputs.

    The scene's name index is a [gmap string nat] next to a [list] of
    objects, as the source keeps an [unordered_map] next to a [vector]. *)

From Stdlib Require Import ZArith Reals Lra Lia List.
From Stdlib Require Import SpecFloat.
From stdpp Require Import gmap strings list fin_maps.

(* ===================================================================== *)
(** * Scalars: the operations of [f32] used by the sources               *)
(* ===================================================================== *)

(** Arithmetic, comparison, [std::fabs] and [std::sqrt]: the operations that
    IEEE-754 specifies exactly.  [fofZ] injects the integer-valued literals;
    [fPI] is the constant [Math::PI]. *)
Class Scalar (F : Type) : Type := {
  fofZ : Z -> F;
  fadd : F -> F -> F;
  fsub : F -> F -> F;
  fmul : F -> F -> F;
  fdiv : F -> F -> F;
  fneg : F -> F;
  fabs : F -> F;
  fsqrt : F -> F;
  fltb : F -> F -> bool;
  fleb : F -> F -> bool;
  fPI : F
}.

(** The [<cmath>] functions reached through [Math::Sin], [Math::Cos],
    [Math::Tan] and [Math::ACos]. *)
Class Libm (F : Type) : Type := {
  fsin : F -> F;
  fcos : F -> F;
  ftan : F -> F;
  facos : F -> F
}.

Declare Scope scalar_scope.
Delimit Scope scalar_scope with S.
Infix "+" := fadd : scalar_scope.
Infix "-" := fsub : scalar_scope.
Infix "*" := fmul : scalar_scope.
Infix "/" := fdiv : scalar_scope.
Notation "- x" := (fneg x) : scalar_scope.
(** C++ [a < b], [a > b], [a <= b], [a >= b] as booleans. *)
Infix "<?" := fltb : scalar_scope.
Infix "<=?" := fleb : scalar_scope.
Notation "a >? b" := (fltb b a) : scalar_scope.
Notation "a >=? b" := (fleb b a) : scalar_scope.
Notation "0" := (fofZ 0%Z) : scalar_scope.
Notation "1" := (fofZ 1%Z) : scalar_scope.
Notation "2" := (fofZ 2%Z) : scalar_scope.

(** A decimal literal [n/d] with [d] a power of ten, such as [0.5f = 5/10].
    Numerator and denominator are integers below [2^24], so in binary32 the
    correctly rounded quotient is the value the compiler gives the literal. *)
Definition dec {F} `{Scalar F} (n d : Z) : F := (fofZ n / fofZ d)%S.

(** ** Exact arithmetic

    The operations without rounding; [Math::PI] is read as the number pi and
    the [<cmath>] functions as the real functions they approximate. *)

#[global] Instance R_Scalar : Scalar R := {|
  fofZ := IZR;
  fadd := Rplus;
  fsub := Rminus;
  fmul := Rmult;
  fdiv := Rdiv;
  fneg := Ropp;
  fabs := Rabs;
  fsqrt := sqrt;
  fltb := fun a b => if Rlt_dec a b then true else false;
  fleb := fun a b => if Rle_dec a b then true else false;
  fPI := PI
|}.

#[global] Instance R_Libm : Libm R := {|
  fsin := sin;
  fcos := cos;
  ftan := tan;
  facos := acos
|}.

(** ** IEEE-754 binary32

    Round-to-nearest-even single precision with signed zeros, infinities and
    NaN.  The [<cmath>] trigonometric functions are not fixed by the standard
    and get no instance: statements about binary32 that involve them hold
    for whatever [Libm] is supplied. *)

Module B32.
Definition prec : Z := 24.
Definition emax : Z := 128.
Definition t : Type := spec_float.

Definition ofZ (z : Z) : t := binary_normalize prec emax z 0 false.
(** [2^e] and [n * 2^e], rounded to binary32 (exact for the uses below). *)
Definition scaled (n e : Z) : t := binary_normalize prec emax n e false.

(** [Math::PI = 3.14159265358979323846f]: the binary32 value nearest to the
    literal, [13176795 * 2^-22]. *)
Definition PI : t := S754_finite false 13176795 (-22).

Definition is_nan (x : t) : bool :=
  match x with S754_nan => true | _ => false end.

(** The real number a finite binary32 value stands for,
    [(-1)^s * m * 2^e]; [0] for the zeros (and, by convention, for
    infinities and NaN, which the uses below exclude). *)
Definition toR (x : t) : R :=
  match x with
  | S754_finite s m e =>
      ((if s then -1 else 1) * IZR (Z.pos m) * powerRZ 2 e)%R
  | _ => 0%R
  end.
End B32.

#[global] Instance b32_Scalar : Scalar B32.t := {|
  fofZ := B32.ofZ;
  fadd := SFadd B32.prec B32.emax;
  fsub := SFsub B32.prec B32.emax;
  fmul := SFmul B32.prec B32.emax;
  fdiv := SFdiv B32.prec B32.emax;
  fneg := SFopp;
  fabs := SFabs;
  fsqrt := SFsqrt B32.prec B32.emax;
  fltb := SFltb;
  fleb := SFleb;
  fPI := B32.PI
|}.

(* ===================================================================== *)
(** * Math.h, MathUtils.h                                                *)
(* ===================================================================== *)

Module Math.
Section Defs.
Context {F : Type} `{Scalar F}.
Local Open Scope scalar_scope.

(** [constexpr f32 EPSILON = 1.0e-6f] *)
Definition EPSILON : F := dec 1 1000000.
(** [constexpr f32 DEG2RAD = PI / 180.0f] *)
Definition DEG2RAD : F := fPI / fofZ 180.

(** [(value < min) ? min : (value > max) ? max : value] *)
Definition Clamp (value min max : F) : F :=
  if value <? min then min else if value >? max then max else value.

(** [a + t * (b - a)] *)
Definition Lerp (a b t : F) : F := a + t * (b - a).

Definition ToRadians (degrees : F) : F := degrees * DEG2RAD.

(** [std::fabs(value) <= epsilon], with the default [epsilon = EPSILON] *)
Definition NearZero (value : F) : bool := fabs value <=? EPSILON.

(** [(value < T(0)) ? -value : value] *)
Definition Abs (value : F) : F := if value <? 0 then - value else value.

(** [Abs(a - b) <= epsilon], with the default [epsilon = EPSILON] *)
Definition Approximately (a b : F) : bool := Abs (a - b) <=? EPSILON.
(** [constexpr f32 TWO_PI = 6.28318530717958647692f]: twice [PI], in
    binary32 too, where doubling is exact. *)
Definition TWO_PI : F := 2 * fPI.
(** [constexpr f32 RAD2DEG = 180.0f / PI] *)
Definition RAD2DEG : F := fofZ 180 / fPI.

Definition ToDegrees (radians : F) : F := radians * RAD2DEG.

(** [Smoothstep]: [x] is replaced by its clamped ratio first. *)
Definition Smoothstep (edge0 edge1 x : F) : F :=
  let x := Clamp ((x - edge0) / (edge1 - edge0)) 0 1 in
  x * x * (fofZ 3 - 2 * x).

Definition Smootherstep (edge0 edge1 x : F) : F :=
  let x := Clamp ((x - edge0) / (edge1 - edge0)) 0 1 in
  x * x * x * (x * (x * fofZ 6 - fofZ 15) + fofZ 10).

Definition Remap (value fromMin fromMax toMin toMax : F) : F :=
  toMin + (value - fromMin) * (toMax - toMin) / (fromMax - fromMin).

(** [value >= min && value <= max] *)
Definition InRange (value min max : F) : bool :=
  (value >=? min) && (value <=? max).

(** [value > min && value < max] *)
Definition InRangeExclusive (value min max : F) : bool :=
  (value >? min) && (value <? max).

(** MathUtils.h: [Min], [Max], [LerpClamped], [QuadraticLerp]. *)
Definition Min (a b : F) : F := if a <? b then a else b.
Definition Max (a b : F) : F := if a >? b then a else b.

Definition LerpClamped (a b t : F) : F :=
  let t := Clamp t 0 1 in
  Lerp a b t.

Definition QuadraticLerp (a b c t : F) : F :=
  let ab := Lerp a b t in
  let bc := Lerp b c t in
  Lerp ab bc t.
End Defs.

(** The integer templates, at [T = u32]: a value is a [Z] in
    [[0, 2^32)] and arithmetic wraps modulo [2^32]. *)
Definition u32 (z : Z) : Z := (z mod 2 ^ 32)%Z.

(** [value != 0 && (value & (value - 1)) == 0] *)
Definition IsPowerOfTwo (value : Z) : bool :=
  negb (value =? 0)%Z && (Z.land value (u32 (value - 1)) =? 0)%Z.

(** [NextPowerOfTwo]: 1 for 0; otherwise decrement, smear the highest set
    bit over the lower ones with five shift-or steps, increment. *)
Definition NextPowerOfTwo (value : Z) : Z :=
  if (value <=? 0)%Z then 1%Z
  else
    let value := u32 (value - 1) in
    let value := Z.lor value (Z.shiftr value 1) in
    let value := Z.lor value (Z.shiftr value 2) in
    let value := Z.lor value (Z.shiftr value 4) in
    let value := Z.lor value (Z.shiftr value 8) in
    let value := Z.lor value (Z.shiftr value 16) in
    u32 (value + 1).
End Math.

(* ===================================================================== *)
(** * Vector3.h                                                          *)
(* ===================================================================== *)

Module Vector3.
Record t (F : Type) : Type := mk { x : F; y : F; z : F }.
Arguments mk {F} _ _ _.
Arguments x {F} _.
Arguments y {F} _.
Arguments z {F} _.

Section Defs.
Context {F : Type} `{Scalar F}.
Local Open Scope scalar_scope.

(** Modelled from the spec: the static constant [Vector3::Zero] is declared
    in Vector3.h but its definition is not among the sources; the spec
    names it the zero vector, which is also what [Vector3()] builds. *)
Definition Zero : t F := mk 0 0 0.

Definition add (a b : t F) : t F := mk (x a + x b) (y a + y b) (z a + z b).
Definition sub (a b : t F) : t F := mk (x a - x b) (y a - y b) (z a - z b).
Definition scale (a : t F) (s : F) : t F := mk (x a * s) (y a * s) (z a * s).
(** [operator/(f32)] and [operator/=(f32)] divide each component. *)
Definition div (a : t F) (s : F) : t F := mk (x a / s) (y a / s) (z a / s).

Definition LengthSquared (a : t F) : F := x a * x a + y a * y a + z a * z a.
Definition Length (a : t F) : F := fsqrt (LengthSquared a).

(** [Normalize]: [if (Math::NearZero(len)) return;] and then divide [this] by [len]. *)
Definition Normalize (a : t F) : t F :=
  let len := Length a in
  if Math.NearZero len then a else div a len.

(** [Normalized]: copy, [Normalize] the copy, return it. *)
Definition Normalized (a : t F) : t F := Normalize a.

(** [operator==]: component-wise [Math::Approximately]. *)
Definition eqb (a b : t F) : bool :=
  Math.Approximately (x a) (x b) && Math.Approximately (y a) (y b)
  && Math.Approximately (z a) (z b).

Definition Dot (a b : t F) : F := x a * x b + y a * y b + z a * z b.

Definition Cross (a b : t F) : t F :=
  mk (y a * z b - z a * y b) (z a * x b - x a * z b) (x a * y b - y a * x b).

Definition Lerp (a b : t F) (s : F) : t F :=
  mk (Math.Lerp (x a) (x b) s) (Math.Lerp (y a) (y b) s)
     (Math.Lerp (z a) (z b) s).
(** [operator*(const Vector3&)]: component-wise product. *)
Definition mulv (a b : t F) : t F := mk (x a * x b) (y a * y b) (z a * z b).

(** [operator-()] *)
Definition neg (a : t F) : t F := mk (- x a) (- y a) (- z a).

Definition isNormalized (a : t F) : bool :=
  Math.Approximately (LengthSquared a) 1.


Definition LerpClamped (a b : t F) (s : F) : t F :=
  let s := Math.Clamp s 0 1 in
  Lerp a b s.

Definition QuadraticLerp (a b c : t F) (s : F) : t F :=
  let ab := Lerp a b s in
  let bc := Lerp b c s in
  Lerp ab bc s.

(** [Project]: [Vector3::Zero] when [b] has a near-zero squared length,
    otherwise [b * (dot / lenSq)]. *)
Definition Project (a b : t F) : t F :=
  let dot := Dot a b in
  let lenSq := LengthSquared b in
  if Math.NearZero lenSq then Zero else scale b (dot / lenSq).

(** [Reject]: [incident - normal * (2.0f * dot)]. *)
Definition Reject (incident normal : t F) : t F :=
  let dot := Dot incident normal in
  sub incident (scale normal (2 * dot)).

Definition Distance (a b : t F) : F := Length (sub a b).
Definition DistanceSquared (a b : t F) : F := LengthSquared (sub a b).
End Defs.
End Vector3.

(* ===================================================================== *)
(** * Vector4.h                                                          *)
(* ===================================================================== *)

Module Vector4.
Record t (F : Type) : Type := mk { x : F; y : F; z : F; w : F }.
Arguments mk {F} _ _ _ _.
Arguments x {F} _.
Arguments y {F} _.
Arguments z {F} _.
Arguments w {F} _.

Section Defs.
Context {F : Type} `{Scalar F}.
Local Open Scope scalar_scope.

(** [Vector4(const Vector3& vec, f32 w)] *)
Definition ofVector3 (v : Vector3.t F) (w0 : F) : t F :=
  mk (Vector3.x v) (Vector3.y v) (Vector3.z v) w0.

Definition XYZ (v : t F) : Vector3.t F := Vector3.mk (x v) (y v) (z v).

(** [Homogenized]: the components as they are when [w] is near zero,
    otherwise multiplied by [1.0f / w]. *)
Definition Homogenized (v : t F) : Vector3.t F :=
  if Math.NearZero (w v) then Vector3.mk (x v) (y v) (z v)
  else
    let invW := 1 / w v in
    Vector3.mk (x v * invW) (y v * invW) (z v * invW).
Definition add (a b : t F) : t F :=
  mk (x a + x b) (y a + y b) (z a + z b) (w a + w b).
Definition sub (a b : t F) : t F :=
  mk (x a - x b) (y a - y b) (z a - z b) (w a - w b).
Definition scale (a : t F) (s : F) : t F :=
  mk (x a * s) (y a * s) (z a * s) (w a * s).
(** [operator/(f32)]: multiplies by [inv = 1.0f / scalar]. *)
Definition div (a : t F) (s : F) : t F :=
  let inv := 1 / s in
  mk (x a * inv) (y a * inv) (z a * inv) (w a * inv).

Definition LengthSquared (a : t F) : F :=
  x a * x a + y a * y a + z a * z a + w a * w a.
Definition Length (a : t F) : F := fsqrt (LengthSquared a).

(** [Normalize]: scales by [1.0f / len] when [len > EPSILON]. *)
Definition Normalize (a : t F) : t F :=
  let len := Length a in
  if len >? Math.EPSILON then
    let invLen := 1 / len in
    mk (x a * invLen) (y a * invLen) (z a * invLen) (w a * invLen)
  else a.
Definition Normalized (a : t F) : t F := Normalize a.

Definition Dot (a b : t F) : F :=
  x a * x b + y a * y b + z a * z b + w a * w b.
End Defs.
End Vector4.

(* ===================================================================== *)
(** * Matrix3.h                                                          *)
(* ===================================================================== *)

Module Matrix3.
(** The nine floats [m[0] .. m[8]]; [mm[i][j]] is [m[3*i + j]]. *)
Record t (F : Type) : Type := mk {
  m0 : F; m1 : F; m2 : F;
  m3 : F; m4 : F; m5 : F;
  m6 : F; m7 : F; m8 : F
}.
Arguments mk {F} _ _ _ _ _ _ _ _ _.
Arguments m0 {F} _. Arguments m1 {F} _. Arguments m2 {F} _.
Arguments m3 {F} _. Arguments m4 {F} _. Arguments m5 {F} _.
Arguments m6 {F} _. Arguments m7 {F} _. Arguments m8 {F} _.

Section Defs.
Context {F : Type} `{Scalar F}.
Local Open Scope scalar_scope.

(** [m[i]] for [i < 9]; the model answers [0] past the array, where the
    source never reads. *)
Definition get (M : t F) (i : nat) : F :=
  match i with
  | 0%nat => m0 M | 1%nat => m1 M | 2%nat => m2 M
  | 3%nat => m3 M | 4%nat => m4 M | 5%nat => m5 M
  | 6%nat => m6 M | 7%nat => m7 M | 8%nat => m8 M
  | _ => 0
  end.

Definition init (f : nat -> F) : t F :=
  mk (f 0%nat) (f 1%nat) (f 2%nat)
     (f 3%nat) (f 4%nat) (f 5%nat)
     (f 6%nat) (f 7%nat) (f 8%nat).

Definition at_ (M : t F) (row col : nat) : F := get M (3 * row + col).

Definition Identity : t F :=
  mk 1 0 0
     0 1 0
     0 0 1.

(** [operator*(const Matrix3&)]: each entry starts at [0.0f] and
    accumulates [mm[i][k] * other.mm[k][j]] for [k = 0, 1, 2]. *)
Definition mul (A B : t F) : t F :=
  init (fun idx =>
    let i := (idx / 3)%nat in
    let j := (idx mod 3)%nat in
    fold_left (fun acc k => acc + at_ A i k * at_ B k j)
              (0 :: 1 :: 2 :: nil)%nat 0).

(** [operator*(const Vector3&)] *)
Definition mulVec (M : t F) (vec : Vector3.t F) : Vector3.t F :=
  let '(Vector3.mk vx vy vz) := vec in
  Vector3.mk (m0 M * vx + m1 M * vy + m2 M * vz)
             (m3 M * vx + m4 M * vy + m5 M * vz)
             (m6 M * vx + m7 M * vy + m8 M * vz).

(** [Transposed]: [result.mm[j][i] = mm[i][j]]. *)
Definition Transposed (M : t F) : t F :=
  init (fun idx => at_ M (idx mod 3) (idx / 3)).

Definition Determinant (M : t F) : F :=
  let '(mk a0 a1 a2 a3 a4 a5 a6 a7 a8) := M in
  a0 * (a4 * a8 - a5 * a7) -
  a1 * (a3 * a8 - a5 * a6) +
  a2 * (a3 * a7 - a4 * a6).

(** [Inverted]: [Identity()] when the determinant is near zero, otherwise
    the adjugate entries times [invDet = 1.0f / det]. *)
Definition Inverted (M : t F) : t F :=
  let det := Determinant M in
  if Math.NearZero det then Identity
  else
    let invDet := 1 / det in
    let '(mk a0 a1 a2 a3 a4 a5 a6 a7 a8) := M in
    mk ((a4 * a8 - a5 * a7) * invDet)
       ((a2 * a7 - a1 * a8) * invDet)
       ((a1 * a5 - a2 * a4) * invDet)
       ((a5 * a6 - a3 * a8) * invDet)
       ((a0 * a8 - a2 * a6) * invDet)
       ((a2 * a3 - a0 * a5) * invDet)
       ((a3 * a7 - a4 * a6) * invDet)
       ((a1 * a6 - a0 * a7) * invDet)
       ((a0 * a4 - a1 * a3) * invDet).
End Defs.
End Matrix3.

(* ===================================================================== *)
(** * Matrix4.h                                                          *)
(* ===================================================================== *)

Module Matrix4.
(** The sixteen floats [m[0] .. m[15]].  The union member [mm[i][j]] is the
    same storage read as [m[4*i + j]]. *)
Record t (F : Type) : Type := mk {
  m0 : F; m1 : F; m2 : F; m3 : F;
  m4 : F; m5 : F; m6 : F; m7 : F;
  m8 : F; m9 : F; m10 : F; m11 : F;
  m12 : F; m13 : F; m14 : F; m15 : F
}.
Arguments mk {F} _ _ _ _ _ _ _ _ _ _ _ _ _ _ _ _.
Arguments m0 {F} _. Arguments m1 {F} _. Arguments m2 {F} _.
Arguments m3 {F} _. Arguments m4 {F} _. Arguments m5 {F} _.
Arguments m6 {F} _. Arguments m7 {F} _. Arguments m8 {F} _.
Arguments m9 {F} _. Arguments m10 {F} _. Arguments m11 {F} _.
Arguments m12 {F} _. Arguments m13 {F} _. Arguments m14 {F} _.
Arguments m15 {F} _.

Section Defs.
Context {F : Type} `{Scalar F}.
Local Open Scope scalar_scope.

(** [m[i]] for [i < 16]; reading past the array is undefined in the source
    and never done by it, the model answers [0] there. *)
Definition get (M : t F) (i : nat) : F :=
  match i with
  | 0%nat => m0 M | 1%nat => m1 M | 2%nat => m2 M | 3%nat => m3 M
  | 4%nat => m4 M | 5%nat => m5 M | 6%nat => m6 M | 7%nat => m7 M
  | 8%nat => m8 M | 9%nat => m9 M | 10%nat => m10 M | 11%nat => m11 M
  | 12%nat => m12 M | 13%nat => m13 M | 14%nat => m14 M | 15%nat => m15 M
  | _ => 0
  end.

(** The matrix whose [m[i]] is [f i]. *)
Definition init (f : nat -> F) : t F :=
  mk (f 0%nat) (f 1%nat) (f 2%nat) (f 3%nat)
     (f 4%nat) (f 5%nat) (f 6%nat) (f 7%nat)
     (f 8%nat) (f 9%nat) (f 10%nat) (f 11%nat)
     (f 12%nat) (f 13%nat) (f 14%nat) (f 15%nat).

(** The assignment [M.m[i] = v]. *)
Definition set (M : t F) (i : nat) (v : F) : t F :=
  init (fun j => if Nat.eqb j i then v else get M j).

(** [mm[i][j]] and [operator()(row, col)]. *)
Definition at_ (M : t F) (row col : nat) : F := get M (4 * row + col).

(** [SetIdentity], [Matrix4()] and [Identity()]. *)
Definition Identity : t F :=
  mk 1 0 0 0
     0 1 0 0
     0 0 1 0
     0 0 0 1.

(** [operator*(const Matrix4&)]: [result.mm[i][j] = 0.0f] and then
    [+= mm[i][k] * other.mm[k][j]] for [k = 0 .. 3], in this order. *)
Definition mul (A B : t F) : t F :=
  init (fun idx =>
    let i := (idx / 4)%nat in
    let j := (idx mod 4)%nat in
    fold_left (fun acc k => acc + at_ A i k * at_ B k j)
              (0 :: 1 :: 2 :: 3 :: nil)%nat 0).

(** [operator*(const Vector4&)] *)
Definition mulVec (M : t F) (v : Vector4.t F) : Vector4.t F :=
  let '(Vector4.mk vx vy vz vw) := v in
  Vector4.mk
    (m0 M * vx + m1 M * vy + m2 M * vz + m3 M * vw)
    (m4 M * vx + m5 M * vy + m6 M * vz + m7 M * vw)
    (m8 M * vx + m9 M * vy + m10 M * vz + m11 M * vw)
    (m12 M * vx + m13 M * vy + m14 M * vz + m15 M * vw).

Definition TransformPoint (M : t F) (point : Vector3.t F) : Vector3.t F :=
  Vector4.Homogenized (mulVec M (Vector4.ofVector3 point 1)).

(** [operator==]: [Math::Approximately] on each of the sixteen entries. *)
Definition eqb (A B : t F) : bool :=
  forallb (fun i => Math.Approximately (get A i) (get B i)) (seq 0 16).

(** [Determinant]: [det] starts at [0.0f]; the four cofactor terms of the
    first row are added and subtracted in turn. *)
Definition Determinant (M : t F) : F :=
  let '(mk a0 a1 a2 a3 a4 a5 a6 a7 a8 a9 a10 a11 a12 a13 a14 a15) := M in
  let det := 0 in
  let det := det + a0 * (a5 * (a10 * a15 - a11 * a14) -
                         a6 * (a9 * a15 - a11 * a13) +
                         a7 * (a9 * a14 - a10 * a13)) in
  let det := det - a1 * (a4 * (a10 * a15 - a11 * a14) -
                         a6 * (a8 * a15 - a11 * a12) +
                         a7 * (a8 * a14 - a10 * a12)) in
  let det := det + a2 * (a4 * (a9 * a15 - a11 * a13) -
                         a5 * (a8 * a15 - a11 * a12) +
                         a7 * (a8 * a13 - a9 * a12)) in
  let det := det - a3 * (a4 * (a9 * a14 - a10 * a13) -
                         a5 * (a8 * a14 - a10 * a12) +
                         a6 * (a8 * a13 - a9 * a12)) in
  det.

(** [Inverted]: [Identity()] when the determinant is near zero, otherwise
    the adjugate scaled by [invDet = 1.0f / det]; [-invDet * (...)] negates
    [invDet] first, as the C++ expression does. *)
Definition Inverted (M : t F) : t F :=
  let det := Determinant M in
  if Math.NearZero det then Identity
  else
    let invDet := 1 / det in
    let '(mk a0 a1 a2 a3 a4 a5 a6 a7 a8 a9 a10 a11 a12 a13 a14 a15) := M in
    mk
      (invDet * (a5 * (a10 * a15 - a11 * a14) -
                 a6 * (a9 * a15 - a11 * a13) +
                 a7 * (a9 * a14 - a10 * a13)))
      (- invDet * (a1 * (a10 * a15 - a11 * a14) -
                   a2 * (a9 * a15 - a11 * a13) +
                   a3 * (a9 * a14 - a10 * a13)))
      (invDet * (a1 * (a6 * a15 - a7 * a14) -
                 a2 * (a5 * a15 - a7 * a13) +
                 a3 * (a5 * a14 - a6 * a13)))
      (- invDet * (a1 * (a6 * a11 - a7 * a10) -
                   a2 * (a5 * a11 - a7 * a9) +
                   a3 * (a5 * a10 - a6 * a9)))
      (- invDet * (a4 * (a10 * a15 - a11 * a14) -
                   a6 * (a8 * a15 - a11 * a12) +
                   a7 * (a8 * a14 - a10 * a12)))
      (invDet * (a0 * (a10 * a15 - a11 * a14) -
                 a2 * (a8 * a15 - a11 * a12) +
                 a3 * (a8 * a14 - a10 * a12)))
      (- invDet * (a0 * (a6 * a15 - a7 * a14) -
                   a2 * (a4 * a15 - a7 * a12) +
                   a3 * (a4 * a14 - a6 * a12)))
      (invDet * (a0 * (a6 * a11 - a7 * a10) -
                 a2 * (a4 * a11 - a7 * a8) +
                 a3 * (a4 * a10 - a6 * a8)))
      (invDet * (a4 * (a9 * a15 - a11 * a13) -
                 a5 * (a8 * a15 - a11 * a12) +
                 a7 * (a8 * a13 - a9 * a12)))
      (- invDet * (a0 * (a9 * a15 - a11 * a13) -
                   a1 * (a8 * a15 - a11 * a12) +
                   a3 * (a8 * a13 - a9 * a12)))
      (invDet * (a0 * (a5 * a15 - a7 * a13) -
                 a1 * (a4 * a15 - a7 * a12) +
                 a3 * (a4 * a13 - a5 * a12)))
      (- invDet * (a0 * (a5 * a11 - a7 * a9) -
                   a1 * (a4 * a11 - a7 * a8) +
                   a3 * (a4 * a9 - a5 * a8)))
      (- invDet * (a4 * (a9 * a14 - a10 * a13) -
                   a5 * (a8 * a14 - a10 * a12) +
                   a6 * (a8 * a13 - a9 * a12)))
      (invDet * (a0 * (a9 * a14 - a10 * a13) -
                 a1 * (a8 * a14 - a10 * a12) +
                 a2 * (a8 * a13 - a9 * a12)))
      (- invDet * (a0 * (a5 * a14 - a6 * a13) -
                   a1 * (a4 * a14 - a6 * a12) +
                   a2 * (a4 * a13 - a5 * a12)))
      (invDet * (a0 * (a5 * a10 - a6 * a9) -
                 a1 * (a4 * a10 - a6 * a8) +
                 a2 * (a4 * a9 - a5 * a8))).

(** [Orthographic]: six entries of the identity are overwritten. *)
Definition Orthographic (left right bottom top near far : F) : t F :=
  let result := Identity in
  let result := set result 0 (2 / (right - left)) in
  let result := set result 5 (2 / (top - bottom)) in
  let result := set result 10 (fneg 2 / (far - near)) in
  let result := set result 3 (- (right + left) / (right - left)) in
  let result := set result 7 (- (top + bottom) / (top - bottom)) in
  let result := set result 11 (- (far + near) / (far - near)) in
  result.

(** [Perspective] *)
Definition Perspective `{Libm F} (fov aspect near far : F) : t F :=
  let result := Identity in
  let tanHalfFov := ftan (fov * dec 5 10) in
  let result := set result 0 (1 / (aspect * tanHalfFov)) in
  let result := set result 5 (1 / tanHalfFov) in
  let result := set result 10 (- (far + near) / (far - near)) in
  let result := set result 11 (- (2 * far * near) / (far - near)) in
  let result := set result 14 (fneg 1) in
  let result := set result 15 0 in
  result.

(** [LookAt] *)
Definition LookAt (eye target up : Vector3.t F) : t F :=
  let z := Vector3.Normalized (Vector3.sub eye target) in
  let x := Vector3.Normalized (Vector3.Cross up z) in
  let y := Vector3.Cross z x in
  let result := Identity in
  let result := set result 0 (Vector3.x x) in
  let result := set result 1 (Vector3.y x) in
  let result := set result 2 (Vector3.z x) in
  let result := set result 4 (Vector3.x y) in
  let result := set result 5 (Vector3.y y) in
  let result := set result 6 (Vector3.z y) in
  let result := set result 8 (Vector3.x z) in
  let result := set result 9 (Vector3.y z) in
  let result := set result 10 (Vector3.z z) in
  let result := set result 3 (- Vector3.Dot x eye) in
  let result := set result 7 (- Vector3.Dot y eye) in
  let result := set result 11 (- Vector3.Dot z eye) in
  result.
(** [operator+] and [operator-]: entry by entry. *)
Definition add (A B : t F) : t F := init (fun i => get A i + get B i).
Definition sub (A B : t F) : t F := init (fun i => get A i - get B i).

(** [Transposed]: [result.mm[j][i] = mm[i][j]]. *)
Definition Transposed (M : t F) : t F :=
  init (fun idx => at_ M (idx mod 4) (idx / 4)).

Definition TransformDirection (M : t F) (direction : Vector3.t F)
  : Vector3.t F :=
  Vector4.XYZ (mulVec M (Vector4.ofVector3 direction 0)).

Definition Translation (translation : Vector3.t F) : t F :=
  let result := Identity in
  let result := set result 3 (Vector3.x translation) in
  let result := set result 7 (Vector3.y translation) in
  let result := set result 11 (Vector3.z translation) in
  result.

Definition Scale (scale : Vector3.t F) : t F :=
  let result := Identity in
  let result := set result 0 (Vector3.x scale) in
  let result := set result 5 (Vector3.y scale) in
  let result := set result 10 (Vector3.z scale) in
  result.

Definition RotationX `{Libm F} (angle : F) : t F :=
  let result := Identity in
  let c := fcos angle in
  let s := fsin angle in
  let result := set result 5 c in
  let result := set result 6 (- s) in
  let result := set result 9 s in
  let result := set result 10 c in
  result.

Definition RotationY `{Libm F} (angle : F) : t F :=
  let result := Identity in
  let c := fcos angle in
  let s := fsin angle in
  let result := set result 0 c in
  let result := set result 2 s in
  let result := set result 8 (- s) in
  let result := set result 10 c in
  result.

Definition RotationZ `{Libm F} (angle : F) : t F :=
  let result := Identity in
  let c := fcos angle in
  let s := fsin angle in
  let result := set result 0 c in
  let result := set result 1 (- s) in
  let result := set result 4 s in
  let result := set result 5 c in
  result.

(** [Rotation(axis, angle)]: the axis is normalized first. *)
Definition Rotation `{Libm F} (axis : Vector3.t F) (angle : F) : t F :=
  let result := Identity in
  let n := Vector3.Normalized axis in
  let c := fcos angle in
  let s := fsin angle in
  let t0 := 1 - c in
  let nx := Vector3.x n in
  let ny := Vector3.y n in
  let nz := Vector3.z n in
  let result := set result 0 (t0 * nx * nx + c) in
  let result := set result 1 (t0 * nx * ny - s * nz) in
  let result := set result 2 (t0 * nx * nz + s * ny) in
  let result := set result 4 (t0 * nx * ny + s * nz) in
  let result := set result 5 (t0 * ny * ny + c) in
  let result := set result 6 (t0 * ny * nz - s * nx) in
  let result := set result 8 (t0 * nx * nz - s * ny) in
  let result := set result 9 (t0 * ny * nz + s * nx) in
  let result := set result 10 (t0 * nz * nz + c) in
  result.

(** [GetNormalMatrix]: the upper-left 3x3 block, inverted and
    transposed. *)
Definition GetNormalMatrix (M : t F) : Matrix3.t F :=
  let upperLeft :=
    Matrix3.mk (m0 M) (m1 M) (m2 M)
               (m4 M) (m5 M) (m6 M)
               (m8 M) (m9 M) (m10 M) in
  Matrix3.Transposed (Matrix3.Inverted upperLeft).
End Defs.
End Matrix4.

(* ===================================================================== *)
(** * Quaternion.h                                                       *)
(* ===================================================================== *)

Module Quaternion.
Record t (F : Type) : Type := mk { x : F; y : F; z : F; w : F }.
Arguments mk {F} _ _ _ _.
Arguments x {F} _.
Arguments y {F} _.
Arguments z {F} _.
Arguments w {F} _.

Section Defs.
Context {F : Type} `{Scalar F}.
Local Open Scope scalar_scope.

(** [Quaternion()] and [Identity()] *)
Definition Identity : t F := mk 0 0 0 1.

Definition add (a b : t F) : t F :=
  mk (x a + x b) (y a + y b) (z a + z b) (w a + w b).

(** [operator*(const Quaternion&)]: the Hamilton product. *)
Definition mul (a b : t F) : t F :=
  mk (w a * x b + x a * w b + y a * z b - z a * y b)
     (w a * y b - x a * z b + y a * w b + z a * x b)
     (w a * z b + x a * y b - y a * x b + z a * w b)
     (w a * w b - x a * x b - y a * y b - z a * z b).

(** [operator*(f32 scalar)] *)
Definition scale (a : t F) (s : F) : t F :=
  mk (x a * s) (y a * s) (z a * s) (w a * s).

Definition Conjugate (a : t F) : t F := mk (- x a) (- y a) (- z a) (w a).

(** [operator*(const Vector3&)]: [this * p * Conjugate()] with
    [p = (vec, 0)], vector part of the result. *)
Definition rotate (q : t F) (vec : Vector3.t F) : Vector3.t F :=
  let p := mk (Vector3.x vec) (Vector3.y vec) (Vector3.z vec) 0 in
  let result := mul (mul q p) (Conjugate q) in
  Vector3.mk (x result) (y result) (z result).

Definition LengthSquared (a : t F) : F :=
  x a * x a + y a * y a + z a * z a + w a * w a.
Definition Length (a : t F) : F := fsqrt (LengthSquared a).

(** [Normalize]: scales by [1.0f / len] when [len > EPSILON] and leaves the
    quaternion as it is otherwise. *)
Definition Normalize (a : t F) : t F :=
  let len := Length a in
  if len >? Math.EPSILON then
    let invLen := 1 / len in
    mk (x a * invLen) (y a * invLen) (z a * invLen) (w a * invLen)
  else a.

Definition Normalized (a : t F) : t F := Normalize a.

Definition Dot (a b : t F) : F :=
  x a * x b + y a * y b + z a * z b + w a * w b.

(** [operator==]: component-wise [Math::Approximately]. *)
Definition eqb (a b : t F) : bool :=
  Math.Approximately (x a) (x b) && Math.Approximately (y a) (y b)
  && Math.Approximately (z a) (z b) && Math.Approximately (w a) (w b).

(** [ToMatrix]: nine entries of the identity are overwritten. *)
Definition ToMatrix (q : t F) : Matrix4.t F :=
  let result := Matrix4.Identity in
  let xx := x q * x q in let yy := y q * y q in let zz := z q * z q in
  let xy := x q * y q in let xz := x q * z q in let xw := x q * w q in
  let yz := y q * z q in let yw := y q * w q in let zw := z q * w q in
  let result := Matrix4.set result 0 (1 - 2 * (yy + zz)) in
  let result := Matrix4.set result 1 (2 * (xy - zw)) in
  let result := Matrix4.set result 2 (2 * (xz + yw)) in
  let result := Matrix4.set result 4 (2 * (xy + zw)) in
  let result := Matrix4.set result 5 (1 - 2 * (xx + zz)) in
  let result := Matrix4.set result 6 (2 * (yz - xw)) in
  let result := Matrix4.set result 8 (2 * (xz - yw)) in
  let result := Matrix4.set result 9 (2 * (yz + xw)) in
  let result := Matrix4.set result 10 (1 - 2 * (xx + yy)) in
  result.

Definition FromAxisAngle `{Libm F} (axis : Vector3.t F) (angle : F) : t F :=
  let halfAngle := angle * dec 5 10 in
  let s := fsin halfAngle in
  let n := Vector3.Normalized axis in
  mk (Vector3.x n * s) (Vector3.y n * s) (Vector3.z n * s) (fcos halfAngle).

(** [Lerp]: [t] is clamped to [[0, 1]] first. *)
Definition Lerp (a b : t F) (t0 : F) : t F :=
  let t0 := Math.Clamp t0 0 1 in
  Normalized (add (scale a (1 - t0)) (scale b t0)).

(** [Slerp] *)
Definition Slerp `{Libm F} (a b : t F) (t0 : F) : t F :=
  let t0 := Math.Clamp t0 0 1 in
  let cosHalfTheta := Dot a b in
  let b2 := b in
  let '(b2, cosHalfTheta) :=
    if cosHalfTheta <? 0 then (scale b (fneg 1), - cosHalfTheta)
    else (b2, cosHalfTheta) in
  if cosHalfTheta >? dec 9999 10000 then Lerp a b2 t0
  else
    let halfTheta := facos cosHalfTheta in
    let sinHalfTheta := fsqrt (1 - cosHalfTheta * cosHalfTheta) in
    if Math.NearZero sinHalfTheta then Lerp a b2 t0
    else
      let ratioA := fsin ((1 - t0) * halfTheta) / sinHalfTheta in
      let ratioB := fsin (t0 * halfTheta) / sinHalfTheta in
      Normalized (add (scale a ratioA) (scale b2 ratioB)).

(** [FromRotationMatrix]: the trace-based conversion.  [mRC] names the
    entry the source reads as [matrix(R, C)]. *)
Definition FromRotationMatrix (matrix : Matrix4.t F) : t F :=
  let m00 := Matrix4.at_ matrix 0 0 in
  let m01 := Matrix4.at_ matrix 0 1 in
  let m02 := Matrix4.at_ matrix 0 2 in
  let m10 := Matrix4.at_ matrix 1 0 in
  let m11 := Matrix4.at_ matrix 1 1 in
  let m12 := Matrix4.at_ matrix 1 2 in
  let m20 := Matrix4.at_ matrix 2 0 in
  let m21 := Matrix4.at_ matrix 2 1 in
  let m22 := Matrix4.at_ matrix 2 2 in
  let trace := m00 + m11 + m22 in
  let result :=
    if trace >? 0 then
      let s := dec 5 10 / fsqrt (trace + 1) in
      mk ((m21 - m12) * s)
         ((m02 - m20) * s)
         ((m10 - m01) * s)
         (dec 25 100 / s)
    else if (m00 >? m11) && (m00 >? m22) then
      let s := 2 * fsqrt (1 + m00 - m11 - m22) in
      mk (dec 25 100 * s)
         ((m01 + m10) / s)
         ((m02 + m20) / s)
         ((m21 - m12) / s)
    else if m11 >? m22 then
      let s := 2 * fsqrt (1 + m11 - m00 - m22) in
      mk ((m01 + m10) / s)
         (dec 25 100 * s)
         ((m12 + m21) / s)
         ((m02 - m20) / s)
    else
      let s := 2 * fsqrt (1 + m22 - m00 - m11) in
      mk ((m02 + m20) / s)
         ((m12 + m21) / s)
         (dec 25 100 * s)
         ((m10 - m01) / s) in
  Normalized result.
(** [Inverse]: [Identity()] when the squared length is near zero,
    otherwise the conjugate times [1.0f / lenSq]. *)
Definition Inverse (a : t F) : t F :=
  let lenSq := LengthSquared a in
  if Math.NearZero lenSq then Identity
  else scale (Conjugate a) (1 / lenSq).

Definition FromEuler `{Libm F} (euler : Vector3.t F) : t F :=
  let halfX := Vector3.x euler * dec 5 10 in
  let halfY := Vector3.y euler * dec 5 10 in
  let halfZ := Vector3.z euler * dec 5 10 in
  let cx := fcos halfX in let sx := fsin halfX in
  let cy := fcos halfY in let sy := fsin halfY in
  let cz := fcos halfZ in let sz := fsin halfZ in
  mk (sx * cy * cz - cx * sy * sz)
     (cx * sy * cz + sx * cy * sz)
     (cx * cy * sz - sx * sy * cz)
     (cx * cy * cz + sx * sy * sz).

(** [LookRotation(forward, up)]: the rows [r], [u], [f] of a matrix that
    is handed to [FromRotationMatrix]. *)
Definition LookRotation (forward up : Vector3.t F) : t F :=
  let f := Vector3.Normalized forward in
  let u := Vector3.Normalized up in
  let r := Vector3.Cross u f in
  let u := Vector3.Cross f r in
  let m := Matrix4.Identity in
  let m := Matrix4.set m 0 (Vector3.x r) in
  let m := Matrix4.set m 1 (Vector3.y r) in
  let m := Matrix4.set m 2 (Vector3.z r) in
  let m := Matrix4.set m 4 (Vector3.x u) in
  let m := Matrix4.set m 5 (Vector3.y u) in
  let m := Matrix4.set m 6 (Vector3.z u) in
  let m := Matrix4.set m 8 (Vector3.x f) in
  let m := Matrix4.set m 9 (Vector3.y f) in
  let m := Matrix4.set m 10 (Vector3.z f) in
  FromRotationMatrix m.
End Defs.
End Quaternion.

(* ===================================================================== *)
(** * Transform.h, Plane.h, Ray.h                                        *)
(* ===================================================================== *)

Module Transform.
Record t (F : Type) : Type := mk {
  position : Vector3.t F;
  rotation : Quaternion.t F;
  scale : Vector3.t F
}.
Arguments mk {F} _ _ _.
Arguments position {F} _.
Arguments rotation {F} _.
Arguments scale {F} _.

Section Defs.
Context {F : Type} `{Scalar F}.
Local Open Scope scalar_scope.

(** [ToMatrix]: [translation * rotationMat * scaleMat], the product
    taken from the left. *)
Definition ToMatrix (tr : t F) : Matrix4.t F :=
  let translation := Matrix4.Translation (position tr) in
  let rotationMat := Quaternion.ToMatrix (rotation tr) in
  let scaleMat := Matrix4.Scale (scale tr) in
  Matrix4.mul (Matrix4.mul translation rotationMat) scaleMat.

(** [operator*(const Transform&)] *)
Definition mul (a other : t F) : t F :=
  mk (Vector3.add (position a)
        (Quaternion.rotate (rotation a)
           (Vector3.mulv (position other) (scale a))))
     (Quaternion.mul (rotation a) (rotation other))
     (Vector3.mulv (scale a) (scale other)).

Definition LookAt (tr : t F) (target up : Vector3.t F) : t F :=
  mk (position tr)
     (Quaternion.LookRotation (Vector3.sub target (position tr)) up)
     (scale tr).

Definition Lerp `{Libm F} (a b : t F) (s : F) : t F :=
  mk (Vector3.Lerp (position a) (position b) s)
     (Quaternion.Slerp (rotation a) (rotation b) s)
     (Vector3.Lerp (scale a) (scale b) s).
End Defs.
End Transform.

Module Plane.
Record t (F : Type) : Type := mk { normal : Vector3.t F; distance : F }.
Arguments mk {F} _ _.
Arguments normal {F} _.
Arguments distance {F} _.

Section Defs.
Context {F : Type} `{Scalar F}.
Local Open Scope scalar_scope.

(** [Plane(const Vector3& normal, f32 distance)] *)
Definition ofNormalDistance (n : Vector3.t F) (d : F) : t F :=
  mk (Vector3.Normalized n) d.

(** [Plane(const Vector3& point, const Vector3& normal)]: in the
    initializer [Vector3::Dot(normal, point)] the name [normal] is the
    constructor's parameter, the vector as passed. *)
Definition ofPointNormal (point n : Vector3.t F) : t F :=
  mk (Vector3.Normalized n) (Vector3.Dot n point).

(** [Plane(a, b, c)] *)
Definition ofPoints (a b c : Vector3.t F) : t F :=
  let n := Vector3.Normalized
             (Vector3.Cross (Vector3.sub b a) (Vector3.sub c a)) in
  mk n (Vector3.Dot n a).

Definition GetDistanceToPoint (p : t F) (point : Vector3.t F) : F :=
  Vector3.Dot (normal p) point - distance p.

Definition ClosestPoint (p : t F) (point : Vector3.t F) : Vector3.t F :=
  Vector3.sub point (Vector3.scale (normal p) (GetDistanceToPoint p point)).

Definition GetSide (p : t F) (point : Vector3.t F) : bool :=
  GetDistanceToPoint p point >? 0.
End Defs.
End Plane.

Module Ray.
Record t (F : Type) : Type := mk {
  origin : Vector3.t F;
  direction : Vector3.t F
}.
Arguments mk {F} _ _.
Arguments origin {F} _.
Arguments direction {F} _.

Section Defs.
Context {F : Type} `{Scalar F}.
Local Open Scope scalar_scope.

(** [Ray(origin, direction)]: the direction is normalized. *)
Definition make (o d : Vector3.t F) : t F := mk o (Vector3.Normalized d).

Definition GetPoint (r : t F) (dist : F) : Vector3.t F :=
  Vector3.add (origin r) (Vector3.scale (direction r) dist).

(** [IntersectsPlane]: the returned flag and the value of the
    out-parameter [distance] after the call, [dist0] being its value
    before. *)
Definition IntersectsPlane (r : t F) (planePoint planeNormal : Vector3.t F)
    (dist0 : F) : bool * F :=
  let denom := Vector3.Dot (direction r) planeNormal in
  if Math.NearZero denom then (false, dist0)
  else
    let dist :=
      Vector3.Dot (Vector3.sub planePoint (origin r)) planeNormal / denom in
    (dist >=? 0, dist).
End Defs.
End Ray.

(* ===================================================================== *)
(** * Log.h: what the [ENGINE_*] stream macros emit                      *)
(* ===================================================================== *)

Module Log.
Inductive Level : Type := Info | Warn | Error.

(** A message is the sequence of pieces streamed with [<<]: string
    literals, and values (numbers or names) printed in between. *)
Inductive Piece (V : Type) : Type :=
| Str (s : string)
| Val (v : V).
Arguments Str {V} _.
Arguments Val {V} _.

Definition Entry (V : Type) : Type := (Level * list (Piece V))%type.
End Log.

(* ===================================================================== *)
(** * Camera.h, Camera.cpp                                               *)
(* ===================================================================== *)

Module Camera.
Inductive CameraType : Type := Perspective | Orthographic.

Record t (F : Type) : Type := mk {
  m_Type : CameraType;
  m_Position : Vector3.t F;
  m_Rotation : Quaternion.t F;
  m_FOV : F;
  m_Size : F;
  m_Aspect : F;
  m_Near : F;
  m_Far : F;
  m_ViewMatrix : Matrix4.t F;
  m_ProjectionMatrix : Matrix4.t F
}.
Arguments mk {F} _ _ _ _ _ _ _ _ _ _.
Arguments m_Type {F} _.
Arguments m_Position {F} _.
Arguments m_Rotation {F} _.
Arguments m_FOV {F} _.
Arguments m_Size {F} _.
Arguments m_Aspect {F} _.
Arguments m_Near {F} _.
Arguments m_Far {F} _.
Arguments m_ViewMatrix {F} _.
Arguments m_ProjectionMatrix {F} _.

Section Defs.
Context {F : Type} `{Scalar F} `{Libm F}.
Local Open Scope scalar_scope.

(** The static constants [Vector3::Forward] and [Vector3::Up] are declared
    in Vector3.h and defined in a file that is not among the sources: they
    are parameters of the camera. *)
Variable Forward Up : Vector3.t F.

Definition GetForward (c : t F) : Vector3.t F :=
  Quaternion.rotate (m_Rotation c) Forward.
Definition GetUp (c : t F) : Vector3.t F :=
  Quaternion.rotate (m_Rotation c) Up.

(** [Recalculate]: the view matrix from position and rotation, the
    projection matrix from the projection parameters of the current type. *)
Definition Recalculate (c : t F) : t F :=
  let forward := GetForward c in
  let up := GetUp c in
  let view :=
    Matrix4.LookAt (m_Position c) (Vector3.add (m_Position c) forward) up in
  let projection :=
    match m_Type c with
    | Perspective =>
        Matrix4.Perspective (m_FOV c) (m_Aspect c) (m_Near c) (m_Far c)
    | Orthographic =>
        let right := m_Size c * m_Aspect c * dec 5 10 in
        let left := - right in
        let top := m_Size c * dec 5 10 in
        let bottom := - top in
        Matrix4.Orthographic left right bottom top (m_Near c) (m_Far c)
    end in
  mk (m_Type c) (m_Position c) (m_Rotation c) (m_FOV c) (m_Size c)
     (m_Aspect c) (m_Near c) (m_Far c) view projection.

(** [Camera::Camera()]: the default parameters, then [Recalculate]. *)
Definition Default : t F :=
  Recalculate
    (mk Perspective Vector3.Zero Quaternion.Identity
        (Math.ToRadians (fofZ 60)) (fofZ 5) (fofZ 16 / fofZ 9)
        (dec 1 10) (fofZ 1000) Matrix4.Identity Matrix4.Identity).

(** [SetPerspective]: the camera after the call and what was logged. *)
Definition SetPerspective (c : t F) (fov aspect near far : F)
  : t F * list (Log.Entry F) :=
  if (fov <=? 0) || (fov >=? fPI) then
    (c, (Log.Error, Log.Str "Invalid FOV: " :: Log.Val fov
                    :: Log.Str " (must be between 0 and PI)" :: nil) :: nil)
  else if aspect <=? 0 then
    (c, (Log.Error, Log.Str "Invalid aspect ratio: " :: Log.Val aspect
                    :: Log.Str " (must be > 0)" :: nil) :: nil)
  else if near <=? 0 then
    (c, (Log.Error, Log.Str "Invalid near plane: " :: Log.Val near
                    :: Log.Str " (must be > 0)" :: nil) :: nil)
  else if far <=? near then
    (c, (Log.Error, Log.Str "Invalid far plane: " :: Log.Val far
                    :: Log.Str " (must be > near: " :: Log.Val near
                    :: Log.Str ")" :: nil) :: nil)
  else
    (Recalculate
       (mk Perspective (m_Position c) (m_Rotation c) fov (m_Size c)
           aspect near far (m_ViewMatrix c) (m_ProjectionMatrix c)),
     nil).
End Defs.

Section Mutators.
Context {F : Type} `{Scalar F} `{Libm F}.
Local Open Scope scalar_scope.
Variable Forward Up : Vector3.t F.

(** [SetOrthographic]: the camera after the call and what was logged. *)
Definition SetOrthographic (c : t F) (size aspect near far : F)
  : t F * list (Log.Entry F) :=
  if size <=? 0 then
    (c, (Log.Error, Log.Str "Invalid orthographic size: " :: Log.Val size
                    :: Log.Str " (must be > 0)" :: nil) :: nil)
  else if aspect <=? 0 then
    (c, (Log.Error, Log.Str "Invalid aspect ratio: " :: Log.Val aspect
                    :: Log.Str " (must be > 0)" :: nil) :: nil)
  else if near <=? 0 then
    (c, (Log.Error, Log.Str "Invalid near plane: " :: Log.Val near
                    :: Log.Str " (must be > 0)" :: nil) :: nil)
  else if far <=? near then
    (c, (Log.Error, Log.Str "Invalid far plane: " :: Log.Val far
                    :: Log.Str " (must be > near: " :: Log.Val near
                    :: Log.Str ")" :: nil) :: nil)
  else
    (Recalculate Forward Up
       (mk Orthographic (m_Position c) (m_Rotation c) (m_FOV c) size
           aspect near far (m_ViewMatrix c) (m_ProjectionMatrix c)),
     nil).

Definition with_position (c : t F) (p : Vector3.t F) : t F :=
  mk (m_Type c) p (m_Rotation c) (m_FOV c) (m_Size c) (m_Aspect c)
     (m_Near c) (m_Far c) (m_ViewMatrix c) (m_ProjectionMatrix c).

Definition with_rotation (c : t F) (q : Quaternion.t F) : t F :=
  mk (m_Type c) (m_Position c) q (m_FOV c) (m_Size c) (m_Aspect c)
     (m_Near c) (m_Far c) (m_ViewMatrix c) (m_ProjectionMatrix c).

(** [SetPosition], [SetRotation], [LookAt], [Move], [Rotate]: one member
    is assigned, then [Recalculate]. *)
Definition SetPosition (c : t F) (position : Vector3.t F) : t F :=
  Recalculate Forward Up (with_position c position).

Definition SetRotation (c : t F) (rotation : Quaternion.t F) : t F :=
  Recalculate Forward Up (with_rotation c rotation).

Definition LookAt (c : t F) (target up : Vector3.t F) : t F :=
  Recalculate Forward Up
    (with_rotation c
       (Quaternion.LookRotation (Vector3.sub target (m_Position c)) up)).

Definition Move (c : t F) (offset : Vector3.t F) : t F :=
  Recalculate Forward Up
    (with_position c (Vector3.add (m_Position c) offset)).

Definition Rotate (c : t F) (rotation : Quaternion.t F) : t F :=
  Recalculate Forward Up
    (with_rotation c (Quaternion.mul rotation (m_Rotation c))).

(** [GetViewProjectionMatrix]: [m_ProjectionMatrix * m_ViewMatrix]. *)
Definition GetViewProjectionMatrix (c : t F) : Matrix4.t F :=
  Matrix4.mul (m_ProjectionMatrix c) (m_ViewMatrix c).

(** A call of a public mutator, and the camera after a sequence of calls
    on a default-constructed one. *)
Inductive Call : Type :=
| CallSetPerspective (fov aspect near far : F)
| CallSetOrthographic (size aspect near far : F)
| CallSetPosition (position : Vector3.t F)
| CallSetRotation (rotation : Quaternion.t F)
| CallLookAt (target up : Vector3.t F)
| CallMove (offset : Vector3.t F)
| CallRotate (rotation : Quaternion.t F).

Definition step (c : t F) (call : Call) : t F :=
  match call with
  | CallSetPerspective fov aspect near far =>
      fst (SetPerspective Forward Up c fov aspect near far)
  | CallSetOrthographic size aspect near far =>
      fst (SetOrthographic c size aspect near far)
  | CallSetPosition p => SetPosition c p
  | CallSetRotation q => SetRotation c q
  | CallLookAt target up => LookAt c target up
  | CallMove offset => Move c offset
  | CallRotate q => Rotate c q
  end.

Definition run (calls : list Call) : t F :=
  fold_left step calls (Default Forward Up).
End Mutators.
Arguments Call F : clear implicits.
End Camera.

(* ===================================================================== *)
(** * Scene.h, Scene.cpp: the object list and its name index             *)
(* ===================================================================== *)

Module Scene.
(** A scene object: its name, and the rest of it (mesh reference,
    transform, update callback), which the functions below only copy. *)
Record SceneObject (Body : Type) : Type := mkObject {
  name : string;
  body : Body
}.
Arguments mkObject {Body} _ _.
Arguments name {Body} _.
Arguments body {Body} _.

(** The two members that [AddObject], [RemoveObject] and [FindObject]
    read and write: the vector [m_Objects] and the [unordered_map]
    [m_ObjectIndex] from names to positions in the vector. *)
Record t (Body : Type) : Type := mk {
  m_Objects : list (SceneObject Body);
  m_ObjectIndex : gmap string nat
}.
Arguments mk {Body} _ _.
Arguments m_Objects {Body} _.
Arguments m_ObjectIndex {Body} _.

Section Defs.
Context {Body : Type}.

(** A freshly constructed scene: both containers empty. *)
Definition empty : t Body := mk [] ∅.

Definition AddObject (s : t Body) (object : SceneObject Body)
  : t Body * list (Log.Entry string) :=
  match m_ObjectIndex s !! name object with
  | Some _ =>
      (s, [(Log.Warn, [Log.Str "Object with name '"; Log.Val (name object);
                       Log.Str "' already exists in scene! Skipping add."])])
  | None =>
      (mk (m_Objects s ++ [object])
          (<[name object := length (m_Objects s)]> (m_ObjectIndex s)),
       [(Log.Info, [Log.Str "Added object to scene: ";
                    Log.Val (name object)])])
  end.

(** [pair.second--] for every entry with [pair.second > index]. *)
Definition shift (index i : nat) : nat :=
  if (index <? i)%nat then (i - 1)%nat else i.

(** [RemoveObject].  [m_Objects.erase(begin() + index)] is [delete index];
    an [index] past the end is undefined in the source and leaves the list
    as it is in the model; [RemoveObject_index_valid] shows that it does
    not occur. *)
Definition RemoveObject (s : t Body) (n : string)
  : t Body * list (Log.Entry string) :=
  match m_ObjectIndex s !! n with
  | None =>
      (s, [(Log.Warn, [Log.Str "Object not found in scene: "; Log.Val n])])
  | Some index =>
      (mk (delete index (m_Objects s))
          (shift index <$> delete n (m_ObjectIndex s)),
       [(Log.Info, [Log.Str "Removed object from scene: "; Log.Val n])])
  end.

(** [FindObject]: the object the index points at, [None] for [nullptr]. *)
Definition FindObject (s : t Body) (n : string) : option (SceneObject Body) :=
  match m_ObjectIndex s !! n with
  | Some i => m_Objects s !! i
  | None => None
  end.

(** A call of the public interface, and the scene after a sequence of
    calls, starting from [empty]. *)
Inductive Call : Type :=
| CallAdd (object : SceneObject Body)
| CallRemove (n : string).

Definition step (s : t Body) (c : Call) : t Body :=
  match c with
  | CallAdd o => fst (AddObject s o)
  | CallRemove n => fst (RemoveObject s n)
  end.

Definition run (calls : list Call) : t Body := fold_left step calls empty.

(** The name index agrees with the list: a name is mapped to [i] exactly
    when the object at position [i] bears that name. *)
Definition consistent (s : t Body) : Prop :=
  forall (n : string) (i : nat),
    m_ObjectIndex s !! n = Some i <->
    exists o, m_Objects s !! i = Some o /\ name o = n.
End Defs.
Arguments Call Body : clear implicits.
End Scene.

(* ===================================================================== *)
(** * Order laws shared by the two arithmetics                           *)
(* ===================================================================== *)

(** The facts about [<] that the clamping of an interpolation parameter
    relies on.  They hold for the reals and for binary32, where a comparison
    with a NaN is false. *)
Class OrderedScalar (F : Type) `{Scalar F} : Prop := {
  fltb_irrefl : forall a : F, (a <? a)%S = false;
  fltb_trans : forall a b c : F,
    (a <? b)%S = true -> (b <? c)%S = true -> (a <? c)%S = true;
  fltb_0_1 : ((0 : F) <? 1)%S = true
}.

(** [SFcompare] orders finite values of equal sign by exponent, then by
    mantissa. *)
Definition lex_lt (e1 : Z) (m1 : positive) (e2 : Z) (m2 : positive) : Prop :=
  (e1 < e2)%Z \/ (e1 = e2 /\ (m1 < m2)%positive).


(* ===================================================================== *)
(** * Tolerances and sample data used in the statements                  *)
(* ===================================================================== *)

Module Approx.
Section Defs.
Context {F : Type} `{Scalar F}.
Local Open Scope scalar_scope.

(** [|a - b| <= tol] *)
Definition within (tol a b : F) : bool := fabs (a - b) <=? tol.

(** Every entry of [A] within [tol] of the entry of [B]. *)
Definition matrix_within (tol : F) (A B : Matrix4.t F) : bool :=
  forallb (fun i => within tol (Matrix4.get A i) (Matrix4.get B i))
          (seq 0 16).

(** The quaternion [-q], which stands for the same rotation as [q]. *)
Definition negated (q : Quaternion.t F) : Quaternion.t F :=
  Quaternion.mk (- Quaternion.x q) (- Quaternion.y q)
                (- Quaternion.z q) (- Quaternion.w q).

Definition quaternion_within (tol : F) (p q : Quaternion.t F) : bool :=
  within tol (Quaternion.x p) (Quaternion.x q)
  && within tol (Quaternion.y p) (Quaternion.y q)
  && within tol (Quaternion.z p) (Quaternion.z q)
  && within tol (Quaternion.w p) (Quaternion.w q).
End Defs.



Definition exact (M : Matrix4.t B32.t) : Matrix4.t R :=
  Matrix4.init (fun i => B32.toR (Matrix4.get M i)).
End Approx.

(** A unit quaternion over the reals: [x*x + y*y + z*z + w*w = 1]. *)
Definition unit (q : Quaternion.t R) : Prop :=
  Quaternion.LengthSquared q = 1%R.

(** The projection parameters the two setters accept: a field of view
    strictly between 0 and PI, a positive size and aspect ratio, and
    [0 < near < far]. *)
Definition valid_projection (c : Camera.t R) : Prop :=
  (0 < Camera.m_FOV c < PI)%R /\ (0 < Camera.m_Size c)%R /\
  (0 < Camera.m_Aspect c)%R /\
  (0 < Camera.m_Near c < Camera.m_Far c)%R.

(** [Slerp] with the sign of [Dot a b] resolved: [b2] is the operand the
    code interpolates towards and [c >= 0] its cosine with [a]. *)
Definition Slerp_from (a b2 : Quaternion.t R) (c t : R) : Quaternion.t R :=
  if fltb (dec 9999 10000) c then Quaternion.Lerp a b2 t
  else if Math.NearZero (fsqrt (fsub (fofZ 1) (fmul c c)))
  then Quaternion.Lerp a b2 t
  else
    Quaternion.Normalized
      (Quaternion.add
         (Quaternion.scale a
            (fdiv (fsin (fmul (fsub (fofZ 1) t) (facos c)))
                  (fsqrt (fsub (fofZ 1) (fmul c c)))))
         (Quaternion.scale b2
            (fdiv (fsin (fmul t (facos c)))
                  (fsqrt (fsub (fofZ 1) (fmul c c)))))).

Module Sample.
Section Defs.
Context {F : Type} `{Scalar F}.
Local Open Scope scalar_scope.

(** The matrix with rows [(a b 0 0)], [(c d 0 0)], [(0 0 1 0)],
    [(0 0 0 1)]. *)
Definition block2 (a b c d : Z) : Matrix4.t F :=
  Matrix4.mk (fofZ a) (fofZ b) 0 0
             (fofZ c) (fofZ d) 0 0
             0 0 1 0
             0 0 0 1.

(** The all-zero matrix. *)
Definition zero_matrix : Matrix4.t F :=
  Matrix4.mk 0 0 0 0  0 0 0 0  0 0 0 0  0 0 0 0.
End Defs.

(** A vector of length [2^-24], below [EPSILON]. *)
Definition tiny32 : Vector3.t B32.t :=
  Vector3.mk (B32.scaled 1 (-24)) (fofZ 0) (fofZ 0).

(** A default camera over the reals, with [(0,0,-1)] and [(0,1,0)] for
    the two direction constants. *)
Definition forwardR : Vector3.t R := Vector3.mk 0%R 0%R (-1)%R.
Definition upR : Vector3.t R := Vector3.mk 0%R 1%R 0%R.
Definition cameraR : Camera.t R := Camera.Default forwardR upR.

(** The identity rotation written with [w = -1]. *)
Definition minus_identity : Quaternion.t R :=
  Quaternion.mk 0%R 0%R 0%R (-1)%R.

(** An integer matrix of determinant 135. *)
Definition ill32 : Matrix4.t B32.t := block2 3231 1665 3881 2000.
Definition illR : Matrix4.t R := block2 3231 1665 3881 2000.


(** An eye point near the top of the binary32 range, one unit in front
    of its target along z, with an up vector across the view direction. *)
Definition far_eye32 : Vector3.t B32.t :=
  Vector3.mk (B32.scaled 3 126) (B32.scaled 3 126) (fofZ 0).
Definition far_target32 : Vector3.t B32.t :=
  Vector3.mk (B32.scaled 3 126) (B32.scaled 3 126) (fofZ 1).
Definition far_up32 : Vector3.t B32.t :=
  Vector3.mk (fofZ 1) (fofZ (-1)) (fofZ 0).
End Sample.

(* ===================================================================== *)
(** * Proofs                                                             *)
(* ===================================================================== *)

Section RealOrder.
Local Open Scope R_scope.

Lemma fleb_R_true (a b : R) : fleb a b = true <-> a <= b.
Proof. cbn. destruct (Rle_dec a b); split; intros; try easy. Qed.

Lemma fleb_R_false (a b : R) : fleb a b = false <-> b < a.
Proof. cbn. destruct (Rle_dec a b); split; intros; try easy; lra. Qed.

Lemma fltb_R_true (a b : R) : fltb a b = true <-> a < b.
Proof. cbn. destruct (Rlt_dec a b); split; intros; try easy. Qed.

Lemma fltb_R_false (a b : R) : fltb a b = false <-> b <= a.
Proof. cbn. destruct (Rlt_dec a b); split; intros; try easy; lra. Qed.

#[global] Instance R_Ordered : OrderedScalar R.
Proof.
  split.
  - intros a. apply fltb_R_false. lra.
  - intros a b c Hab Hbc. apply fltb_R_true.
    apply fltb_R_true in Hab. apply fltb_R_true in Hbc. lra.
  - apply fltb_R_true. cbn. lra.
Qed.
End RealOrder.

Section Binary32Order.
Lemma lex_lt_compare e1 m1 e2 m2 :
  match (e1 ?= e2)%Z with
  | Lt => Lt | Gt => Gt | Eq => Pos.compare_cont Eq m1 m2
  end = Lt <-> lex_lt e1 m1 e2 m2.
Proof.
  unfold lex_lt. destruct (Z.compare_spec e1 e2) as [E|L|G].
  - change (Pos.compare_cont Eq m1 m2) with (m1 ?= m2)%positive.
    rewrite Pos.compare_lt_iff. split; [intros; right; easy | intros [?|[_ ?]]; [lia|easy]].
  - split; [intros; left; easy | easy].
  - split; [easy | intros [?|[? _]]; lia].
Qed.

Lemma lex_gt_compare e1 m1 e2 m2 :
  match (e1 ?= e2)%Z with
  | Lt => Gt | Gt => Lt | Eq => CompOpp (Pos.compare_cont Eq m1 m2)
  end = Lt <-> lex_lt e2 m2 e1 m1.
Proof.
  unfold lex_lt. destruct (Z.compare_spec e1 e2) as [E|L|G].
  - change (Pos.compare_cont Eq m1 m2) with (m1 ?= m2)%positive.
    destruct (Pos.compare_spec m1 m2); cbn; split; try easy;
      try (intros [?|[_ ?]]; lia); intros; right; split; [easy | lia].
  - split; [easy | intros [?|[? _]]; lia].
  - split; [intros; left; lia | easy].
Qed.

Lemma lex_lt_trans e1 m1 e2 m2 e3 m3 :
  lex_lt e1 m1 e2 m2 -> lex_lt e2 m2 e3 m3 -> lex_lt e1 m1 e3 m3.
Proof. unfold lex_lt. lia. Qed.

Lemma SFltb_finite s1 m1 e1 s2 m2 e2 :
  SFltb (S754_finite s1 m1 e1) (S754_finite s2 m2 e2) = true <->
  match s1, s2 with
  | true, false => True
  | false, true => False
  | false, false => lex_lt e1 m1 e2 m2
  | true, true => lex_lt e2 m2 e1 m1
  end.
Proof.
  unfold SFltb, SFcompare. destruct s1, s2; try easy.
  - rewrite <- lex_gt_compare.
    destruct (match (e1 ?= e2)%Z with Lt => Gt | Gt => Lt | Eq => _ end); easy.
  - rewrite <- lex_lt_compare.
    destruct (match (e1 ?= e2)%Z with Lt => Lt | Gt => Gt | Eq => _ end); easy.
Qed.

#[global] Instance b32_Ordered : OrderedScalar B32.t.
Proof.
  split.
  - intros a. cbn [fltb b32_Scalar].
    destruct a as [s|s| |s m e]; try (destruct s; reflexivity); try reflexivity.
    destruct (SFltb (S754_finite s m e) (S754_finite s m e)) eqn:E; [|reflexivity].
    apply SFltb_finite in E. unfold lex_lt in E. destruct s; lia.
  - intros a b c Hab Hbc. cbn [fltb b32_Scalar] in *.
    destruct a as [sa|sa| |sa ma ea], b as [sb|sb| |sb mb eb],
             c as [sc|sc| |sc mc ec];
      try discriminate Hab; try discriminate Hbc;
      try (destruct sa, sb, sc; try discriminate Hab; try discriminate Hbc; reflexivity);
      try (destruct sa, sb; try discriminate Hab; try discriminate Hbc; reflexivity);
      try (destruct sa, sc; try discriminate Hab; try discriminate Hbc; reflexivity);
      try (destruct sb, sc; try discriminate Hab; try discriminate Hbc; reflexivity).
    all: rewrite ?SFltb_finite in *.
    all: try (destruct sa, sb, sc; try easy; eauto using lex_lt_trans).
  - reflexivity.
Qed.
End Binary32Order.

(* ===================================================================== *)
(** * Matrix4::Inverted                                                  *)
(* ===================================================================== *)

(** Unfolds the operations of the real instance. *)
Ltac scalar_R :=
  cbv [fofZ fadd fsub fmul fdiv fneg fabs fsqrt fltb fleb fPI R_Scalar
       fsin fcos ftan facos R_Libm dec] in *.

(** Unfolds the matrix accessors down to the record fields. *)
Ltac matrix_fields :=
  cbv [Matrix4.mul Matrix4.init Matrix4.set Matrix4.at_ Matrix4.get
       Matrix4.Identity fold_left Nat.eqb
       Nat.div Nat.modulo Nat.divmod Nat.mul Nat.add Nat.sub fst snd
       Matrix4.m0 Matrix4.m1 Matrix4.m2 Matrix4.m3 Matrix4.m4 Matrix4.m5
       Matrix4.m6 Matrix4.m7 Matrix4.m8 Matrix4.m9 Matrix4.m10 Matrix4.m11
       Matrix4.m12 Matrix4.m13 Matrix4.m14 Matrix4.m15] in *.

Section InvertedReal.
Local Open Scope R_scope.

Lemma EPSILON_R : @Math.EPSILON R _ = 1e-6.
Proof. cbv [Math.EPSILON]. scalar_R. lra. Qed.

Lemma NearZero_R_true (v : R) : Math.NearZero v = true <-> Rabs v <= 1e-6.
Proof. unfold Math.NearZero. rewrite fleb_R_true, EPSILON_R. reflexivity. Qed.

Lemma NearZero_R_false (v : R) : Math.NearZero v = false <-> 1e-6 < Rabs v.
Proof. unfold Math.NearZero. rewrite fleb_R_false, EPSILON_R. reflexivity. Qed.

Lemma within_R_refl (tol a : R) : 0 <= tol -> Approx.within tol a a = true.
Proof.
  intros Htol. unfold Approx.within. apply fleb_R_true. scalar_R.
  replace (a - a) with 0 by ring. rewrite Rabs_R0. exact Htol.
Qed.

Lemma matrix_within_R_refl (tol : R) (A : Matrix4.t R) :
  0 <= tol -> Approx.matrix_within tol A A = true.
Proof.
  intros Htol. unfold Approx.matrix_within. apply forallb_forall.
  intros i _. apply within_R_refl, Htol.
Qed.

(** The adjugate formula of [Inverted] is a right inverse: with
    [i = 1 / det], every entry of [M * Inverted M] is a polynomial identity
    modulo [det * i = 1]. *)
Lemma mul_Inverted_R (M : Matrix4.t R) :
  Matrix4.Determinant M <> 0 ->
  Math.NearZero (Matrix4.Determinant M) = false ->
  Matrix4.mul M (Matrix4.Inverted M) = Matrix4.Identity.
Proof.
  intros Hnz Hfar. unfold Matrix4.Inverted. rewrite Hfar.
  assert (Hi : Matrix4.Determinant M * fdiv (fofZ 1) (Matrix4.Determinant M) = 1).
  { scalar_R. field. exact Hnz. }
  revert Hi. generalize (fdiv (fofZ 1) (Matrix4.Determinant M)) as i.
  clear Hnz Hfar.
  destruct M as [a0 a1 a2 a3 a4 a5 a6 a7 a8 a9 a10 a11 a12 a13 a14 a15].
  intros i Hi. cbv [Matrix4.Determinant] in Hi.
  matrix_fields. scalar_R.
  f_equal; first [ ring | rewrite <- Hi; ring ].
Qed.

Lemma Determinant_illR : Matrix4.Determinant Sample.illR = 135.
Proof. cbv [Sample.illR Sample.block2 Matrix4.Determinant]. scalar_R. lra. Qed.
End InvertedReal.

(** C1, as the code has it in exact arithmetic.  For every real 4x4 matrix
    [M] with [|det M| > 1e-6], [M * M.Inverted()] is the identity matrix,
    entry for entry, hence within [1e-4] of it.  (With binary32 rounding the
    bound fails: see [Inverted_product_tolerance_fails_b32].) *)
Theorem Inverted_right_inverse_exact (M : Matrix4.t R) :
  (1e-6 < Rabs (Matrix4.Determinant M))%R ->
  Matrix4.mul M (Matrix4.Inverted M) = Matrix4.Identity /\
  Approx.matrix_within (dec 1 10000) (Matrix4.mul M (Matrix4.Inverted M))
                       Matrix4.Identity = true.
Proof.
  intros Hdet.
  assert (E : Matrix4.mul M (Matrix4.Inverted M) = Matrix4.Identity).
  { apply mul_Inverted_R.
    - intros Z. rewrite Z, Rabs_R0 in Hdet. lra.
    - apply NearZero_R_false, Hdet. }
  split; [exact E|]. rewrite E. apply matrix_within_R_refl. scalar_R. lra.
Qed.

Lemma Inverted_right_inverse_exact_witness :
  (1e-6 < Rabs (Matrix4.Determinant Sample.illR))%R /\
  Matrix4.mul Sample.illR (Matrix4.Inverted Sample.illR) = Matrix4.Identity.
Proof.
  assert (Hdet : (1e-6 < Rabs (Matrix4.Determinant Sample.illR))%R).
  { rewrite Determinant_illR, Rabs_right; lra. }
  split; [exact Hdet|].
  exact (proj1 (Inverted_right_inverse_exact Sample.illR Hdet)).
Defined.

(** The same integer matrix in binary32: the determinant is computed exactly
    ([135]), and entry (0,0) of [M * M.Inverted()] comes out as
    [255/256 = 0.99609375]. *)
Lemma Inverted_product_ill32 :
  Matrix4.Determinant Sample.ill32 = fofZ 135 /\
  Math.NearZero (Matrix4.Determinant Sample.ill32) = false /\
  Matrix4.m0 (Matrix4.mul Sample.ill32 (Matrix4.Inverted Sample.ill32))
  = B32.scaled 255 (-8).
Proof. vm_compute. repeat split. Qed.

(** A well-conditioned matrix in binary32, for comparison: the diagonal
    matrix [(2, 4, 1, 1)] is inverted without rounding. *)
Lemma Inverted_product_diag32 :
  let M : Matrix4.t B32.t := Sample.block2 2 0 0 4 in
  Matrix4.Inverted M
  = Matrix4.mk (dec 1 2) (fneg (fofZ 0)) (fofZ 0) (fneg (fofZ 0))
               (fneg (fofZ 0)) (dec 1 4) (fneg (fofZ 0)) (fofZ 0)
               (fofZ 0) (fneg (fofZ 0)) (fofZ 1) (fneg (fofZ 0))
               (fneg (fofZ 0)) (fofZ 0) (fneg (fofZ 0)) (fofZ 1) /\
  Matrix4.mul M (Matrix4.Inverted M) = Matrix4.Identity.
Proof. vm_compute. split; reflexivity. Qed.

(** C1 as stated fails in binary32: a matrix whose determinant exceeds
    [1e-6] and whose product with its [Inverted()] is not within [1e-4] of
    the identity. *)
Lemma Inverted_product_tolerance_fails_b32 :
  ~ (forall M : Matrix4.t B32.t,
       (fabs (Matrix4.Determinant M) >? dec 1 1000000)%S = true ->
       Approx.matrix_within (dec 1 10000)
         (Matrix4.mul M (Matrix4.Inverted M)) Matrix4.Identity = true).
Proof.
  intros Hall. specialize (Hall Sample.ill32).
  assert (Hdet : (fabs (Matrix4.Determinant Sample.ill32) >? dec 1 1000000)%S = true)
    by (vm_compute; reflexivity).
  apply Hall in Hdet. vm_compute in Hdet. discriminate Hdet.
Qed.

Section SingularReal.
Local Open Scope R_scope.


Lemma Inverted_singular_R (M : Matrix4.t R) :
Rabs (Matrix4.Determinant M) <= 1e-6 ->
Matrix4.Inverted M = Matrix4.Identity.
Proof.
intros Hdet. unfold Matrix4.Inverted.
rewrite (proj2 (NearZero_R_true _) Hdet). reflexivity.
Qed.

End SingularReal.



(** The all-zero matrix over the reals. *)
Lemma Inverted_zero_matrix_R :
  Matrix4.Inverted (@Sample.zero_matrix R _) = Matrix4.Identity.
Proof.
  apply Inverted_singular_R.
  cbv [Sample.zero_matrix Matrix4.Determinant]. scalar_R.
  rewrite Rabs_right; lra.
Qed.



(* ===================================================================== *)
(** * Vector3::Normalized on short vectors                               *)
(* ===================================================================== *)

Lemma Normalized_short_unchanged_generic
    {F : Type} `{Scalar F} (v : Vector3.t F) :
  Math.NearZero (Vector3.Length v) = true -> Vector3.Normalized v = v.
Proof.
  intros Hlen. unfold Vector3.Normalized, Vector3.Normalize.
  rewrite Hlen. reflexivity.
Qed.

(** C6, as the code has it.  In either arithmetic: when the length of [v] is
    at most [EPSILON], [Normalize] returns before dividing and
    [v.Normalized()] is [v] itself. *)
Theorem Normalized_short_unchanged
    (F : Type) (S : Scalar F) (v : Vector3.t F) :
  (fabs (Vector3.Length v) <=? Math.EPSILON)%S = true ->
  Vector3.Normalized v = v.
Proof.
  intros Hlen. unfold Vector3.Normalized, Vector3.Normalize, Math.NearZero.
  rewrite Hlen. reflexivity.
Qed.

Lemma Normalized_short_unchanged_witness :
  (fabs (Vector3.Length (@Vector3.Zero B32.t _)) <=? Math.EPSILON)%S = true /\
  Vector3.Normalized (@Vector3.Zero B32.t _) = Vector3.Zero.
Proof.
  split; [vm_compute; reflexivity|].
  apply Normalized_short_unchanged. vm_compute. reflexivity.
Defined.

(** C6 as stated fails: the binary32 vector [(2^-24, 0, 0)] has length
    [2^-24 <= EPSILON], and its [Normalized()] is the vector itself, not the
    zero vector. *)
Lemma Normalized_short_not_Zero_b32 :
  (fabs (Vector3.Length Sample.tiny32) <=? Math.EPSILON)%S = true /\
  Vector3.Normalized Sample.tiny32 = Sample.tiny32 /\
  Vector3.Normalized Sample.tiny32 <> Vector3.Zero.
Proof.
  split; [vm_compute; reflexivity|].
  split; [vm_compute; reflexivity|].
  vm_compute. discriminate.
Qed.

Section NormalizedBinary32.
(** No NaN comes out in binary32: a NaN component makes the length a NaN,
    which is not near zero. *)
Lemma Length_nan_b32 (v : Vector3.t B32.t) :
  B32.is_nan (Vector3.x v) || B32.is_nan (Vector3.y v)
    || B32.is_nan (Vector3.z v) = true ->
  Math.NearZero (Vector3.Length v) = false.
Proof.
  destruct v as [x y z]. cbn [Vector3.x Vector3.y Vector3.z].
  intros Hnan.
  assert (Hlen : Vector3.Length (Vector3.mk x y z) = S754_nan).
  { unfold Vector3.Length, Vector3.LengthSquared.
    cbn [Vector3.x Vector3.y Vector3.z fadd fmul fsqrt b32_Scalar].
    destruct x as [? | ? | | ? ? ?]; cbn [B32.is_nan orb] in Hnan;
      [ | | reflexivity | ].
    all: destruct y as [? | ? | | ? ? ?]; cbn [B32.is_nan orb] in Hnan.
    all: try (destruct z as [? | ? | | ? ? ?]; try discriminate Hnan).
    all: cbn [SFmul].
    all: repeat match goal with
           | |- context [SFadd _ _ ?a S754_nan] =>
               replace (SFadd B32.prec B32.emax a S754_nan) with S754_nan
                 by (destruct a; reflexivity)
           | |- context [SFadd _ _ S754_nan ?a] =>
               change (SFadd B32.prec B32.emax S754_nan a) with S754_nan
           end.
    all: reflexivity. }
  rewrite Hlen. reflexivity.
Qed.

Lemma Normalized_short_no_nan_b32 (v : Vector3.t B32.t) :
  Math.NearZero (Vector3.Length v) = true ->
  let r := Vector3.Normalized v in
  B32.is_nan (Vector3.x r) || B32.is_nan (Vector3.y r)
    || B32.is_nan (Vector3.z r) = false.
Proof.
  intros Hlen r. subst r.
  rewrite (Normalized_short_unchanged_generic v Hlen).
  destruct (B32.is_nan (Vector3.x v) || B32.is_nan (Vector3.y v)
            || B32.is_nan (Vector3.z v)) eqn:E; [|reflexivity].
  apply Length_nan_b32 in E. congruence.
Qed.
End NormalizedBinary32.

Section NormalizedReal.
Local Open Scope R_scope.

Lemma Abs_R (v : R) : Math.Abs v = Rabs v.
Proof.
  unfold Math.Abs. scalar_R. unfold Rabs.
  destruct (Rlt_dec v 0), (Rcase_abs v); try reflexivity; lra.
Qed.

Lemma Approximately_R (a b : R) :
  Math.Approximately a b = true <-> Rabs (a - b) <= 1e-6.
Proof.
  unfold Math.Approximately. rewrite fleb_R_true, Abs_R, EPSILON_R.
  reflexivity.
Qed.

Lemma component_le_sqrt (a s : R) : a * a <= s -> Rabs a <= sqrt s.
Proof.
  intros Hle. rewrite <- sqrt_Rsqr_abs. apply sqrt_le_1_alt. exact Hle.
Qed.

(** Over the reals the unchanged short vector has every component within
    [1e-6] of zero, so the engine's approximate [operator==] equates it
    with [Vector3::Zero]. *)
Lemma Normalized_short_eqb_Zero_R (v : Vector3.t R) :
  Vector3.Length v <= 1e-6 ->
  Vector3.Normalized v = v /\ Vector3.eqb (Vector3.Normalized v) Vector3.Zero = true.
Proof.
  intros Hlen.
  assert (Hpos : 0 <= Vector3.Length v) by apply sqrt_pos.
  assert (Hstay : Vector3.Normalized v = v).
  { apply Normalized_short_unchanged_generic, NearZero_R_true.
    rewrite Rabs_right; lra. }
  split; [exact Hstay|]. rewrite Hstay.
  destruct v as [x y z]. unfold Vector3.Length, Vector3.LengthSquared in Hlen.
  cbn [Vector3.x Vector3.y Vector3.z] in Hlen. scalar_R.
  unfold Vector3.eqb, Vector3.Zero. cbn [Vector3.x Vector3.y Vector3.z].
  rewrite !andb_true_iff, !Approximately_R. scalar_R.
  replace (x - 0) with x by ring. replace (y - 0) with y by ring.
  replace (z - 0) with z by ring.
  pose proof (Rle_0_sqr x) as Hx. pose proof (Rle_0_sqr y) as Hy.
  pose proof (Rle_0_sqr z) as Hz. unfold Rsqr in *.
  repeat split; (eapply Rle_trans; [apply component_le_sqrt | exact Hlen]); lra.
Qed.

Lemma Normalized_Zero_R :
  Vector3.Normalized (@Vector3.Zero R _) = Vector3.Zero.
Proof.
  apply Normalized_short_eqb_Zero_R.
  unfold Vector3.Length, Vector3.LengthSquared, Vector3.Zero.
  cbn [Vector3.x Vector3.y Vector3.z]. scalar_R.
  replace (0 * 0 + 0 * 0 + 0 * 0) with 0 by ring. rewrite sqrt_0. lra.
Qed.
End NormalizedReal.

(* ===================================================================== *)
(** * Matrix4::LookAt                                                    *)
(* ===================================================================== *)

Section LookAtReal.
Local Open Scope R_scope.

End LookAtReal.

(** The scenario of the spec evaluated in binary32: [eye = (0,0,5)],
    [target = (0,0,0)], [up = (0,1,0)]. *)
Lemma LookAt_scenario_b32 :
  let eye : Vector3.t B32.t := Vector3.mk (fofZ 0) (fofZ 0) (fofZ 5) in
  let target : Vector3.t B32.t := Vector3.mk (fofZ 0) (fofZ 0) (fofZ 0) in
  let up : Vector3.t B32.t := Vector3.mk (fofZ 0) (fofZ 1) (fofZ 0) in
  Matrix4.TransformPoint (Matrix4.LookAt eye target up) eye
  = Vector3.mk (fofZ 0) (fofZ 0) (fofZ 0).
Proof. vm_compute. reflexivity. Qed.

(** Near the top of the binary32 range: all three inputs are finite, [eye]
    and [target] differ by one unit along z, and [Cross(up, eye - target)]
    is [(1, 1, 0)].  [Dot(x, eye)] exceeds the largest binary32 value, so
    [m[3]] is minus infinity, and the first coordinate of the transformed
    eye is [inf - inf], not a number. *)
Lemma LookAt_overflow_b32 :
  let M := Matrix4.LookAt Sample.far_eye32 Sample.far_target32 Sample.far_up32 in
  Vector3.Cross Sample.far_up32 (Vector3.sub Sample.far_eye32 Sample.far_target32)
    = Vector3.mk (fofZ 1) (fofZ 1) (fofZ 0) /\
  Matrix4.m3 M = S754_infinity true /\
  B32.is_nan (Vector3.x (Matrix4.TransformPoint M Sample.far_eye32)) = true.
Proof. vm_compute. repeat split. Qed.


(* ===================================================================== *)
(** * Matrix4::Perspective                                               *)
(* ===================================================================== *)

Section PerspectiveReal.
Local Open Scope R_scope.

(** C9.  Over the reals, with [fov = ToRadians(90)], [aspect = 1],
    [near = 0.1] and [far = 100]: entries (0,0) and (1,1) are
    [1 / tan(PI/4) = 1], and entry (3,2), that is [m[14]], is [-1]. *)
Theorem Perspective_90_entries :
  let P := Matrix4.Perspective (Math.ToRadians (fofZ 90)) (fofZ 1)
                               (dec 1 10) (fofZ 100) : Matrix4.t R in
  Matrix4.at_ P 0 0 = 1 /\ Matrix4.at_ P 1 1 = 1 /\
  Matrix4.at_ P 3 2 = -1 /\ Matrix4.get P 14 = -1.
Proof.
  intros P. subst P. unfold Matrix4.Perspective, Math.ToRadians, Math.DEG2RAD.
  matrix_fields. scalar_R.
  replace (90 * (PI / 180) * (5 / 10)) with (PI / 4) by field.
  rewrite tan_PI4. repeat split; field.
Qed.
End PerspectiveReal.

(** In either arithmetic and for all arguments: the two scale entries are
    the reciprocals the source writes, with [tanHalfFov = Tan(fov * 0.5f)]. *)
Lemma Perspective_scale_entries
    {F : Type} `{Scalar F} `{Libm F} (fov aspect near far : F) :
  let P := Matrix4.Perspective fov aspect near far in
  Matrix4.at_ P 0 0 = (1 / (aspect * ftan (fov * dec 5 10)))%S /\
  Matrix4.at_ P 1 1 = (1 / ftan (fov * dec 5 10))%S /\
  Matrix4.at_ P 3 2 = fneg (fofZ 1).
Proof. repeat split; reflexivity. Qed.

(** In binary32, whatever [tanf] returns, [m[14]] is [-1] and [m[15]] is
    [0]. *)
Lemma Perspective_m14_b32 (L : Libm B32.t) (fov aspect near far : B32.t) :
  Matrix4.get (Matrix4.Perspective fov aspect near far) 14 = fneg (fofZ 1) /\
  Matrix4.get (Matrix4.Perspective fov aspect near far) 15 = fofZ 0.
Proof. split; reflexivity. Qed.

(* ===================================================================== *)
(** * Clamping of the interpolation parameter                            *)
(* ===================================================================== *)

Section Clamping.
Context {F : Type} `{OrderedScalar F}.
Local Open Scope scalar_scope.

Lemma fltb_1_0 : ((1 : F) <? 0) = false.
Proof.
  destruct ((1 : F) <? 0) eqn:E; [|reflexivity].
  pose proof (fltb_trans _ _ _ fltb_0_1 E) as H00.
  rewrite fltb_irrefl in H00. discriminate H00.
Qed.

Lemma Clamp_above (t : F) : (t >? 1) = true -> Math.Clamp t 0 1 = 1.
Proof.
  intros Hgt. unfold Math.Clamp.
  destruct (t <? 0) eqn:E.
  - pose proof (fltb_trans _ _ _ Hgt E) as H10.
    rewrite fltb_1_0 in H10. discriminate H10.
  - rewrite Hgt. reflexivity.
Qed.

Lemma Clamp_below (t : F) : (t <? 0) = true -> Math.Clamp t 0 1 = 0.
Proof. intros Hlt. unfold Math.Clamp. rewrite Hlt. reflexivity. Qed.

Lemma Clamp_1 : Math.Clamp (1 : F) 0 1 = 1.
Proof. unfold Math.Clamp. rewrite fltb_1_0, fltb_irrefl. reflexivity. Qed.

Lemma Clamp_0 : Math.Clamp (0 : F) 0 1 = 0.
Proof. unfold Math.Clamp. rewrite fltb_irrefl, fltb_1_0. reflexivity. Qed.

(** [Lerp] and [Slerp] read [t] only through [Clamp(t, 0, 1)]. *)
Lemma Lerp_through_Clamp (a b : Quaternion.t F) (t t' : F) :
  Math.Clamp t 0 1 = Math.Clamp t' 0 1 ->
  Quaternion.Lerp a b t = Quaternion.Lerp a b t'.
Proof. intros E. unfold Quaternion.Lerp. rewrite E. reflexivity. Qed.

Lemma Slerp_through_Clamp `{Libm F} (a b : Quaternion.t F) (t t' : F) :
  Math.Clamp t 0 1 = Math.Clamp t' 0 1 ->
  Quaternion.Slerp a b t = Quaternion.Slerp a b t'.
Proof. intros E. unfold Quaternion.Slerp. rewrite E. reflexivity. Qed.
End Clamping.

(** C10.  In either arithmetic and for any [sin]/[acos]: for [t > 1],
    [Slerp] and [Lerp] return what they return at [t = 1], and for [t < 0]
    what they return at [t = 0]. *)
Theorem quaternion_interpolation_clamps
    (F : Type) (S : Scalar F) (O : OrderedScalar F) (L : Libm F)
    (a b : Quaternion.t F) (t : F) :
  ((t >? 1)%S = true ->
     Quaternion.Slerp a b t = Quaternion.Slerp a b (fofZ 1) /\
     Quaternion.Lerp a b t = Quaternion.Lerp a b (fofZ 1)) /\
  ((t <? 0)%S = true ->
     Quaternion.Slerp a b t = Quaternion.Slerp a b (fofZ 0) /\
     Quaternion.Lerp a b t = Quaternion.Lerp a b (fofZ 0)).
Proof.
  split; intros Ht.
  - assert (E : Math.Clamp t (fofZ 0) (fofZ 1) = Math.Clamp (fofZ 1) (fofZ 0) (fofZ 1))
      by (rewrite Clamp_1; apply Clamp_above, Ht).
    split; [apply Slerp_through_Clamp | apply Lerp_through_Clamp]; exact E.
  - assert (E : Math.Clamp t (fofZ 0) (fofZ 1) = Math.Clamp (fofZ 0) (fofZ 0) (fofZ 1))
      by (rewrite Clamp_0; apply Clamp_below, Ht).
    split; [apply Slerp_through_Clamp | apply Lerp_through_Clamp]; exact E.
Qed.

Lemma quaternion_interpolation_clamps_witness :
  let a : Quaternion.t R := Quaternion.Identity in
  let b : Quaternion.t R := Quaternion.mk 1%R 0%R 0%R 0%R in
  ((fofZ 2 : R) >? fofZ 1)%S = true /\
  Quaternion.Slerp a b (fofZ 2) = Quaternion.Slerp a b (fofZ 1) /\
  ((fofZ (-3) : R) <? fofZ 0)%S = true /\
  Quaternion.Lerp a b (fofZ (-3)) = Quaternion.Lerp a b (fofZ 0).
Proof.
  intros a b.
  assert (H2 : (fofZ 2 >? (fofZ 1 : R))%S = true) by (apply fltb_R_true; cbn; lra).
  assert (H3 : (fofZ (-3) <? (fofZ 0 : R))%S = true) by (apply fltb_R_true; cbn; lra).
  split; [exact H2|]. split.
  - exact (proj1 (proj1 (quaternion_interpolation_clamps R _ _ _ a b (fofZ 2)) H2)).
  - split; [exact H3|].
    exact (proj2 (proj2 (quaternion_interpolation_clamps R _ _ _ a b (fofZ (-3))) H3)).
Defined.

(** The vector [Lerp] is not clamped: at [t = 2] it passes the end point. *)
Lemma Vector3_Lerp_extrapolates_b32 :
  let a : Vector3.t B32.t := Vector3.mk (fofZ 0) (fofZ 0) (fofZ 0) in
  let b : Vector3.t B32.t := Vector3.mk (fofZ 1) (fofZ 0) (fofZ 0) in
  Vector3.Lerp a b (fofZ 2) = Vector3.mk (fofZ 2) (fofZ 0) (fofZ 0) /\
  Vector3.Lerp a b (fofZ 1) = b.
Proof. vm_compute. split; reflexivity. Qed.

(* ===================================================================== *)
(** * Camera::SetPerspective on rejected parameters                      *)
(* ===================================================================== *)

(** A rejected call returns the camera it was given together with one
    [Error] entry. *)
Lemma SetPerspective_rejects
    {F : Type} `{Scalar F} `{Libm F} (Forward Up : Vector3.t F)
    (c : Camera.t F) (fov aspect near far : F) :
  (fov <=? 0)%S = true \/ (fov >=? fPI)%S = true \/ (aspect <=? 0)%S = true \/
  (near <=? 0)%S = true \/ (far <=? near)%S = true ->
  exists msg,
    Camera.SetPerspective Forward Up c fov aspect near far
    = (c, [(Log.Error, msg)]).
Proof.
  intros Hbad. unfold Camera.SetPerspective.
  destruct (fov <=? 0)%S eqn:E1; [cbn; eauto|].
  destruct (fov >=? fPI)%S eqn:E2; [cbn; eauto|].
  destruct (aspect <=? 0)%S eqn:E3; [cbn; eauto|].
  destruct (near <=? 0)%S eqn:E4; [cbn; eauto|].
  destruct (far <=? near)%S eqn:E5; [cbn; eauto|].
  destruct Hbad as [Hb|[Hb|[Hb|[Hb|Hb]]]]; discriminate Hb.
Qed.

(** C4.  In either arithmetic: when [fov <= 0] (so for [fov = 0]), or
    [fov >= PI] (so for [fov = PI]), or [aspect <= 0], or [near <= 0], or
    [far <= near], [SetPerspective] returns the camera it was given, fields
    and both matrices included, and logs exactly one entry, of level
    [Error]. *)
Theorem SetPerspective_invalid_is_noop
    (F : Type) (S : Scalar F) (L : Libm F) (Forward Up : Vector3.t F)
    (c : Camera.t F) (fov aspect near far : F) :
  (fov <=? 0)%S = true \/ (fov >=? fPI)%S = true \/ (aspect <=? 0)%S = true \/
  (near <=? 0)%S = true \/ (far <=? near)%S = true ->
  fst (Camera.SetPerspective Forward Up c fov aspect near far) = c /\
  exists msg,
    snd (Camera.SetPerspective Forward Up c fov aspect near far)
    = [(Log.Error, msg)].
Proof.
  intros Hbad.
  destruct (SetPerspective_rejects Forward Up c fov aspect near far Hbad)
    as [msg Hcall].
  rewrite Hcall. split; [reflexivity|].
  exists msg. reflexivity.
Qed.

Section SetPerspectiveReal.
Local Open Scope R_scope.

Lemma SetPerspective_invalid_is_noop_witness :
  let set := Camera.SetPerspective Sample.forwardR Sample.upR Sample.cameraR in
  fst (set 0 (16 / 9) (1 / 10) 1000) = Sample.cameraR /\
  fst (set PI (16 / 9) (1 / 10) 1000) = Sample.cameraR /\
  fst (set (PI / 3) 0 (1 / 10) 1000) = Sample.cameraR /\
  fst (set (PI / 3) (16 / 9) 0 1000) = Sample.cameraR /\
  fst (set (PI / 3) (16 / 9) 10 10) = Sample.cameraR.
Proof.
  intros set. subst set.
  repeat split;
    apply (SetPerspective_invalid_is_noop R _ _ Sample.forwardR Sample.upR
             Sample.cameraR).
  - left. apply fleb_R_true. cbn. lra.
  - right; left. apply fleb_R_true. cbn. lra.
  - right; right; left. apply fleb_R_true. cbn. lra.
  - right; right; right; left. apply fleb_R_true. cbn. lra.
  - right; right; right; right. apply fleb_R_true. lra.
Defined.

(** The inputs the spec lists, over the reals. *)
Lemma SetPerspective_listed_inputs_R
  (Forward Up : Vector3.t R) (c : Camera.t R) (fov aspect near far : R) :
fov = 0 \/ fov = PI \/ aspect = 0 \/ near = 0 \/ far <= near ->
exists msg,
  Camera.SetPerspective Forward Up c fov aspect near far
  = (c, [(Log.Error, msg)]).
Proof.
intros Hbad. apply SetPerspective_rejects.
rewrite !fleb_R_true. cbn.
destruct Hbad as [->|[->|[->|[->|Hle]]]]; lra.
Qed.

(** Accepted parameters do change the camera: the setter is not the
    identity. *)
Lemma SetPerspective_valid_updates
    (Forward Up : Vector3.t R) (c : Camera.t R) (fov aspect near far : R) :
  0 < fov < PI -> 0 < aspect -> 0 < near < far ->
  let r := Camera.SetPerspective Forward Up c fov aspect near far in
  snd r = [] /\ Camera.m_Type (fst r) = Camera.Perspective /\
  Camera.m_FOV (fst r) = fov /\ Camera.m_Aspect (fst r) = aspect /\
  Camera.m_Near (fst r) = near /\ Camera.m_Far (fst r) = far /\
  Camera.m_ProjectionMatrix (fst r) = Matrix4.Perspective fov aspect near far.
Proof.
  intros Hfov Hasp Hnf r. subst r. unfold Camera.SetPerspective.
  rewrite (proj2 (fleb_R_false fov (fofZ 0))) by (cbn; lra).
  rewrite (proj2 (fleb_R_false fPI fov)) by (cbn; lra).
  rewrite (proj2 (fleb_R_false aspect (fofZ 0))) by (cbn; lra).
  rewrite (proj2 (fleb_R_false near (fofZ 0))) by (cbn; lra).
  rewrite (proj2 (fleb_R_false far near)) by lra.
  cbn. repeat split; reflexivity.
Qed.
End SetPerspectiveReal.

(** The inputs the spec lists, in binary32 and for any [tanf]: the
    comparisons [0 <= 0] and [PI >= PI] hold there as well. *)
Lemma SetPerspective_listed_inputs_b32
    (L : Libm B32.t) (Forward Up : Vector3.t B32.t) (c : Camera.t B32.t)
    (fov aspect near far : B32.t) :
  fov = fofZ 0 \/ fov = fPI \/ aspect = fofZ 0 \/ near = fofZ 0 \/
  (far <=? near)%S = true ->
  exists msg,
    Camera.SetPerspective Forward Up c fov aspect near far
    = (c, [(Log.Error, msg)]).
Proof.
  intros Hbad. apply SetPerspective_rejects.
  destruct Hbad as [-> | [-> | [-> | [-> | Hle]]]]; auto 6.
Qed.

(* ===================================================================== *)
(** * Quaternion::Slerp at the end points                                *)
(* ===================================================================== *)

Ltac quaternion_fields :=
  cbn [Quaternion.x Quaternion.y Quaternion.z Quaternion.w] in *.

Section SlerpReal.
Local Open Scope R_scope.

Lemma Normalized_unit (q : Quaternion.t R) :
  unit q -> Quaternion.Normalized q = q.
Proof.
  unfold unit, Quaternion.Normalized, Quaternion.Normalize, Quaternion.Length.
  intros ->. replace (fsqrt (1 : R)) with 1 by (symmetry; apply sqrt_1).
  rewrite (proj2 (fltb_R_true Math.EPSILON 1)) by (rewrite EPSILON_R; lra).
  destruct q as [x y z w]. quaternion_fields. scalar_R. f_equal; field.
Qed.

Lemma unit_negated (b : Quaternion.t R) :
  unit b -> unit (Quaternion.scale b (fneg (fofZ 1))).
Proof.
  unfold unit, Quaternion.LengthSquared, Quaternion.scale.
  destruct b as [x y z w]. quaternion_fields. scalar_R. intros Hb.
  transitivity (x * x + y * y + z * z + w * w); [ring | exact Hb].
Qed.

Lemma Clamp_0_R : Math.Clamp (0 : R) (fofZ 0) (fofZ 1) = 0.
Proof. exact Clamp_0. Qed.

Lemma Clamp_1_R : Math.Clamp (1 : R) (fofZ 0) (fofZ 1) = 1.
Proof. exact Clamp_1. Qed.

(** [Lerp] at the two ends of the clamped range. *)
Lemma Lerp_0 (a b : Quaternion.t R) : unit a -> Quaternion.Lerp a b 0 = a.
Proof.
  intros Ha. unfold Quaternion.Lerp. rewrite Clamp_0_R.
  rewrite <- (Normalized_unit a Ha) at 2. f_equal.
  destruct a as [x y z w], b as [x' y' z' w'].
  unfold Quaternion.add, Quaternion.scale. quaternion_fields. scalar_R.
  f_equal; ring.
Qed.

Lemma Lerp_1 (a b : Quaternion.t R) : unit b -> Quaternion.Lerp a b 1 = b.
Proof.
  intros Hb. unfold Quaternion.Lerp. rewrite Clamp_1_R.
  rewrite <- (Normalized_unit b Hb) at 2. f_equal.
  destruct a as [x y z w], b as [x' y' z' w'].
  unfold Quaternion.add, Quaternion.scale. quaternion_fields. scalar_R.
  f_equal; ring.
Qed.

Lemma Lerp_same (a : Quaternion.t R) (t : R) :
  unit a -> Quaternion.Lerp a a t = a.
Proof.
  intros Ha. unfold Quaternion.Lerp.
  rewrite <- (Normalized_unit a Ha) at 3. f_equal.
  destruct a as [x y z w].
  unfold Quaternion.add, Quaternion.scale. quaternion_fields. scalar_R.
  f_equal; ring.
Qed.

(** The last branch of [Slerp], where [c = cosHalfTheta] is in
    [[0, 0.9999]] and [sqrt (1 - c*c)] is not near zero. *)
Lemma sin_acos_ratio (c : R) :
  0 <= c <= 9999 / 10000 ->
  sin (acos c) / sqrt (1 - c * c) = 1.
Proof.
  intros Hc. rewrite sin_acos by lra. unfold Rsqr.
  assert (Hpos : 0 < sqrt (1 - c * c)) by (apply sqrt_lt_R0; nra).
  field. lra.
Qed.

Lemma Slerp_tail_0 (a b2 : Quaternion.t R) (c : R) :
  unit a -> 0 <= c <= 9999 / 10000 ->
  Quaternion.Normalized
    (Quaternion.add
       (Quaternion.scale a (sin ((1 - 0) * acos c) / sqrt (1 - c * c)))
       (Quaternion.scale b2 (sin (0 * acos c) / sqrt (1 - c * c)))) = a.
Proof.
  intros Ha Hc.
  replace ((1 - 0) * acos c) with (acos c) by ring.
  replace (0 * acos c) with 0 by ring.
  rewrite sin_acos_ratio by exact Hc. rewrite sin_0.
  rewrite <- (Normalized_unit a Ha) at 2. f_equal.
  destruct a as [x y z w], b2 as [x' y' z' w'].
  unfold Quaternion.add, Quaternion.scale. quaternion_fields. scalar_R.
  f_equal; unfold Rdiv; ring.
Qed.

Lemma Slerp_tail_1 (a b2 : Quaternion.t R) (c : R) :
  unit b2 -> 0 <= c <= 9999 / 10000 ->
  Quaternion.Normalized
    (Quaternion.add
       (Quaternion.scale a (sin ((1 - 1) * acos c) / sqrt (1 - c * c)))
       (Quaternion.scale b2 (sin (1 * acos c) / sqrt (1 - c * c)))) = b2.
Proof.
  intros Hb Hc.
  replace ((1 - 1) * acos c) with 0 by ring.
  replace (1 * acos c) with (acos c) by ring.
  rewrite sin_acos_ratio by exact Hc. rewrite sin_0.
  rewrite <- (Normalized_unit b2 Hb) at 2. f_equal.
  destruct a as [x y z w], b2 as [x' y' z' w'].
  unfold Quaternion.add, Quaternion.scale. quaternion_fields. scalar_R.
  f_equal; unfold Rdiv; ring.
Qed.

Lemma Slerp_cases (a b : Quaternion.t R) (t : R) :
  Quaternion.Slerp a b t =
  if fltb (Quaternion.Dot a b) (fofZ 0)
  then Slerp_from a (Quaternion.scale b (fneg (fofZ 1)))
                  (fneg (Quaternion.Dot a b)) (Math.Clamp t (fofZ 0) (fofZ 1))
  else Slerp_from a b (Quaternion.Dot a b) (Math.Clamp t (fofZ 0) (fofZ 1)).
Proof.
  unfold Quaternion.Slerp, Slerp_from.
  destruct (fltb (Quaternion.Dot a b) (fofZ 0)); reflexivity.
Qed.

Lemma Slerp_from_0 (a b2 : Quaternion.t R) (c : R) :
  unit a -> 0 <= c -> Slerp_from a b2 c 0 = a.
Proof.
  intros Ha Hc. unfold Slerp_from.
  destruct (fltb (dec 9999 10000) c) eqn:Ec; [apply Lerp_0, Ha|].
  destruct (Math.NearZero _) eqn:En; [apply Lerp_0, Ha|].
  apply fltb_R_false in Ec. scalar_R. apply Slerp_tail_0; [exact Ha|lra].
Qed.

Lemma Slerp_from_1 (a b2 : Quaternion.t R) (c : R) :
  unit b2 -> 0 <= c -> Slerp_from a b2 c 1 = b2.
Proof.
  intros Hb Hc. unfold Slerp_from.
  destruct (fltb (dec 9999 10000) c) eqn:Ec; [apply Lerp_1, Hb|].
  destruct (Math.NearZero _) eqn:En; [apply Lerp_1, Hb|].
  apply fltb_R_false in Ec. scalar_R. apply Slerp_tail_1; [exact Hb|lra].
Qed.

Lemma Slerp_same (a : Quaternion.t R) (t : R) :
  unit a -> Quaternion.Slerp a a t = a.
Proof.
  intros Ha. rewrite Slerp_cases.
  change (Quaternion.Dot a a) with (Quaternion.LengthSquared a). rewrite Ha.
  rewrite (proj2 (fltb_R_false 1 (fofZ 0))) by (cbn; lra).
  unfold Slerp_from.
  rewrite (proj2 (fltb_R_true (dec 9999 10000) 1)) by (scalar_R; lra).
  apply Lerp_same, Ha.
Qed.

Lemma Slerp_at_0 (a b : Quaternion.t R) :
  unit a -> Quaternion.Slerp a b 0 = a.
Proof.
  intros Ha. rewrite Slerp_cases, Clamp_0_R.
  destruct (fltb (Quaternion.Dot a b) (fofZ 0)) eqn:Ed.
  - apply fltb_R_true in Ed. apply Slerp_from_0; [exact Ha|]. scalar_R. lra.
  - apply fltb_R_false in Ed. apply Slerp_from_0; [exact Ha|]. scalar_R. lra.
Qed.

Lemma Slerp_at_1_same_side (a b : Quaternion.t R) :
  unit b -> 0 <= Quaternion.Dot a b -> Quaternion.Slerp a b 1 = b.
Proof.
  intros Hb Hd. rewrite Slerp_cases, Clamp_1_R.
  rewrite (proj2 (fltb_R_false (Quaternion.Dot a b) (fofZ 0))) by exact Hd.
  apply Slerp_from_1; assumption.
Qed.

Lemma Slerp_at_1_far_side (a b : Quaternion.t R) :
  unit b -> Quaternion.Dot a b < 0 ->
  Quaternion.Slerp a b 1 = Quaternion.scale b (-1).
Proof.
  intros Hb Hd. rewrite Slerp_cases, Clamp_1_R.
  rewrite (proj2 (fltb_R_true (Quaternion.Dot a b) (fofZ 0))) by exact Hd.
  apply Slerp_from_1; [apply unit_negated, Hb|]. scalar_R. lra.
Qed.
End SlerpReal.

(** C8, as the code has it over the reals.  For unit quaternions [a], [b]
    and every [t]: [Slerp(a, a, t)] is [a]; [Slerp(a, b, 0)] is [a];
    [Slerp(a, b, 1)] is [b] when [Dot(a, b) >= 0], and is [b * -1], the other
    quaternion of the same rotation, when [Dot(a, b) < 0]. *)
Theorem Slerp_end_points (a b : Quaternion.t R) (t : R) :
  unit a -> unit b ->
  Quaternion.Slerp a a t = a /\
  Quaternion.Slerp a b 0%R = a /\
  ((0 <= Quaternion.Dot a b)%R -> Quaternion.Slerp a b 1%R = b) /\
  ((Quaternion.Dot a b < 0)%R ->
     Quaternion.Slerp a b 1%R = Quaternion.scale b (-1)%R).
Proof.
  intros Ha Hb. split; [apply Slerp_same, Ha|].
  split; [apply Slerp_at_0, Ha|].
  split; intros Hd;
    [apply Slerp_at_1_same_side | apply Slerp_at_1_far_side]; assumption.
Qed.

Lemma Slerp_end_points_witness :
  unit Quaternion.Identity /\ unit Sample.minus_identity /\
  Quaternion.Slerp Quaternion.Identity Quaternion.Identity (1 / 2)%R
  = Quaternion.Identity /\
  Quaternion.Slerp Quaternion.Identity Sample.minus_identity 0%R
  = Quaternion.Identity.
Proof.
  assert (Ha : unit Quaternion.Identity).
  { unfold unit, Quaternion.LengthSquared, Quaternion.Identity.
    quaternion_fields. scalar_R. lra. }
  assert (Hb : unit Sample.minus_identity).
  { unfold unit, Quaternion.LengthSquared, Sample.minus_identity.
    quaternion_fields. scalar_R. lra. }
  split; [exact Ha|]. split; [exact Hb|]. split.
  - exact (proj1 (Slerp_end_points Quaternion.Identity Quaternion.Identity
                    (1 / 2)%R Ha Ha)).
  - exact (proj1 (proj2 (Slerp_end_points Quaternion.Identity
                           Sample.minus_identity 0%R Ha Hb))).
Defined.

(** C8 as stated fails at [t = 1]: with [a = (0,0,0,1)] and
    [b = (0,0,0,-1)], both of unit length, [Slerp(a, b, 1)] is [(0,0,0,1)],
    which differs from [b] by 2 in the [w] component. *)
Lemma Slerp_at_1_is_not_b :
  unit Quaternion.Identity /\ unit Sample.minus_identity /\
  Quaternion.Slerp Quaternion.Identity Sample.minus_identity 1%R
  = Quaternion.Identity /\
  Quaternion.eqb
    (Quaternion.Slerp Quaternion.Identity Sample.minus_identity 1%R)
    Sample.minus_identity = false /\
  Approx.quaternion_within (dec 1 10)
    (Quaternion.Slerp Quaternion.Identity Sample.minus_identity 1%R)
    Sample.minus_identity = false.
Proof.
  assert (Ha : unit Quaternion.Identity).
  { unfold unit, Quaternion.LengthSquared, Quaternion.Identity.
    quaternion_fields. scalar_R. lra. }
  assert (Hb : unit Sample.minus_identity).
  { unfold unit, Quaternion.LengthSquared, Sample.minus_identity.
    quaternion_fields. scalar_R. lra. }
  assert (E : Quaternion.Slerp Quaternion.Identity Sample.minus_identity 1%R
              = Quaternion.Identity).
  { rewrite Slerp_at_1_far_side; [|exact Hb|].
    - unfold Quaternion.scale, Sample.minus_identity, Quaternion.Identity.
      quaternion_fields. scalar_R. f_equal; ring.
    - unfold Quaternion.Dot, Sample.minus_identity, Quaternion.Identity.
      quaternion_fields. scalar_R. lra. }
  split; [exact Ha|]. split; [exact Hb|]. split; [exact E|]. rewrite E.
  assert (Hw : forall tol : R, (tol < 2)%R ->
            Approx.within tol (1 : R) (-1)%R = false).
  { intros tol Htol. unfold Approx.within. apply fleb_R_false. scalar_R.
    replace (1 - -1)%R with 2%R by ring. rewrite Rabs_right; lra. }
  split.
  - unfold Quaternion.eqb, Quaternion.Identity, Sample.minus_identity.
    quaternion_fields.
    replace (Math.Approximately (fofZ 1) (-1)%R) with false;
      [apply andb_false_r|].
    symmetry. destruct (Math.Approximately (fofZ 1) (-1)%R) eqn:Eq; [|reflexivity].
    apply Approximately_R in Eq. scalar_R.
    replace (1 - -1)%R with 2%R in Eq by ring.
    rewrite Rabs_right in Eq; lra.
  - unfold Approx.quaternion_within, Quaternion.Identity, Sample.minus_identity.
    quaternion_fields.
    replace (Approx.within (dec 1 10) (fofZ 1) (-1)%R) with false;
      [apply andb_false_r|].
    symmetry. apply Hw. scalar_R. lra.
Qed.
(* ===================================================================== *)
(** * Quaternion -> matrix -> quaternion                                 *)
(* ===================================================================== *)

Section RoundTripReal.
Local Open Scope R_scope.

Lemma unit_negated_quaternion (q : Quaternion.t R) : unit q -> unit (Approx.negated q).
Proof.
  unfold unit, Quaternion.LengthSquared, Approx.negated.
  destruct q as [x y z w]. quaternion_fields. scalar_R. intros Hq.
  transitivity (x * x + y * y + z * z + w * w); [ring | exact Hq].
Qed.

(** Rewrites the square root in the goal to [2 * v], given that its
    argument is [(2 * v) * (2 * v)] for the unit quaternion at hand and
    that [v] is positive. *)
Ltac root_is v :=
  match goal with
  | |- context [sqrt ?e] =>
      replace e with ((2 * v) * (2 * v)) by nra;
      rewrite (sqrt_square (2 * v)) by lra
  end.

Lemma FromRotationMatrix_ToMatrix_unit (q : Quaternion.t R) :
  unit q ->
  Quaternion.FromRotationMatrix (Quaternion.ToMatrix q) = q \/
  Quaternion.FromRotationMatrix (Quaternion.ToMatrix q) = Approx.negated q.
Proof.
  intros Hq.
  pose proof (unit_negated_quaternion q Hq) as Hn.
  unfold Quaternion.FromRotationMatrix. cbv zeta.
  match goal with
  | |- context [Quaternion.Normalized ?r] =>
      assert (Hr : r = q \/ r = Approx.negated q); [| destruct Hr as [-> | ->];
        [left; apply Normalized_unit, Hq | right; apply Normalized_unit, Hn]]
  end.
  clear Hn. destruct q as [x y z w]. unfold unit, Quaternion.LengthSquared in Hq.
  unfold Quaternion.ToMatrix, Approx.negated. quaternion_fields.
  matrix_fields. scalar_R.
  destruct (Rlt_dec 0 _) as [Ht | Ht].
  { (* trace > 0: the root is 2|w| *)
    destruct (Rlt_dec 0 w) as [Hw | Hw].
    - left. root_is w. f_equal; field; lra.
    - assert (Hw' : w < 0) by nra.
      right. root_is (- w). f_equal; field; lra. }
  destruct (Rlt_dec (1 - 2 * (x * x + z * z)) (1 - 2 * (y * y + z * z)))
    as [Hxy | Hxy];
  destruct (Rlt_dec (1 - 2 * (x * x + y * y)) (1 - 2 * (y * y + z * z)))
    as [Hxz | Hxz]; cbn [andb].
  1:{ (* m00 largest: the root is 2|x| *)
    destruct (Rlt_dec 0 x) as [Hx | Hx].
    - left. root_is x. f_equal; field; lra.
    - assert (Hx' : x < 0) by nra.
      right. root_is (- x). f_equal; field; lra. }
  all: destruct (Rlt_dec (1 - 2 * (x * x + y * y)) (1 - 2 * (x * x + z * z)))
         as [Hyz | Hyz].
  all: try solve [ (* m11 largest: the root is 2|y| *)
    destruct (Rlt_dec 0 y) as [Hy | Hy];
    [ left; root_is y; f_equal; field; lra
    | assert (Hy' : y < 0) by nra;
      right; root_is (- y); f_equal; field; lra ] ].
  all: (* m22 largest: the root is 2|z| *)
    destruct (Rlt_dec 0 z) as [Hz | Hz];
    [ left; root_is z; f_equal; field; lra
    | assert (Hz' : z < 0) by nra;
      right; root_is (- z); f_equal; field; lra ].
Qed.

(** [FromAxisAngle] of a unit axis is a unit quaternion. *)
Lemma FromAxisAngle_unit (axis : Vector3.t R) (angle : R) :
  Vector3.Length axis = 1 -> unit (Quaternion.FromAxisAngle axis angle).
Proof.
  intros Hlen.
  assert (Hsq : Vector3.LengthSquared axis = 1).
  { unfold Vector3.Length in Hlen. cbn [fsqrt R_Scalar] in Hlen.
    assert (Hpos : 0 <= Vector3.LengthSquared axis).
    { destruct axis as [x y z]. unfold Vector3.LengthSquared.
      cbn [Vector3.x Vector3.y Vector3.z]. scalar_R. nra. }
    rewrite <- (sqrt_sqrt _ Hpos), Hlen. ring. }
  unfold Quaternion.FromAxisAngle, Vector3.Normalized, Vector3.Normalize.
  rewrite (proj2 (NearZero_R_false (Vector3.Length axis)))
    by (rewrite Hlen, Rabs_right; lra).
  rewrite Hlen. destruct axis as [x y z].
  unfold Vector3.LengthSquared in Hsq. unfold Vector3.div, unit,
    Quaternion.LengthSquared.
  cbn [Vector3.x Vector3.y Vector3.z] in *. quaternion_fields. scalar_R.
  pose proof (sin2_cos2 (angle * (5 / 10))) as Htrig. unfold Rsqr in Htrig.
  nra.
Qed.

(** The sign is not always recovered: [(0,0,0,-1)] comes back as
    [(0,0,0,1)]. *)
Lemma FromRotationMatrix_flips_sign :
  Quaternion.FromRotationMatrix (Quaternion.ToMatrix Sample.minus_identity)
  = Approx.negated Sample.minus_identity /\
  Approx.negated Sample.minus_identity <> Sample.minus_identity.
Proof.
  split.
  2:{ unfold Approx.negated, Sample.minus_identity. quaternion_fields.
      scalar_R. intros E. injection E as E. lra. }
  unfold Quaternion.FromRotationMatrix, Quaternion.ToMatrix,
    Sample.minus_identity. cbv zeta. quaternion_fields. matrix_fields.
  rewrite (proj2 (fltb_R_true (fofZ 0) _)) by (scalar_R; lra).
  scalar_R.
  match goal with
  | |- context [sqrt ?e] =>
      replace e with (2 * 2) by ring; rewrite (sqrt_square 2) by lra
  end.
  transitivity (Quaternion.Normalized (Quaternion.mk 0 0 0 1)).
  { f_equal. f_equal; field. }
  rewrite Normalized_unit.
  - unfold Approx.negated. quaternion_fields. scalar_R. f_equal; ring.
  - unfold unit, Quaternion.LengthSquared. quaternion_fields. scalar_R. ring.
Qed.
End RoundTripReal.

(** C3.  Over the reals, for every axis of length 1 and every angle: with
    [q = FromAxisAngle(axis, angle)], [FromRotationMatrix(q.ToMatrix())] is
    [q] or [-q], in each of the four branches of the conversion. *)
Theorem FromRotationMatrix_round_trip (axis : Vector3.t R) (angle : R) :
  Vector3.Length axis = 1%R ->
  let q := Quaternion.FromAxisAngle axis angle in
  Quaternion.FromRotationMatrix (Quaternion.ToMatrix q) = q \/
  Quaternion.FromRotationMatrix (Quaternion.ToMatrix q) = Approx.negated q.
Proof.
  intros Hlen q. apply FromRotationMatrix_ToMatrix_unit.
  apply FromAxisAngle_unit, Hlen.
Qed.

Lemma FromRotationMatrix_round_trip_witness :
  let axis : Vector3.t R := Vector3.mk 1%R 0%R 0%R in
  let q := Quaternion.FromAxisAngle axis PI in
  Vector3.Length axis = 1%R /\
  (Quaternion.FromRotationMatrix (Quaternion.ToMatrix q) = q \/
   Quaternion.FromRotationMatrix (Quaternion.ToMatrix q) = Approx.negated q).
Proof.
  intros axis q.
  assert (Hlen : Vector3.Length axis = 1%R).
  { unfold Vector3.Length, Vector3.LengthSquared, axis.
    cbn [Vector3.x Vector3.y Vector3.z]. scalar_R.
    replace (1 * 1 + 0 * 0 + 0 * 0)%R with 1%R by ring. apply sqrt_1. }
  split; [exact Hlen|].
  exact (FromRotationMatrix_round_trip axis PI Hlen).
Defined.

(* ===================================================================== *)
(** * Scene: the name index and the object list                          *)
(* ===================================================================== *)

Section SceneIndex.
Context {Body : Type}.
Implicit Types (s : Scene.t Body) (o : Scene.SceneObject Body) (n : string).

Lemma consistent_empty : Scene.consistent (@Scene.empty Body).
Proof.
  intros n i. unfold Scene.empty. cbn. rewrite lookup_empty. split.
  - intros Hn. discriminate Hn.
  - intros (o & Ho & _). discriminate Ho.
Qed.

(** Names are unique: two positions holding the same name coincide. *)
Lemma consistent_unique s i j o1 o2 :
  Scene.consistent s ->
  Scene.m_Objects s !! i = Some o1 -> Scene.m_Objects s !! j = Some o2 ->
  Scene.name o1 = Scene.name o2 -> i = j.
Proof.
  intros Hs Hi Hj Hname.
  assert (H1 : Scene.m_ObjectIndex s !! Scene.name o1 = Some i)
    by (apply Hs; eauto).
  assert (H2 : Scene.m_ObjectIndex s !! Scene.name o1 = Some j)
    by (apply Hs; eauto).
  congruence.
Qed.

(** The index only ever points inside the list. *)
Lemma RemoveObject_index_valid s n index :
  Scene.consistent s -> Scene.m_ObjectIndex s !! n = Some index ->
  index < length (Scene.m_Objects s).
Proof.
  intros Hs Hn. apply Hs in Hn as (o & Ho & _).
  apply lookup_lt_Some in Ho. exact Ho.
Qed.

Lemma AddObject_duplicate s o :
  is_Some (Scene.m_ObjectIndex s !! Scene.name o) ->
  fst (Scene.AddObject s o) = s.
Proof. intros [i Hi]. unfold Scene.AddObject. rewrite Hi. reflexivity. Qed.

Lemma AddObject_consistent s o :
  Scene.consistent s -> Scene.consistent (fst (Scene.AddObject s o)).
Proof.
  intros Hs. unfold Scene.AddObject.
  destruct (Scene.m_ObjectIndex s !! Scene.name o) eqn:Hfresh; [exact Hs|].
  intros n i. cbn. rewrite lookup_insert_Some. split.
  - intros [[<- <-] | [Hne Hn]].
    + exists o. split; [|reflexivity].
      apply lookup_snoc_Some. right. split; reflexivity.
    + apply Hs in Hn as (o' & Ho' & Hname). exists o'. split; [|exact Hname].
      apply lookup_app_l_Some, Ho'.
  - intros (o' & Ho' & Hname). apply lookup_snoc_Some in Ho' as [[_ Ho'] | [-> <-]].
    + right. assert (Hn : Scene.m_ObjectIndex s !! n = Some i)
        by (apply Hs; eauto).
      split; [congruence | exact Hn].
    + left. split; [exact Hname | reflexivity].
Qed.

(** Where a position of the old list ends up after the erase at
    [index]. *)
Lemma lookup_after_erase (l : list (Scene.SceneObject Body)) index i :
  i <> index -> delete index l !! Scene.shift index i = l !! i.
Proof.
  intros Hne. unfold Scene.shift. destruct (Nat.ltb_spec index i) as [Hlt | Hge].
  - rewrite list_lookup_delete_ge by lia. f_equal. lia.
  - apply list_lookup_delete_lt. lia.
Qed.

Lemma RemoveObject_consistent s n :
  Scene.consistent s -> Scene.consistent (fst (Scene.RemoveObject s n)).
Proof.
  intros Hs. unfold Scene.RemoveObject.
  destruct (Scene.m_ObjectIndex s !! n) as [index|] eqn:Hn; [|exact Hs].
  intros n' i'. cbn. rewrite lookup_fmap_Some. split.
  - intros (i & <- & Hi). apply lookup_delete_Some in Hi as [Hne Hi].
    assert (i <> index) as Hidx.
    { intros ->. apply Hs in Hn as (o1 & Ho1 & Hn1).
      apply Hs in Hi as (o2 & Ho2 & Hn2). congruence. }
    apply Hs in Hi as (o & Ho & Hname). exists o. split; [|exact Hname].
    rewrite lookup_after_erase by exact Hidx. exact Ho.
  - intros (o & Ho & Hname).
    destruct (Nat.lt_ge_cases i' index) as [Hlt | Hge].
    + rewrite list_lookup_delete_lt in Ho by exact Hlt.
      assert (Hi : Scene.m_ObjectIndex s !! n' = Some i') by (apply Hs; eauto).
      exists i'. split.
      * unfold Scene.shift. destruct (Nat.ltb_spec index i'); [lia | reflexivity].
      * apply lookup_delete_Some. split; [|exact Hi].
        intros <-. rewrite Hn in Hi. injection Hi as ->. lia.
    + rewrite list_lookup_delete_ge in Ho by exact Hge.
      assert (Hi : Scene.m_ObjectIndex s !! n' = Some (S i'))
        by (apply Hs; eauto).
      exists (S i'). split.
      * unfold Scene.shift. destruct (Nat.ltb_spec index (S i')); lia.
      * apply lookup_delete_Some. split; [|exact Hi].
        intros <-. rewrite Hn in Hi. injection Hi as ->. lia.
Qed.

Lemma step_consistent s (c : Scene.Call Body) :
  Scene.consistent s -> Scene.consistent (Scene.step s c).
Proof.
  destruct c; [apply AddObject_consistent | apply RemoveObject_consistent].
Qed.

Lemma fold_step_consistent (calls : list (Scene.Call Body)) s :
  Scene.consistent s -> Scene.consistent (fold_left Scene.step calls s).
Proof.
  revert s. induction calls as [|c calls IH]; intros s Hs; [exact Hs|].
  cbn. apply IH, step_consistent, Hs.
Qed.

Lemma run_consistent (calls : list (Scene.Call Body)) :
  Scene.consistent (Scene.run calls).
Proof. apply fold_step_consistent, consistent_empty. Qed.

Lemma RemoveObject_not_found s n :
  Scene.FindObject (fst (Scene.RemoveObject s n)) n = None.
Proof.
  unfold Scene.RemoveObject, Scene.FindObject.
  destruct (Scene.m_ObjectIndex s !! n) as [index|] eqn:Hn; cbn.
  - rewrite lookup_fmap, lookup_delete_eq. reflexivity.
  - rewrite Hn. reflexivity.
Qed.

Lemma RemoveObject_shifts s n index n' i :
  Scene.m_ObjectIndex s !! n = Some index -> n' <> n ->
  Scene.m_ObjectIndex s !! n' = Some i ->
  Scene.m_ObjectIndex (fst (Scene.RemoveObject s n)) !! n'
  = Some (Scene.shift index i).
Proof.
  intros Hn Hne Hi. unfold Scene.RemoveObject. rewrite Hn.
  cbn [fst Scene.m_ObjectIndex].
  rewrite lookup_fmap, lookup_delete_ne by congruence. rewrite Hi.
  reflexivity.
Qed.

Lemma RemoveObject_keeps_others s n n' o :
  Scene.consistent s -> n' <> n ->
  Scene.FindObject s n' = Some o ->
  Scene.FindObject (fst (Scene.RemoveObject s n)) n' = Some o.
Proof.
  intros Hs Hne Hfind. unfold Scene.FindObject in Hfind.
  destruct (Scene.m_ObjectIndex s !! n') as [i|] eqn:Hi; [|discriminate Hfind].
  destruct (Scene.m_ObjectIndex s !! n) as [index|] eqn:Hn.
  - unfold Scene.FindObject.
    rewrite (RemoveObject_shifts s n index n' i Hn Hne Hi).
    unfold Scene.RemoveObject. rewrite Hn. cbn [fst Scene.m_Objects].
    assert (i <> index) as Hidx.
    { intros ->. apply Hs in Hn as (o1 & Ho1 & Hn1).
      apply Hs in Hi as (o2 & Ho2 & Hn2). congruence. }
    rewrite lookup_after_erase by exact Hidx. exact Hfind.
  - unfold Scene.RemoveObject. rewrite Hn. cbn.
    unfold Scene.FindObject. rewrite Hi. exact Hfind.
Qed.

(** In a consistent scene [FindObject] returns exactly the stored
    objects, each under its own name. *)
Lemma FindObject_stored s n o :
  Scene.consistent s ->
  Scene.FindObject s n = Some o <->
  exists i, Scene.m_Objects s !! i = Some o /\ Scene.name o = n.
Proof.
  intros Hs. unfold Scene.FindObject. split.
  - destruct (Scene.m_ObjectIndex s !! n) as [i|] eqn:Hi; [|discriminate].
    intros Ho. exists i. split; [exact Ho|].
    apply Hs in Hi as (o' & Ho' & Hname). congruence.
  - intros (i & Ho & Hname).
    assert (Hi : Scene.m_ObjectIndex s !! n = Some i) by (apply Hs; eauto).
    rewrite Hi. exact Ho.
Qed.

(** A name borne by no stored object is not in the index. *)
Lemma fresh_not_indexed s n :
  Scene.consistent s ->
  (forall i o, Scene.m_Objects s !! i = Some o -> Scene.name o <> n) ->
  Scene.m_ObjectIndex s !! n = None.
Proof.
  intros Hs Hfresh.
  destruct (Scene.m_ObjectIndex s !! n) as [i|] eqn:Hi; [|reflexivity].
  apply Hs in Hi as (o & Ho & Hname). exfalso. exact (Hfresh i o Ho Hname).
Qed.

(** [AddObject] of an object with an unused name appends it, records its
    position, and logs one [Info] entry. *)
Lemma AddObject_fresh s o :
  Scene.m_ObjectIndex s !! Scene.name o = None ->
  Scene.AddObject s o
  = (Scene.mk (Scene.m_Objects s ++ [o])
              (<[Scene.name o := length (Scene.m_Objects s)]>
                 (Scene.m_ObjectIndex s)),
     [(Log.Info, [Log.Str "Added object to scene: ";
                  Log.Val (Scene.name o)])]).
Proof. intros Hnone. unfold Scene.AddObject. rewrite Hnone. reflexivity. Qed.
End SceneIndex.

(** C5.  After any sequence of [AddObject] and [RemoveObject] calls on a new
    scene:
    - the name index maps a name to [i] exactly when the object at
      position [i] of the list bears that name, and [FindObject] returns
      exactly the stored objects, each under its own name;
    - [AddObject] of an object whose name is borne by a stored object
      returns the scene as it is, with a warning; [AddObject] of an object
      with an unused name appends it to the list, records its position,
      and [FindObject] then returns it; so adding two objects of the same
      unused name makes the list one object longer, and on a new scene
      leaves it at size 1;
    - [RemoveObject n] of a stored name erases the object at the recorded
      index; afterwards [FindObject n] is [nullptr] and no stored object
      bears the name [n]; every other recorded index above the removed one
      is decremented and the others are kept; every other object is found
      as before, and every object that remains in the list is found under
      its name, at the position the index records for it. *)
Theorem Scene_index_consistent
    (Body : Type) (calls : list (Scene.Call Body)) :
  let s := Scene.run calls in
  Scene.consistent s /\
  (forall n o,
     Scene.FindObject s n = Some o <->
     exists i, Scene.m_Objects s !! i = Some o /\ Scene.name o = n) /\
  (forall o i o',
     Scene.m_Objects s !! i = Some o' -> Scene.name o' = Scene.name o ->
     fst (Scene.AddObject s o) = s /\
     exists msg, snd (Scene.AddObject s o) = [(Log.Warn, msg)]) /\
  (forall o,
     (forall i o', Scene.m_Objects s !! i = Some o' ->
                   Scene.name o' <> Scene.name o) ->
     let s' := fst (Scene.AddObject s o) in
     Scene.m_Objects s' = Scene.m_Objects s ++ [o] /\
     Scene.m_ObjectIndex s' !! Scene.name o = Some (length (Scene.m_Objects s)) /\
     Scene.FindObject s' (Scene.name o) = Some o /\
     (exists msg, snd (Scene.AddObject s o) = [(Log.Info, msg)]) /\
     forall o2, Scene.name o2 = Scene.name o ->
       Scene.m_Objects (fst (Scene.AddObject s' o2)) = Scene.m_Objects s ++ [o]) /\
  (forall o o2 : Scene.SceneObject Body, Scene.name o2 = Scene.name o ->
     Scene.m_Objects (Scene.run [Scene.CallAdd o; Scene.CallAdd o2]) = [o]) /\
  (forall n index,
     Scene.m_ObjectIndex s !! n = Some index ->
     Scene.m_Objects (fst (Scene.RemoveObject s n))
       = delete index (Scene.m_Objects s) /\
     S (length (Scene.m_Objects (fst (Scene.RemoveObject s n))))
       = length (Scene.m_Objects s)) /\
  (forall n, Scene.FindObject (fst (Scene.RemoveObject s n)) n = None) /\
  (forall n i o,
     Scene.m_Objects (fst (Scene.RemoveObject s n)) !! i = Some o ->
     Scene.name o <> n) /\
  (forall n index n' i,
     Scene.m_ObjectIndex s !! n = Some index -> n' <> n ->
     Scene.m_ObjectIndex s !! n' = Some i ->
     Scene.m_ObjectIndex (fst (Scene.RemoveObject s n)) !! n'
     = Some (if (index <? i)%nat then (i - 1)%nat else i)) /\
  (forall n n' o,
     n' <> n -> Scene.FindObject s n' = Some o ->
     Scene.FindObject (fst (Scene.RemoveObject s n)) n' = Some o) /\
  (forall n i o,
     Scene.m_Objects (fst (Scene.RemoveObject s n)) !! i = Some o ->
     Scene.FindObject (fst (Scene.RemoveObject s n)) (Scene.name o) = Some o /\
     Scene.m_ObjectIndex (fst (Scene.RemoveObject s n)) !! Scene.name o
       = Some i).
Proof.
  intros s. pose proof (run_consistent calls) as Hs. fold s in Hs.
  split; [exact Hs|].
  split; [intros n o; apply FindObject_stored, Hs|].
  split.
  { intros o i o' Ho' Hname.
    assert (Hi : Scene.m_ObjectIndex s !! Scene.name o = Some i)
      by (apply Hs; eauto).
    unfold Scene.AddObject. rewrite Hi. split; [reflexivity | eauto]. }
  split.
  { intros o Hfresh s'. subst s'.
    pose proof (fresh_not_indexed s (Scene.name o) Hs Hfresh) as Hnone.
    rewrite (AddObject_fresh s o Hnone). cbn [fst snd Scene.m_Objects
      Scene.m_ObjectIndex].
    split; [reflexivity|].
    split; [apply lookup_insert_eq|].
    split.
    { unfold Scene.FindObject. cbn [Scene.m_Objects Scene.m_ObjectIndex].
      rewrite lookup_insert_eq. apply lookup_snoc_Some. right.
      split; reflexivity. }
    split; [eauto|].
    intros o2 Hname. unfold Scene.AddObject.
    cbn [Scene.m_Objects Scene.m_ObjectIndex]. rewrite Hname.
    rewrite lookup_insert_eq. reflexivity. }
  split.
  { intros o o2 Hname. unfold Scene.run. cbn [fold_left Scene.step].
    unfold Scene.AddObject at 2. cbn [Scene.empty Scene.m_ObjectIndex].
    rewrite lookup_empty. cbn [fst]. unfold Scene.AddObject.
    cbn [Scene.m_Objects Scene.m_ObjectIndex]. rewrite Hname.
    rewrite lookup_insert_eq. reflexivity. }
  split.
  { intros n index Hn.
    pose proof (RemoveObject_index_valid s n index Hs Hn) as Hlt.
    unfold Scene.RemoveObject. rewrite Hn. cbn [fst Scene.m_Objects].
    split; [reflexivity|].
    rewrite length_delete by (apply lookup_lt_is_Some_2; exact Hlt). lia. }
  split; [apply RemoveObject_not_found|].
  split.
  { intros n i o Ho Hname.
    pose proof (RemoveObject_consistent s n Hs) as Hs'.
    assert (Hi : Scene.m_ObjectIndex (fst (Scene.RemoveObject s n)) !! n = Some i)
      by (apply Hs'; eauto).
    pose proof (RemoveObject_not_found s n) as Hnone.
    unfold Scene.FindObject in Hnone. rewrite Hi, Ho in Hnone.
    discriminate Hnone. }
  split; [apply RemoveObject_shifts|].
  split; [intros n n' o; apply RemoveObject_keeps_others, Hs|].
  intros n i o Ho.
  pose proof (RemoveObject_consistent s n Hs) as Hs'.
  split.
  - apply FindObject_stored; [exact Hs'|]. exists i. split; [exact Ho | reflexivity].
  - apply Hs'. exists o. split; [exact Ho | reflexivity].
Qed.

Lemma Scene_index_consistent_witness :
  let A := Scene.mkObject "A" tt in
  let B := Scene.mkObject "B" tt in
  let s := Scene.run [Scene.CallAdd A; Scene.CallAdd B] in
  Scene.m_Objects (fst (Scene.RemoveObject s "A")) !! 0%nat = Some B /\
  Scene.FindObject (fst (Scene.RemoveObject s "A")) "B" = Some B /\
  Scene.m_ObjectIndex (fst (Scene.RemoveObject s "A")) !! "B" = Some 0%nat.
Proof.
  intros A B s.
  assert (Ho : Scene.m_Objects (fst (Scene.RemoveObject s "A")) !! 0%nat
               = Some B) by reflexivity.
  split; [exact Ho|].
  destruct (Scene_index_consistent _ [Scene.CallAdd A; Scene.CallAdd B])
    as (_ & _ & _ & _ & _ & _ & _ & _ & _ & _ & Hkept).
  exact (Hkept "A" 0%nat B Ho).
Defined.

(** The scenario of the spec, with objects that carry nothing but their
    name. *)
Lemma Scene_scenario :
  let A := Scene.mkObject "A" tt in
  let B := Scene.mkObject "B" tt in
  let C := Scene.mkObject "C" tt in
  let s1 := Scene.run [Scene.CallAdd A; Scene.CallAdd A] in
  let s2 := Scene.step s1 (Scene.CallRemove "A") in
  let s3 := Scene.step (Scene.step s2 (Scene.CallAdd B)) (Scene.CallAdd C) in
  let s4 := Scene.step s3 (Scene.CallRemove "B") in
  length (Scene.m_Objects s1) = 1%nat /\
  Scene.FindObject s2 "A" = None /\
  Scene.m_ObjectIndex s3 !! "C" = Some 1%nat /\
  Scene.m_Objects s4 = [C] /\
  Scene.m_ObjectIndex s4 !! "C" = Some 0%nat /\
  Scene.FindObject s4 "C" = Some C /\
  Scene.FindObject s4 "B" = None.
Proof. vm_compute. repeat split; reflexivity. Qed.

(* ===================================================================== *)
(** * Further properties: Math.h and MathUtils.h                         *)
(* ===================================================================== *)

Section MathReal.
Local Open Scope R_scope.

Lemma Clamp_R_cases (v lo hi : R) :
Math.Clamp v lo hi = (if Rlt_dec v lo then lo else if Rlt_dec hi v then hi else v).
Proof. unfold Math.Clamp. scalar_R. destruct (Rlt_dec v lo), (Rlt_dec hi v); reflexivity. Qed.

(** X1.  Over the reals, when [min <= max]: [Clamp(v, min, max)] lies in
  [[min, max]], is [v] itself when [v] already does, and clamping twice is
  clamping once. *)
Theorem Clamp_range (v lo hi : R) :
lo <= hi ->
lo <= Math.Clamp v lo hi <= hi /\
(lo <= v <= hi -> Math.Clamp v lo hi = v) /\
Math.Clamp (Math.Clamp v lo hi) lo hi = Math.Clamp v lo hi.
Proof.
intros Hle. rewrite !Clamp_R_cases.
destruct (Rlt_dec v lo) as [H1|H1], (Rlt_dec hi v) as [H2|H2];
  repeat split; try lra; intros; rewrite ?Clamp_R_cases;
  repeat match goal with |- context [Rlt_dec ?a ?b] => destruct (Rlt_dec a b) end;
  lra.
Qed.

Lemma Clamp_range_witness :
(0 <= 1) /\ 0 <= Math.Clamp 7 0 1 <= 1.
Proof.
assert (H : 0 <= 1) by lra.
split; [exact H|]. exact (proj1 (Clamp_range 7 0 1 H)).
Defined.

Lemma Clamp01_R (r : R) :
0 <= Math.Clamp r (fofZ 0) (fofZ 1) <= 1 /\
(r <= 0 -> Math.Clamp r (fofZ 0) (fofZ 1) = 0) /\
(1 <= r -> Math.Clamp r (fofZ 0) (fofZ 1) = 1).
Proof.
rewrite Clamp_R_cases. cbn [fofZ R_Scalar].
destruct (Rlt_dec r 0), (Rlt_dec 1 r); repeat split; intros; lra.
Qed.

Lemma Clamp01_mono (r s : R) :
r <= s -> Math.Clamp r (fofZ 0) (fofZ 1) <= Math.Clamp s (fofZ 0) (fofZ 1).
Proof.
intros Hrs. rewrite !Clamp_R_cases. cbn [fofZ R_Scalar].
destruct (Rlt_dec r 0), (Rlt_dec 1 r), (Rlt_dec s 0), (Rlt_dec 1 s); lra.
Qed.

Lemma smooth_poly_bounds (a : R) :
0 <= a <= 1 -> 0 <= a * a * (3 - 2 * a) <= 1.
Proof.
intros Ha. assert (Haa : 0 <= a * a) by nra.
split; [apply Rmult_le_pos; lra |].
assert (Hp : 0 <= (1 - a) * (1 - a) * (1 + 2 * a))
  by (apply Rmult_le_pos; [nra | lra]).
replace (a * a * (3 - 2 * a)) with (1 - (1 - a) * (1 - a) * (1 + 2 * a))
  by ring.
lra.
Qed.

Lemma smoother_poly_bounds (a : R) :
0 <= a <= 1 -> 0 <= a * a * a * (a * (a * 6 - 15) + 10) <= 1.
Proof.
intros Ha. assert (Haa : 0 <= a * a) by nra.
assert (Haaa : 0 <= a * a * a) by (apply Rmult_le_pos; lra).
split.
- apply Rmult_le_pos; [exact Haaa|]. nra.
- assert (H3 : 0 <= (1 - a) * (1 - a) * (1 - a))
    by (apply Rmult_le_pos; [nra | lra]).
  assert (H2 : 0 <= 6 * (a * a) + 3 * a + 1) by nra.
  pose proof (Rmult_le_pos _ _ H3 H2) as Hprod.
  replace (a * a * a * (a * (a * 6 - 15) + 10))
    with (1 - (1 - a) * (1 - a) * (1 - a) * (6 * (a * a) + 3 * a + 1))
    by ring.
  lra.
Qed.

Lemma smooth_poly_mono (a b : R) :
0 <= a -> a <= b -> b <= 1 ->
a * a * (3 - 2 * a) <= b * b * (3 - 2 * b).
Proof.
intros Ha Hab Hb.
assert (Hd : 0 <= 3 * (a + b) - 2 * (a * a + a * b + b * b)) by nra.
assert (Hp : 0 <= (b - a) * (3 * (a + b) - 2 * (a * a + a * b + b * b)))
  by (apply Rmult_le_pos; lra).
replace (b * b * (3 - 2 * b)) with
  (a * a * (3 - 2 * a) +
   (b - a) * (3 * (a + b) - 2 * (a * a + a * b + b * b))) by ring.
lra.
Qed.

(** X2.  Over the reals, for [edge0 < edge1]: [Smoothstep] and
  [Smootherstep] stay in [[0, 1]], are [0] for [x <= edge0] and [1] for
  [x >= edge1], and [Smoothstep] never decreases in [x]. *)
Theorem Smoothstep_shape (edge0 edge1 x y : R) :
edge0 < edge1 ->
0 <= Math.Smoothstep edge0 edge1 x <= 1 /\
0 <= Math.Smootherstep edge0 edge1 x <= 1 /\
(x <= edge0 -> Math.Smoothstep edge0 edge1 x = 0 /\
               Math.Smootherstep edge0 edge1 x = 0) /\
(edge1 <= x -> Math.Smoothstep edge0 edge1 x = 1 /\
               Math.Smootherstep edge0 edge1 x = 1) /\
(x <= y -> Math.Smoothstep edge0 edge1 x <= Math.Smoothstep edge0 edge1 y).
Proof.
intros Hedge. unfold Math.Smoothstep, Math.Smootherstep.
assert (Hinv : 0 < / (edge1 - edge0)) by (apply Rinv_0_lt_compat; lra).
assert (Hrx : x <= edge0 -> (x - edge0) / (edge1 - edge0) <= 0)
  by (intros Hx; unfold Rdiv; nra).
assert (Hr1 : edge1 <= x -> 1 <= (x - edge0) / (edge1 - edge0)).
{ intros Hx. apply (Rmult_le_reg_r (edge1 - edge0)); [lra|].
  unfold Rdiv. rewrite Rmult_assoc, Rinv_l by lra. lra. }
assert (Hmono : x <= y ->
          (x - edge0) / (edge1 - edge0) <= (y - edge0) / (edge1 - edge0))
  by (intros Hxy; unfold Rdiv; nra).
cbn [fadd fsub fmul fdiv R_Scalar] in *.
pose proof (Clamp01_R ((x - edge0) / (edge1 - edge0))) as (Hx01 & Hx0 & Hx1).
pose proof (Clamp01_R ((y - edge0) / (edge1 - edge0))) as (Hy01 & _ & _).
pose proof (Clamp01_mono _ _ : _ -> Math.Clamp ((x - edge0) / (edge1 - edge0)) _ _ <= Math.Clamp ((y - edge0) / (edge1 - edge0)) _ _) as Hcm.
set (a := Math.Clamp ((x - edge0) / (edge1 - edge0)) (fofZ 0) (fofZ 1)) in *.
set (b := Math.Clamp ((y - edge0) / (edge1 - edge0)) (fofZ 0) (fofZ 1)) in *.
cbn [fofZ R_Scalar]. clearbody a b.
split; [apply smooth_poly_bounds, Hx01|].
split; [apply smoother_poly_bounds, Hx01|].
split; [intros Hx; rewrite (Hx0 (Hrx Hx)); split; ring|].
split; [intros Hx; rewrite (Hx1 (Hr1 Hx)); split; ring|].
intros Hxy. apply smooth_poly_mono; [lra | apply Hcm, Hmono, Hxy | lra].
Qed.

Lemma Smoothstep_shape_witness :
(0 < 10) /\ Math.Smoothstep 0 10 (-3) = 0 /\ Math.Smoothstep 0 10 12 = 1.
Proof.
assert (H : 0 < 10) by lra. split; [exact H|].
pose proof (Smoothstep_shape 0 10 (-3) 0 H) as (_ & _ & H0 & _).
pose proof (Smoothstep_shape 0 10 12 12 H) as (_ & _ & _ & H1 & _).
split; [apply H0; lra | apply H1; lra].
Defined.

(** X3.  Over the reals, for non-empty ranges: [Remap] sends [fromMin] to
  [toMin] and [fromMax] to [toMax], and remapping back with the ranges
  swapped returns the value. *)
Theorem Remap_round_trip (v a b c d : R) :
a <> b -> c <> d ->
Math.Remap a a b c d = c /\ Math.Remap b a b c d = d /\
Math.Remap (Math.Remap v a b c d) c d a b = v.
Proof.
intros Hab Hcd. unfold Math.Remap. scalar_R. repeat split; field; lra.
Qed.

Lemma Remap_round_trip_witness :
(0 <> 10) /\ (100 <> 200) /\ Math.Remap 5 0 10 100 200 = 150 /\
Math.Remap (Math.Remap 5 0 10 100 200) 100 200 0 10 = 5.
Proof.
assert (H1 : 0 <> 10) by lra. assert (H2 : 100 <> 200) by lra.
split; [exact H1|]. split; [exact H2|]. split.
- unfold Math.Remap. scalar_R. field.
- exact (proj2 (proj2 (Remap_round_trip 5 0 10 100 200 H1 H2))).
Defined.

(** Over the reals degrees and radians convert back and forth without
  loss. *)
Lemma ToDegrees_ToRadians (d : R) :
Math.ToDegrees (Math.ToRadians d) = d /\
Math.ToRadians (Math.ToDegrees d) = d /\
Math.ToRadians 180 = PI.
Proof.
unfold Math.ToDegrees, Math.ToRadians, Math.RAD2DEG, Math.DEG2RAD.
scalar_R. pose proof PI_RGT_0. repeat split; field; lra.
Qed.
End MathReal.

Section MathIntegers.
Local Open Scope Z_scope.

Lemma land_even_odd (a b : Z) : Z.land (2 * a) (2 * b + 1) = 2 * Z.land a b.
Proof.
apply Z.bits_inj'. intros n Hn. rewrite Z.land_spec.
destruct (Z.eq_dec n 0) as [-> | Hnz].
- rewrite !Z.testbit_even_0. reflexivity.
- replace n with (Z.succ (n - 1)) by lia.
  rewrite !Z.testbit_even_succ, Z.testbit_odd_succ, Z.land_spec by lia.
  reflexivity.
Qed.

Lemma land_odd_even (a b : Z) : Z.land (2 * a + 1) (2 * b) = 2 * Z.land a b.
Proof. rewrite Z.land_comm, land_even_odd, Z.land_comm. reflexivity. Qed.

Lemma land_pred_pow2 (p : positive) :
Z.land (Z.pos p) (Z.pos p - 1) = 0 <-> exists k, 0 <= k /\ Z.pos p = 2 ^ k.
Proof.
induction p as [q IH | q IH | ].
- replace (Z.pos q~1) with (2 * Z.pos q + 1) by lia.
  replace (2 * Z.pos q + 1 - 1) with (2 * Z.pos q) by lia.
  rewrite land_odd_even, Z.land_diag. split; [lia|].
  intros (k & Hk & Hpow). exfalso.
  destruct (Z.eq_dec k 0) as [-> | Hk0]; [cbn in Hpow; lia|].
  replace k with (Z.succ (k - 1)) in Hpow by lia.
  rewrite Z.pow_succ_r in Hpow by lia. lia.
- replace (Z.pos q~0) with (2 * Z.pos q) by lia.
  replace (2 * Z.pos q - 1) with (2 * (Z.pos q - 1) + 1) by lia.
  rewrite land_even_odd. split.
  + intros Hz. destruct IH as [IH _].
    destruct IH as (k & Hk & Hpow); [lia|].
    exists (Z.succ k). split; [lia|]. rewrite Z.pow_succ_r by lia. lia.
  + intros (k & Hk & Hpow).
    destruct (Z.eq_dec k 0) as [-> | Hk0]; [cbn in Hpow; lia|].
    replace k with (Z.succ (k - 1)) in Hpow by lia.
    rewrite Z.pow_succ_r in Hpow by lia.
    destruct IH as [_ IH]. rewrite IH; [lia|].
    exists (k - 1). split; lia.
- split; [|reflexivity]. intros _. exists 0. split; [lia | reflexivity].
Qed.

(** X4.  At [T = u32]: [IsPowerOfTwo(value)] is true exactly for the
  values [2^k] with [0 <= k < 32]; in particular it is false for 0. *)
Theorem IsPowerOfTwo_iff (value : Z) :
0 <= value < 2 ^ 32 ->
Math.IsPowerOfTwo value = true <-> exists k, 0 <= k < 32 /\ value = 2 ^ k.
Proof.
intros Hrange. unfold Math.IsPowerOfTwo, Math.u32.
destruct value as [|p|p]; [| |lia].
- cbn. split; [discriminate|]. intros (k & Hk & Hpow).
  pose proof (Z.pow_pos_nonneg 2 k). lia.
- rewrite Z.mod_small by lia.
  replace (Z.pos p =? 0) with false by (symmetry; apply Z.eqb_neq; lia).
  cbn [negb andb]. rewrite Z.eqb_eq, land_pred_pow2. split.
  + intros (k & Hk & Hpow). exists k. split; [|exact Hpow].
    split; [exact Hk|].
    destruct (Z.lt_ge_cases k 32) as [Hlt | Hge]; [exact Hlt|].
    pose proof (Z.pow_le_mono_r 2 32 k). lia.
  + intros (k & Hk & Hpow). exists k. split; [lia | exact Hpow].
Qed.

Lemma IsPowerOfTwo_iff_witness :
0 <= 1024 < 2 ^ 32 /\
(Math.IsPowerOfTwo 1024 = true <-> exists k, 0 <= k < 32 /\ 1024 = 2 ^ k).
Proof.
assert (H : 0 <= 1024 < 2 ^ 32) by (cbn; lia).
split; [exact H|]. exact (IsPowerOfTwo_iff 1024 H).
Defined.

(** What the five smearing steps [value |= value >> k] preserve: the set
  bits of [y] all lie at or below position [L], and every position in the
  window of width [w] below [L] is set. *)
Local Abbreviation covers L w y :=
(forall n, 0 <= n ->
   (Z.testbit y n = true -> n <= L) /\
   (0 <= L - n < w -> Z.testbit y n = true)).

Lemma covers_start (x : Z) : 0 < x -> covers (Z.log2 x) 1 x.
Proof.
intros Hx n Hn. split.
- intros Hbit. destruct (Z.le_gt_cases n (Z.log2 x)) as [Hle | Hgt]; [exact Hle|].
  rewrite Z.bits_above_log2 in Hbit by lia. discriminate.
- intros Hw. replace n with (Z.log2 x) by lia. apply Z.bit_log2. exact Hx.
Qed.

Lemma covers_step (L w k y : Z) :
0 < k <= w -> covers L w y -> covers L (w + k) (Z.lor y (Z.shiftr y k)).
Proof.
intros Hk Hy n Hn. rewrite Z.lor_spec, Z.shiftr_spec by lia. split.
- intros Hbit. apply orb_true_iff in Hbit. destruct Hbit as [Hbit | Hbit].
  + apply (Hy n Hn). exact Hbit.
  + assert (n + k <= L) by (apply (Hy (n + k)); [lia | exact Hbit]). lia.
- intros Hw. apply orb_true_iff.
  destruct (Z.lt_ge_cases (L - n) w) as [Hlt | Hge].
  + left. apply (Hy n Hn). lia.
  + right. apply (Hy (n + k)); lia.
Qed.

Lemma covers_ones (L y : Z) :
0 <= L < 32 -> 0 <= y -> covers L 32 y -> y = Z.ones (L + 1).
Proof.
intros HL Hy0 Hy. apply Z.bits_inj'. intros n Hn.
destruct (Z.le_gt_cases n L) as [Hle | Hgt].
- rewrite Z.ones_spec_low by lia. apply (Hy n Hn). lia.
- rewrite Z.ones_spec_high by lia.
  destruct (Z.testbit y n) eqn:Hbit; [|reflexivity].
  assert (n <= L) by (apply (Hy n Hn); exact Hbit). lia.
Qed.

Lemma smear_ones (x : Z) :
0 < x < 2 ^ 32 ->
let y1 := Z.lor x (Z.shiftr x 1) in
let y2 := Z.lor y1 (Z.shiftr y1 2) in
let y3 := Z.lor y2 (Z.shiftr y2 4) in
let y4 := Z.lor y3 (Z.shiftr y3 8) in
Z.lor y4 (Z.shiftr y4 16) = Z.ones (Z.log2 x + 1).
Proof.
intros Hx y1 y2 y3 y4.
assert (HL : 0 <= Z.log2 x < 32).
{ split; [apply Z.log2_nonneg|]. apply Z.log2_lt_pow2; lia. }
assert (H0 := covers_start x ltac:(lia)).
assert (H1 : covers (Z.log2 x) 2 y1) by (apply (covers_step _ 1 1); [lia | exact H0]).
assert (H2 : covers (Z.log2 x) 4 y2) by (apply (covers_step _ 2 2); [lia | exact H1]).
assert (H3 : covers (Z.log2 x) 8 y3) by (apply (covers_step _ 4 4); [lia | exact H2]).
assert (H4 : covers (Z.log2 x) 16 y4) by (apply (covers_step _ 8 8); [lia | exact H3]).
assert (H5 := covers_step _ 16 16 y4 ltac:(lia) H4).
apply covers_ones; [exact HL | | exact H5].
assert (N1 : 0 <= y1) by (apply Z.lor_nonneg; split; [lia | apply Z.shiftr_nonneg; lia]).
assert (N2 : 0 <= y2) by (apply Z.lor_nonneg; split; [lia | apply Z.shiftr_nonneg; lia]).
assert (N3 : 0 <= y3) by (apply Z.lor_nonneg; split; [lia | apply Z.shiftr_nonneg; lia]).
assert (N4 : 0 <= y4) by (apply Z.lor_nonneg; split; [lia | apply Z.shiftr_nonneg; lia]).
apply Z.lor_nonneg; split; [lia | apply Z.shiftr_nonneg; lia].
Qed.

Lemma NextPowerOfTwo_log2 (value : Z) :
1 < value <= 2 ^ 32 ->
Math.NextPowerOfTwo value = Math.u32 (2 ^ (Z.log2 (value - 1) + 1)).
Proof.
intros Hv. unfold Math.NextPowerOfTwo.
replace (value <=? 0) with false by (symmetry; apply Z.leb_gt; lia).
replace (Math.u32 (value - 1)) with (value - 1)
  by (unfold Math.u32; rewrite Z.mod_small; lia).
cbv zeta. rewrite smear_ones by lia.
rewrite Z.ones_equiv. f_equal. lia.
Qed.

(** X5.  At [T = u32]: [NextPowerOfTwo(0)] is 1; for [1 <= value <= 2^31]
  the result is the least power of two that is at least [value] (a power
  of two [r] with [value <= r < 2 * value]); for [value > 2^31] the final
  [value + 1] wraps around and the result is 0. *)
Theorem NextPowerOfTwo_u32 (value : Z) :
0 <= value < 2 ^ 32 ->
let r := Math.NextPowerOfTwo value in
(value = 0 -> r = 1) /\
(0 < value <= 2 ^ 31 ->
   (exists k, 0 <= k <= 31 /\ r = 2 ^ k) /\ value <= r < 2 * value) /\
(2 ^ 31 < value -> r = 0).
Proof.
intros Hrange r. subst r. split; [intros ->; reflexivity|]. split.
- intros Hv. destruct (Z.eq_dec value 1) as [-> | Hne].
  { assert (E : Math.NextPowerOfTwo 1 = 1) by reflexivity. rewrite E.
    split; [exists 0; split; [lia | reflexivity] | lia]. }
  rewrite NextPowerOfTwo_log2 by lia.
  set (x := value - 1). assert (Hx : 0 < x < 2 ^ 31) by (unfold x; lia).
  pose proof (Z.log2_spec x ltac:(lia)) as Hspec.
  assert (HL : 0 <= Z.log2 x < 31).
  { split; [apply Z.log2_nonneg|]. apply Z.log2_lt_pow2; lia. }
  rewrite Z.pow_succ_r in Hspec by lia.
  replace (Z.log2 x + 1) with (Z.succ (Z.log2 x)) by lia.
  rewrite Z.pow_succ_r by lia.
  assert (Hp : 2 ^ Z.log2 x <= 2 ^ 30) by (apply Z.pow_le_mono_r; lia).
  unfold Math.u32. rewrite Z.mod_small by lia.
  split; [|unfold x in *; lia].
  exists (Z.succ (Z.log2 x)). split; [lia|]. rewrite Z.pow_succ_r by lia. reflexivity.
- intros Hv. rewrite NextPowerOfTwo_log2 by lia.
  assert (HL : Z.log2 (value - 1) = 31).
  { apply Z.log2_unique; [lia|]. change (2 ^ Z.succ 31) with (2 ^ 32). lia. }
  rewrite HL. reflexivity.
Qed.

Lemma NextPowerOfTwo_u32_witness :
0 <= 1000 < 2 ^ 32 /\
((1000 = 0 -> Math.NextPowerOfTwo 1000 = 1) /\
 (0 < 1000 <= 2 ^ 31 ->
    (exists k, 0 <= k <= 31 /\ Math.NextPowerOfTwo 1000 = 2 ^ k) /\
    1000 <= Math.NextPowerOfTwo 1000 < 2 * 1000) /\
 (2 ^ 31 < 1000 -> Math.NextPowerOfTwo 1000 = 0)).
Proof.
assert (H : 0 <= 1000 < 2 ^ 32) by (cbn; lia).
split; [exact H|]. exact (NextPowerOfTwo_u32 1000 H).
Defined.

End MathIntegers.

(* ===================================================================== *)
(** * Further properties: Vector3.h and Vector4.h                        *)
(* ===================================================================== *)

Ltac vector_fields :=
  cbn [Vector3.x Vector3.y Vector3.z
       Vector4.x Vector4.y Vector4.z Vector4.w] in *.

Section VectorReal.
Local Open Scope R_scope.

Lemma LengthSquared_nonneg (v : Vector3.t R) : 0 <= Vector3.LengthSquared v.
Proof.
destruct v as [x y z]. unfold Vector3.LengthSquared. vector_fields. scalar_R.
nra.
Qed.

Lemma Length_sqr (v : Vector3.t R) :
Vector3.Length v * Vector3.Length v = Vector3.LengthSquared v.
Proof. apply sqrt_sqrt, LengthSquared_nonneg. Qed.

Lemma Normalized_long (v : Vector3.t R) :
1e-6 < Vector3.Length v ->
Vector3.Normalized v = Vector3.div v (Vector3.Length v).
Proof.
intros Hlen. unfold Vector3.Normalized, Vector3.Normalize. cbv zeta.
rewrite (proj2 (NearZero_R_false _)); [reflexivity|].
rewrite Rabs_right; lra.
Qed.

(** X6.  A vector longer than the epsilon is normalized to a vector of
  length exactly 1 that points the same way: multiplying the result by
  the old length gives the vector back; the result passes
  [isNormalized], and normalizing it again changes nothing. *)
Theorem Normalized_long_unit (v : Vector3.t R) :
1e-6 < Vector3.Length v ->
Vector3.Length (Vector3.Normalized v) = 1 /\
Vector3.scale (Vector3.Normalized v) (Vector3.Length v) = v /\
Vector3.isNormalized (Vector3.Normalized v) = true /\
Vector3.Normalized (Vector3.Normalized v) = Vector3.Normalized v.
Proof.
intros Hlen. pose proof (Length_sqr v) as Hsq.
assert (HLS : Vector3.LengthSquared (Vector3.Normalized v) = 1).
{ rewrite Normalized_long by exact Hlen.
  set (L := Vector3.Length v) in *.
  destruct v as [x y z]. unfold Vector3.LengthSquared, Vector3.div in *.
  vector_fields. scalar_R.
  replace (x / L * (x / L) + y / L * (y / L) + z / L * (z / L))
    with ((x * x + y * y + z * z) / (L * L)) by (field; lra).
  rewrite <- Hsq. field. lra. }
assert (HL : Vector3.Length (Vector3.Normalized v) = 1).
{ unfold Vector3.Length. rewrite HLS. apply sqrt_1. }
split; [exact HL|]. split; [|split].
- rewrite Normalized_long by exact Hlen.
  set (L := Vector3.Length v) in *.
  destruct v as [x y z]. unfold Vector3.scale, Vector3.div. vector_fields.
  scalar_R. f_equal; field; lra.
- unfold Vector3.isNormalized. rewrite HLS. apply Approximately_R.
  scalar_R. replace (1 - 1) with 0 by ring. rewrite Rabs_R0. lra.
- rewrite (Normalized_long (Vector3.Normalized v)) by (rewrite HL; lra).
  rewrite HL. destruct (Vector3.Normalized v) as [x y z].
  unfold Vector3.div. vector_fields. scalar_R. f_equal; field.
Qed.

Lemma Normalized_long_unit_witness :
1e-6 < Vector3.Length (Vector3.mk 3 0 4) /\
Vector3.Length (Vector3.Normalized (Vector3.mk 3 0 4)) = 1.
Proof.
assert (H : 1e-6 < Vector3.Length (Vector3.mk 3 0 4)).
{ unfold Vector3.Length, Vector3.LengthSquared. vector_fields. scalar_R.
  replace (3 * 3 + 0 * 0 + 4 * 4) with (5 * 5) by ring.
  rewrite sqrt_square; lra. }
split; [exact H|]. exact (proj1 (Normalized_long_unit _ H)).
Defined.

(** X7.  [Cross(a, b)] is perpendicular to both arguments, changes sign
  when the arguments are swapped, and its squared length is
  [|a|^2 |b|^2 - Dot(a, b)^2]. *)
Theorem Cross_perpendicular (a b : Vector3.t R) :
Vector3.Dot (Vector3.Cross a b) a = 0 /\
Vector3.Dot (Vector3.Cross a b) b = 0 /\
Vector3.Cross b a = Vector3.neg (Vector3.Cross a b) /\
Vector3.LengthSquared (Vector3.Cross a b) =
  Vector3.LengthSquared a * Vector3.LengthSquared b
  - Vector3.Dot a b * Vector3.Dot a b.
Proof.
destruct a as [ax ay az], b as [bx b_y bz].
unfold Vector3.Dot, Vector3.Cross, Vector3.neg, Vector3.LengthSquared.
vector_fields. scalar_R.
repeat split; try ring. f_equal; ring.
Qed.

(** X8.  [Project(a, b)] never divides by a near-zero squared length:
  when [b.LengthSquared()] is at most the epsilon it returns
  [Vector3::Zero].  Otherwise it is the orthogonal projection of [a] on
  the line of [b]: the remainder [a - Project(a, b)] is perpendicular to
  [b], the result is parallel to [b], and projecting again changes
  nothing. *)
Theorem Project_orthogonal (a b : Vector3.t R) :
(Vector3.LengthSquared b <= 1e-6 -> Vector3.Project a b = Vector3.Zero) /\
(1e-6 < Vector3.LengthSquared b ->
 Vector3.Dot (Vector3.sub a (Vector3.Project a b)) b = 0 /\
 Vector3.Cross (Vector3.Project a b) b = Vector3.Zero /\
 Vector3.Project (Vector3.Project a b) b = Vector3.Project a b).
Proof.
pose proof (LengthSquared_nonneg b) as Hpos. split.
{ intros Hle. unfold Vector3.Project. cbv zeta.
  rewrite (proj2 (NearZero_R_true _)); [reflexivity|].
  rewrite Rabs_right; lra. }
intros Hlen.
assert (Hnz : Math.NearZero (Vector3.LengthSquared b) = false).
{ apply NearZero_R_false. rewrite Rabs_right; lra. }
unfold Vector3.Project. cbv zeta. rewrite Hnz.
set (s := Vector3.LengthSquared b) in *.
assert (Hs : Vector3.Dot b b = s) by reflexivity.
destruct a as [ax ay az], b as [bx b_y bz].
unfold Vector3.Dot, Vector3.sub, Vector3.scale, Vector3.Cross, Vector3.Zero in *.
vector_fields. scalar_R. split; [|split].
- transitivity ((ax * bx + ay * b_y + az * bz)
                - (ax * bx + ay * b_y + az * bz) / s * (bx * bx + b_y * b_y + bz * bz)).
  + field. lra.
  + rewrite Hs. field. lra.
- f_equal; field; lra.
- assert (Hd : (bx * ((ax * bx + ay * b_y + az * bz) / s) * bx +
                b_y * ((ax * bx + ay * b_y + az * bz) / s) * b_y +
                bz * ((ax * bx + ay * b_y + az * bz) / s) * bz) / s
               = (ax * bx + ay * b_y + az * bz) / s).
  { transitivity ((ax * bx + ay * b_y + az * bz) / s
                  * (bx * bx + b_y * b_y + bz * bz) / s).
    - field. lra.
    - rewrite Hs. field. lra. }
  rewrite Hd. reflexivity.
Qed.

Lemma Project_orthogonal_witness :
1e-6 < Vector3.LengthSquared (Vector3.mk 0 2 0) /\
Vector3.Dot (Vector3.sub (Vector3.mk 1 1 1)
               (Vector3.Project (Vector3.mk 1 1 1) (Vector3.mk 0 2 0)))
            (Vector3.mk 0 2 0) = 0.
Proof.
assert (H : 1e-6 < Vector3.LengthSquared (Vector3.mk 0 2 0)).
{ unfold Vector3.LengthSquared. vector_fields. scalar_R. lra. }
split; [exact H|]. exact (proj1 (proj2 (Project_orthogonal (Vector3.mk 1 1 1) _) H)).
Defined.

(** X9.  [Reject(incident, normal)] is
  [incident - normal * (2 * Dot(incident, normal))].  With a normal of
  length 1 this is the mirror image of [incident] in the plane through
  the origin perpendicular to the normal: the component along the normal
  changes sign while the component along every direction of the plane is
  kept; so the length is kept, vectors of the plane are fixed, the
  normal goes to its opposite, and applying it twice gives [incident]
  back. *)
Theorem Reject_reflects (v n : Vector3.t R) :
Vector3.LengthSquared n = 1 ->
Vector3.Reject v n
  = Vector3.sub v (Vector3.scale n (2 * Vector3.Dot v n)) /\
Vector3.Dot (Vector3.Reject v n) n = - Vector3.Dot v n /\
(forall w, Vector3.Dot w n = 0 ->
           Vector3.Dot (Vector3.Reject v n) w = Vector3.Dot v w) /\
(Vector3.Dot v n = 0 -> Vector3.Reject v n = v) /\
Vector3.Reject n n = Vector3.neg n /\
Vector3.LengthSquared (Vector3.Reject v n) = Vector3.LengthSquared v /\
Vector3.Reject (Vector3.Reject v n) n = v.
Proof.
intros Hn. split; [reflexivity|].
destruct v as [vx vy vz], n as [nx ny nz].
unfold Vector3.Reject, Vector3.Dot, Vector3.sub, Vector3.scale,
  Vector3.neg, Vector3.LengthSquared in *.
vector_fields. scalar_R.
set (d := vx * nx + vy * ny + vz * nz).
assert (Hd : (vx - nx * (2 * d)) * nx + (vy - ny * (2 * d)) * ny
             + (vz - nz * (2 * d)) * nz = - d).
{ transitivity (d - 2 * d * (nx * nx + ny * ny + nz * nz)).
  - unfold d. ring.
  - rewrite Hn. ring. }
split; [exact Hd|]. split.
{ intros [wx wy wz]. vector_fields. intros Hw.
  transitivity (vx * wx + vy * wy + vz * wz
                - 2 * d * (wx * nx + wy * ny + wz * nz)).
  - ring.
  - rewrite Hw. ring. }
split.
{ intros Hperp. fold d in Hperp. rewrite Hperp. f_equal; ring. }
split.
{ f_equal.
  - transitivity (nx - 2 * nx * (nx * nx + ny * ny + nz * nz)); [ring | rewrite Hn; ring].
  - transitivity (ny - 2 * ny * (nx * nx + ny * ny + nz * nz)); [ring | rewrite Hn; ring].
  - transitivity (nz - 2 * nz * (nx * nx + ny * ny + nz * nz)); [ring | rewrite Hn; ring]. }
split.
- transitivity (vx * vx + vy * vy + vz * vz
                - 4 * d * d + 4 * d * d * (nx * nx + ny * ny + nz * nz)).
  + unfold d. ring.
  + rewrite Hn. ring.
- rewrite Hd. f_equal; ring.
Qed.

Lemma Reject_reflects_witness :
Vector3.LengthSquared (Vector3.mk 0 1 0) = 1 /\
Vector3.Reject (Vector3.mk 1 (-2) 3) (Vector3.mk 0 1 0) = Vector3.mk 1 2 3 /\
Vector3.Reject (Vector3.Reject (Vector3.mk 1 (-2) 3) (Vector3.mk 0 1 0))
               (Vector3.mk 0 1 0) = Vector3.mk 1 (-2) 3.
Proof.
assert (H : Vector3.LengthSquared (Vector3.mk 0 1 0) = 1).
{ unfold Vector3.LengthSquared. vector_fields. scalar_R. ring. }
split; [exact H|].
destruct (Reject_reflects (Vector3.mk 1 (-2) 3) (Vector3.mk 0 1 0) H)
  as (Hformula & _ & _ & _ & _ & _ & Htwice).
split; [|exact Htwice].
rewrite Hformula. unfold Vector3.sub, Vector3.scale, Vector3.Dot.
vector_fields. scalar_R. f_equal; ring.
Defined.

Lemma Dot_le_Length (u v : Vector3.t R) :
Vector3.Dot u v <= Vector3.Length u * Vector3.Length v.
Proof.
pose proof (Length_sqr u) as Hu. pose proof (Length_sqr v) as Hv.
assert (Hu0 : 0 <= Vector3.Length u) by apply sqrt_pos.
assert (Hv0 : 0 <= Vector3.Length v) by apply sqrt_pos.
assert (Hcs : Vector3.Dot u v * Vector3.Dot u v
              <= Vector3.LengthSquared u * Vector3.LengthSquared v).
{ destruct u as [a b c], v as [d e f].
  unfold Vector3.Dot, Vector3.LengthSquared. vector_fields. scalar_R.
  assert (Hid : (a * a + b * b + c * c) * (d * d + e * e + f * f)
                - (a * d + b * e + c * f) * (a * d + b * e + c * f)
                = (b * f - c * e) * (b * f - c * e)
                  + (c * d - a * f) * (c * d - a * f)
                  + (a * e - b * d) * (a * e - b * d)) by ring.
  pose proof (Rle_0_sqr (b * f - c * e)) as H1.
  pose proof (Rle_0_sqr (c * d - a * f)) as H2.
  pose proof (Rle_0_sqr (a * e - b * d)) as H3.
  unfold Rsqr in *. lra. }
rewrite <- Hu, <- Hv in Hcs.
set (p := Vector3.Length u * Vector3.Length v).
assert (Hp : 0 <= p) by (apply Rmult_le_pos; assumption).
assert (Hcs' : Vector3.Dot u v * Vector3.Dot u v <= p * p) by (unfold p; lra).
destruct (Rle_lt_dec (Vector3.Dot u v) p) as [Hle | Hgt]; [exact Hle|].
assert (p * p < Vector3.Dot u v * Vector3.Dot u v) by nra. lra.
Qed.

(** X10.  [Distance] is a metric and [DistanceSquared] its square: the
  distance is symmetric, never negative, zero from a point to itself,
  and satisfies the triangle inequality. *)
Theorem Distance_metric (a b c : Vector3.t R) :
Vector3.Distance a b = Vector3.Distance b a /\
0 <= Vector3.Distance a b /\
Vector3.Distance a a = 0 /\
Vector3.Distance a b * Vector3.Distance a b = Vector3.DistanceSquared a b /\
Vector3.Distance a c <= Vector3.Distance a b + Vector3.Distance b c.
Proof.
unfold Vector3.Distance, Vector3.DistanceSquared.
split; [|split; [|split; [|split]]].
- unfold Vector3.Length. f_equal.
  destruct a as [ax ay az], b as [bx b_y bz].
  unfold Vector3.LengthSquared, Vector3.sub. vector_fields. scalar_R. ring.
- apply sqrt_pos.
- unfold Vector3.Length.
  replace (Vector3.LengthSquared (Vector3.sub a a)) with 0.
  + apply sqrt_0.
  + destruct a as [ax ay az].
    unfold Vector3.LengthSquared, Vector3.sub. vector_fields. scalar_R. ring.
- apply Length_sqr.
- set (u := Vector3.sub a b). set (v := Vector3.sub b c).
  pose proof (Dot_le_Length u v) as Hcs.
  pose proof (Length_sqr u) as Hu. pose proof (Length_sqr v) as Hv.
  pose proof (Length_sqr (Vector3.sub a c)) as Hw.
  assert (Hu0 : 0 <= Vector3.Length u) by apply sqrt_pos.
  assert (Hv0 : 0 <= Vector3.Length v) by apply sqrt_pos.
  assert (Hw0 : 0 <= Vector3.Length (Vector3.sub a c)) by apply sqrt_pos.
  assert (Hsum : Vector3.LengthSquared (Vector3.sub a c)
                 = Vector3.LengthSquared u + Vector3.LengthSquared v
                   + 2 * Vector3.Dot u v).
  { unfold u, v. destruct a as [ax ay az], b as [bx b_y bz], c as [cx cy cz].
    unfold Vector3.LengthSquared, Vector3.Dot, Vector3.sub. vector_fields.
    scalar_R. ring. }
  set (lu := Vector3.Length u) in *. set (lv := Vector3.Length v) in *.
  set (lw := Vector3.Length (Vector3.sub a c)) in *.
  clearbody lu lv lw.
  destruct (Rle_lt_dec lw (lu + lv)) as [Hle | Hgt]; [exact Hle|].
  assert ((lu + lv) * (lu + lv) < lw * lw) by nra.
  lra.
Qed.

(** [QuadraticLerp] is the quadratic Bezier curve with control
  points [a], [b], [c]: it equals
  [(1-t)^2 a + 2 t (1-t) b + t^2 c] in every component, starts at [a]
  and ends at [c]; the scalar version in MathUtils.h is the same curve. *)
Lemma QuadraticLerp_bezier (a b c : Vector3.t R) (p q r t : R) :
Math.QuadraticLerp p q r t
  = (1 - t) * (1 - t) * p + 2 * t * (1 - t) * q + t * t * r /\
Vector3.QuadraticLerp a b c t
  = Vector3.add
      (Vector3.add (Vector3.scale a ((1 - t) * (1 - t)))
                   (Vector3.scale b (2 * t * (1 - t))))
      (Vector3.scale c (t * t)) /\
Vector3.QuadraticLerp a b c 0 = a /\
Vector3.QuadraticLerp a b c 1 = c.
Proof.
destruct a as [ax ay az], b as [bx b_y bz], c as [cx cy cz].
unfold Math.QuadraticLerp, Vector3.QuadraticLerp, Vector3.Lerp, Math.Lerp,
  Vector3.add, Vector3.scale.
vector_fields. scalar_R.
split; [ring|]. repeat split; f_equal; ring.
Qed.

(** X11.  [Homogenized] undoes a uniform rescaling of homogeneous
  coordinates: while [w] and [w * s] stay above the epsilon in absolute
  value, [(v * s).Homogenized()] equals [v.Homogenized()]; and a point
  extended with [w = 1] is returned as it was. *)
Theorem Homogenized_scale_invariant (v : Vector4.t R) (s : R) (p : Vector3.t R) :
1e-6 < Rabs (Vector4.w v) ->
1e-6 < Rabs (Vector4.w v * s) ->
Vector4.Homogenized (Vector4.scale v s) = Vector4.Homogenized v /\
Vector4.Homogenized (Vector4.ofVector3 p 1) = p.
Proof.
intros Hw Hws. split.
- unfold Vector4.Homogenized, Vector4.scale. vector_fields. cbv zeta.
  rewrite (proj2 (NearZero_R_false (Vector4.w v * s)%S)) by exact Hws.
  rewrite (proj2 (NearZero_R_false (Vector4.w v))) by exact Hw.
  assert (Hw0 : Vector4.w v <> 0).
  { intros E. rewrite E, Rabs_R0 in Hw. lra. }
  assert (Hs0 : s <> 0).
  { intros E. rewrite E, Rmult_0_r, Rabs_R0 in Hws. lra. }
  destruct v as [x y z w]. vector_fields. scalar_R. f_equal; field; split; assumption.
- unfold Vector4.Homogenized, Vector4.ofVector3. vector_fields. cbv zeta.
  rewrite (proj2 (NearZero_R_false _)).
  + destruct p as [x y z]. vector_fields. scalar_R. f_equal; field.
  + scalar_R. rewrite Rabs_R1. lra.
Qed.

Lemma Homogenized_scale_invariant_witness :
1e-6 < Rabs (Vector4.w (Vector4.mk 2 4 6 2)) /\
1e-6 < Rabs (Vector4.w (Vector4.mk 2 4 6 2) * 3) /\
Vector4.Homogenized (Vector4.scale (Vector4.mk 2 4 6 2) 3)
  = Vector4.Homogenized (Vector4.mk 2 4 6 2).
Proof.
assert (H1 : 1e-6 < Rabs (Vector4.w (Vector4.mk 2 4 6 2))).
{ vector_fields. rewrite Rabs_right; lra. }
assert (H2 : 1e-6 < Rabs (Vector4.w (Vector4.mk 2 4 6 2) * 3)).
{ vector_fields. rewrite Rabs_right; lra. }
split; [exact H1|]. split; [exact H2|].
exact (proj1 (Homogenized_scale_invariant _ 3 Vector3.Zero H1 H2)).
Defined.

End VectorReal.

(* ===================================================================== *)
(** * Further properties: Matrix4.h and Matrix3.h                        *)
(* ===================================================================== *)

Ltac matrix3_fields :=
  cbv [Matrix3.mul Matrix3.init Matrix3.at_ Matrix3.get Matrix3.Transposed
       Matrix3.Identity Matrix3.mulVec Matrix3.Determinant fold_left
       Nat.div Nat.modulo Nat.divmod Nat.mul Nat.add Nat.sub fst snd
       Matrix3.m0 Matrix3.m1 Matrix3.m2 Matrix3.m3 Matrix3.m4 Matrix3.m5
       Matrix3.m6 Matrix3.m7 Matrix3.m8] in *.

Section MatrixReal.
Local Open Scope R_scope.

Lemma mul_assoc_R (A B C : Matrix4.t R) :
Matrix4.mul (Matrix4.mul A B) C = Matrix4.mul A (Matrix4.mul B C).
Proof.
destruct A, B, C. matrix_fields. scalar_R. f_equal; ring.
Qed.

Lemma mul_Identity_l_R (A : Matrix4.t R) : Matrix4.mul Matrix4.Identity A = A.
Proof. destruct A. matrix_fields. scalar_R. f_equal; ring. Qed.

Lemma mul_Identity_r_R (A : Matrix4.t R) : Matrix4.mul A Matrix4.Identity = A.
Proof. destruct A. matrix_fields. scalar_R. f_equal; ring. Qed.

Lemma Determinant_mul_R (A B : Matrix4.t R) :
Matrix4.Determinant (Matrix4.mul A B)
  = Matrix4.Determinant A * Matrix4.Determinant B.
Proof.
destruct A, B. unfold Matrix4.Determinant. matrix_fields. scalar_R. ring.
Qed.

Lemma Determinant_Identity_R : Matrix4.Determinant (@Matrix4.Identity R _) = 1.
Proof. unfold Matrix4.Determinant. matrix_fields. scalar_R. ring. Qed.

(** X12.  The matrix operators obey the laws of matrix algebra:
  [operator*] is associative with [Identity()] as its neutral element;
  multiplying a vector by a product is multiplying by the right factor
  first, [(A * B) * v = A * (B * v)]; [Transposed] is an involution
  that reverses products and keeps the determinant; and the determinant
  is multiplicative, with [Identity().Determinant() = 1]. *)
Theorem Matrix4_algebra (A B C : Matrix4.t R) (v : Vector4.t R) :
Matrix4.mul (Matrix4.mul A B) C = Matrix4.mul A (Matrix4.mul B C) /\
Matrix4.mul Matrix4.Identity A = A /\
Matrix4.mul A Matrix4.Identity = A /\
Matrix4.mulVec (Matrix4.mul A B) v = Matrix4.mulVec A (Matrix4.mulVec B v) /\
Matrix4.Transposed (Matrix4.Transposed A) = A /\
Matrix4.Transposed (Matrix4.mul A B)
  = Matrix4.mul (Matrix4.Transposed B) (Matrix4.Transposed A) /\
Matrix4.Determinant (Matrix4.Transposed A) = Matrix4.Determinant A /\
Matrix4.Determinant (Matrix4.mul A B)
  = Matrix4.Determinant A * Matrix4.Determinant B /\
Matrix4.Determinant (@Matrix4.Identity R _) = 1.
Proof.
split; [apply mul_assoc_R|]. split; [apply mul_Identity_l_R|].
split; [apply mul_Identity_r_R|].
split.
{ destruct A, B, v. unfold Matrix4.mulVec. matrix_fields. scalar_R.
  f_equal; ring. }
split; [destruct A; reflexivity|].
split.
{ destruct A, B. unfold Matrix4.Transposed. matrix_fields. scalar_R.
  f_equal; ring. }
split.
{ destruct A. unfold Matrix4.Transposed, Matrix4.Determinant.
  matrix_fields. scalar_R. ring. }
split; [apply Determinant_mul_R | apply Determinant_Identity_R].
Qed.

(** The adjugate formula of [Inverted] is a left inverse as well. *)
Lemma Inverted_mul_R (M : Matrix4.t R) :
Matrix4.Determinant M <> 0 ->
Math.NearZero (Matrix4.Determinant M) = false ->
Matrix4.mul (Matrix4.Inverted M) M = Matrix4.Identity.
Proof.
intros Hnz Hfar. unfold Matrix4.Inverted. rewrite Hfar.
assert (Hi : Matrix4.Determinant M * fdiv (fofZ 1) (Matrix4.Determinant M) = 1).
{ scalar_R. field. exact Hnz. }
revert Hi. generalize (fdiv (fofZ 1) (Matrix4.Determinant M)) as i.
clear Hnz Hfar.
destruct M as [a0 a1 a2 a3 a4 a5 a6 a7 a8 a9 a10 a11 a12 a13 a14 a15].
intros i Hi. cbv [Matrix4.Determinant] in Hi.
matrix_fields. scalar_R.
f_equal; first [ ring | rewrite <- Hi; ring ].
Qed.

Lemma Determinant_Inverted_R (M : Matrix4.t R) :
1e-6 < Rabs (Matrix4.Determinant M) ->
Matrix4.Determinant (Matrix4.Inverted M) = 1 / Matrix4.Determinant M.
Proof.
intros Hdet.
assert (Hnz : Matrix4.Determinant M <> 0).
{ intros E. rewrite E, Rabs_R0 in Hdet. lra. }
pose proof (mul_Inverted_R M Hnz (proj2 (NearZero_R_false _) Hdet)) as Hinv.
apply (f_equal Matrix4.Determinant) in Hinv.
rewrite Determinant_mul_R, Determinant_Identity_R in Hinv.
apply (Rmult_eq_reg_l (Matrix4.Determinant M)); [|exact Hnz].
rewrite Hinv. field. exact Hnz.
Qed.

(** X13.  For a matrix whose determinant exceeds the epsilon in absolute
  value, [Inverted()] is also a left inverse and its determinant is the
  reciprocal; inverting twice gives the matrix back provided the
  determinant is below [1e6] in absolute value, so that the determinant
  of the inverse is itself above the epsilon. *)
Theorem Inverted_two_sided (M : Matrix4.t R) :
1e-6 < Rabs (Matrix4.Determinant M) ->
Matrix4.mul (Matrix4.Inverted M) M = Matrix4.Identity /\
Matrix4.Determinant (Matrix4.Inverted M) = 1 / Matrix4.Determinant M /\
(Rabs (Matrix4.Determinant M) < 1e6 ->
 Matrix4.Inverted (Matrix4.Inverted M) = M).
Proof.
intros Hdet.
assert (Hnz : Matrix4.Determinant M <> 0).
{ intros E. rewrite E, Rabs_R0 in Hdet. lra. }
pose proof (proj2 (NearZero_R_false _) Hdet) as Hfar.
pose proof (Determinant_Inverted_R M Hdet) as HdetN.
split; [apply Inverted_mul_R; assumption|]. split; [exact HdetN|].
intros Hbig. set (N := Matrix4.Inverted M) in *.
assert (HabsN : 1e-6 < Rabs (Matrix4.Determinant N)).
{ rewrite HdetN.
  replace (1 / Matrix4.Determinant M) with (/ Matrix4.Determinant M)
    by (field; exact Hnz).
  rewrite Rabs_inv.
  assert (Hpos : 0 < Rabs (Matrix4.Determinant M)) by lra.
  apply (Rmult_lt_reg_r (Rabs (Matrix4.Determinant M))); [exact Hpos|].
  rewrite Rinv_l by lra. lra. }
assert (HnzN : Matrix4.Determinant N <> 0).
{ intros E. rewrite E, Rabs_R0 in HabsN. lra. }
pose proof (mul_Inverted_R N HnzN (proj2 (NearZero_R_false _) HabsN)) as HNN.
pose proof (mul_Inverted_R M Hnz Hfar) as HMN. fold N in HMN.
rewrite <- (mul_Identity_l_R (Matrix4.Inverted N)), <- HMN, mul_assoc_R, HNN.
apply mul_Identity_r_R.
Qed.

Lemma Inverted_two_sided_witness :
1e-6 < Rabs (Matrix4.Determinant Sample.illR) /\
Matrix4.mul (Matrix4.Inverted Sample.illR) Sample.illR = Matrix4.Identity.
Proof.
assert (Hdet : 1e-6 < Rabs (Matrix4.Determinant Sample.illR)).
{ rewrite Determinant_illR, Rabs_right; lra. }
split; [exact Hdet|]. exact (proj1 (Inverted_two_sided Sample.illR Hdet)).
Defined.

Lemma Homogenized_w1 (x y z : R) :
Vector4.Homogenized (Vector4.mk x y z 1) = Vector3.mk x y z.
Proof.
unfold Vector4.Homogenized. vector_fields. cbv zeta.
rewrite (proj2 (NearZero_R_false 1)) by (rewrite Rabs_R1; lra).
scalar_R. f_equal; field.
Qed.

(** X14.  [Translation(t)] moves points by [t] and leaves directions
  alone; [Scale(s)] multiplies points and directions component by
  component; translations compose by adding their offsets, and the
  inverse of a translation is the translation by the opposite vector. *)
Theorem Translation_Scale_action (t u s p : Vector3.t R) :
Matrix4.TransformPoint (Matrix4.Translation t) p = Vector3.add p t /\
Matrix4.TransformDirection (Matrix4.Translation t) p = p /\
Matrix4.TransformPoint (Matrix4.Scale s) p = Vector3.mulv p s /\
Matrix4.TransformDirection (Matrix4.Scale s) p = Vector3.mulv p s /\
Matrix4.mul (Matrix4.Translation t) (Matrix4.Translation u)
  = Matrix4.Translation (Vector3.add t u) /\
Matrix4.Inverted (Matrix4.Translation t) = Matrix4.Translation (Vector3.neg t).
Proof.
destruct t as [tx ty tz], u as [ux uy uz], s as [sx sy sz], p as [px py pz].
unfold Matrix4.TransformPoint, Matrix4.TransformDirection, Matrix4.Translation,
  Matrix4.Scale, Matrix4.mulVec, Vector4.ofVector3, Vector4.XYZ,
  Vector3.add, Vector3.mulv, Vector3.neg.
matrix_fields. vector_fields.
split; [|split; [|split; [|split; [|split]]]].
- scalar_R.
  replace (0 * px + 0 * py + 0 * pz + 1 * 1) with 1 by ring.
  rewrite Homogenized_w1. f_equal; ring.
- scalar_R. f_equal; ring.
- scalar_R.
  replace (0 * px + 0 * py + 0 * pz + 1 * 1) with 1 by ring.
  rewrite Homogenized_w1. f_equal; ring.
- scalar_R. f_equal; ring.
- scalar_R. f_equal; ring.
- unfold Matrix4.Inverted.
  assert (Hdet : Matrix4.Determinant
                   (Matrix4.mk (fofZ 1) (fofZ 0) (fofZ 0) tx
                               (fofZ 0) (fofZ 1) (fofZ 0) ty
                               (fofZ 0) (fofZ 0) (fofZ 1) tz
                               (fofZ 0) (fofZ 0) (fofZ 0) (fofZ 1)) = 1).
  { unfold Matrix4.Determinant. scalar_R. ring. }
  rewrite Hdet.
  rewrite (proj2 (NearZero_R_false 1)) by (rewrite Rabs_R1; lra).
  scalar_R. f_equal; field.
Qed.

(** X15.  The axis rotations compose by adding their angles, have
  determinant 1 and their transpose as inverse; the angle 0 gives the
  identity. *)
Theorem axis_rotations_compose (a b : R) :
Matrix4.mul (Matrix4.RotationX a) (Matrix4.RotationX b) = Matrix4.RotationX (a + b) /\
Matrix4.mul (Matrix4.RotationY a) (Matrix4.RotationY b) = Matrix4.RotationY (a + b) /\
Matrix4.mul (Matrix4.RotationZ a) (Matrix4.RotationZ b) = Matrix4.RotationZ (a + b) /\
Matrix4.mul (Matrix4.RotationX a) (Matrix4.Transposed (Matrix4.RotationX a))
  = Matrix4.Identity /\
Matrix4.mul (Matrix4.RotationY a) (Matrix4.Transposed (Matrix4.RotationY a))
  = Matrix4.Identity /\
Matrix4.mul (Matrix4.RotationZ a) (Matrix4.Transposed (Matrix4.RotationZ a))
  = Matrix4.Identity /\
Matrix4.Determinant (Matrix4.RotationX a) = 1 /\
Matrix4.Determinant (Matrix4.RotationY a) = 1 /\
Matrix4.Determinant (Matrix4.RotationZ a) = 1 /\
Matrix4.RotationX 0 = Matrix4.Identity /\
Matrix4.RotationY 0 = Matrix4.Identity /\
Matrix4.RotationZ 0 = Matrix4.Identity.
Proof.
pose proof (sin2_cos2 a) as Ha. unfold Rsqr in Ha.
unfold Matrix4.RotationX, Matrix4.RotationY, Matrix4.RotationZ,
  Matrix4.Transposed, Matrix4.Determinant.
matrix_fields. scalar_R. rewrite cos_plus, sin_plus, cos_0, sin_0.
assert (Hc : cos a * cos a = 1 - sin a * sin a) by lra.
repeat split; try (f_equal; ring);
  try (f_equal; first [ring | ring_simplify; rewrite ?Hc; ring]).
all: try (ring_simplify; lra).
all: f_equal; lra.
Qed.

End MatrixReal.

Section ProjectionReal.
Local Open Scope R_scope.

(** X16.  For an axis of length 1, [Matrix4::Rotation(axis, angle)] is the
  matrix of the quaternion [FromAxisAngle(axis, angle)]: the two ways
  the engine builds an axis-angle rotation agree. *)
Theorem Rotation_is_quaternion_matrix (axis : Vector3.t R) (angle : R) :
Vector3.LengthSquared axis = 1 ->
Matrix4.Rotation axis angle
  = Quaternion.ToMatrix (Quaternion.FromAxisAngle axis angle).
Proof.
intros Hunit.
assert (Hlen : Vector3.Length axis = 1).
{ unfold Vector3.Length. rewrite Hunit. apply sqrt_1. }
assert (Hn : Vector3.Normalized axis = axis).
{ rewrite Normalized_long by (rewrite Hlen; lra). rewrite Hlen.
  destruct axis as [x y z]. unfold Vector3.div. vector_fields. scalar_R.
  f_equal; field. }
unfold Matrix4.Rotation, Quaternion.ToMatrix, Quaternion.FromAxisAngle.
cbv zeta. rewrite Hn.
destruct axis as [x y z]. unfold Vector3.LengthSquared in Hunit.
quaternion_fields. vector_fields. matrix_fields. scalar_R.
replace (angle * (5 / 10)) with (angle / 2) by field.
set (h := angle / 2).
replace angle with (2 * h) by (unfold h; field).
rewrite cos_2a_sin, sin_2a.
f_equal; try ring.
all: match goal with
     | |- ?l = ?r =>
         transitivity (r + 2 * sin h * sin h * (x * x + y * y + z * z - 1));
         [ring | rewrite Hunit; ring]
     end.
Qed.

Lemma Rotation_is_quaternion_matrix_witness :
Vector3.LengthSquared (Vector3.mk 0 0 1) = 1 /\
Matrix4.Rotation (Vector3.mk 0 0 1) 1
  = Quaternion.ToMatrix (Quaternion.FromAxisAngle (Vector3.mk 0 0 1) 1).
Proof.
assert (H : Vector3.LengthSquared (Vector3.mk 0 0 1) = 1).
{ unfold Vector3.LengthSquared. vector_fields. scalar_R. ring. }
split; [exact H|]. exact (Rotation_is_quaternion_matrix _ 1 H).
Defined.

(** X17.  [Orthographic(left, right, bottom, top, near, far)] of a
  non-degenerate box maps the box to the cube [[-1, 1]^3]: the corner
  [(left, bottom, -near)] goes to [(-1, -1, -1)], the corner
  [(right, top, -far)] to [(1, 1, 1)], and the centre of the box to the
  origin. *)
Theorem Orthographic_maps_box (l r b t n f : R) :
l <> r -> b <> t -> n <> f ->
let P := Matrix4.Orthographic l r b t n f in
Matrix4.TransformPoint P (Vector3.mk l b (- n)) = Vector3.mk (-1) (-1) (-1) /\
Matrix4.TransformPoint P (Vector3.mk r t (- f)) = Vector3.mk 1 1 1 /\
Matrix4.TransformPoint P
  (Vector3.mk ((l + r) / 2) ((b + t) / 2) (- ((n + f) / 2)))
  = Vector3.mk 0 0 0.
Proof.
intros Hlr Hbt Hnf P. subst P.
unfold Matrix4.TransformPoint, Matrix4.Orthographic, Matrix4.mulVec,
  Vector4.ofVector3.
matrix_fields. vector_fields. scalar_R.
repeat split.
all: match goal with
     | |- Vector4.Homogenized (Vector4.mk ?a ?b ?c ?d) = _ =>
         replace d with 1 by ring
     end.
all: rewrite Homogenized_w1; f_equal; field; lra.
Qed.

Lemma Orthographic_maps_box_witness :
(-2) <> 2 /\ (-1) <> 1 /\ 1 <> 10 /\
Matrix4.TransformPoint (Matrix4.Orthographic (-2) 2 (-1) 1 1 10)
  (Vector3.mk 2 1 (- 10)) = Vector3.mk 1 1 1.
Proof.
assert (H1 : (-2) <> 2) by lra. assert (H2 : (-1) <> 1) by lra.
assert (H3 : 1 <> 10) by lra.
split; [exact H1|]. split; [exact H2|]. split; [exact H3|].
exact (proj1 (proj2 (Orthographic_maps_box (-2) 2 (-1) 1 1 10 H1 H2 H3))).
Defined.

Lemma Homogenized_divides (x y z w : R) :
1e-6 < w ->
Vector4.Homogenized (Vector4.mk x y z w) = Vector3.mk (x / w) (y / w) (z / w).
Proof.
intros Hw. unfold Vector4.Homogenized. vector_fields. cbv zeta.
rewrite (proj2 (NearZero_R_false w)) by (rewrite Rabs_right; lra).
scalar_R. f_equal; field; lra.
Qed.

(** X18.  For [Perspective(fov, aspect, near, far)] with the parameters
  [SetPerspective] accepts ([0 < fov < PI], [aspect > 0],
  [near < far]) and [near] above the epsilon, a point on the view axis
  at depth [near] (that is [z = -near]) is projected to [(0, 0, -1)] and
  one at depth [far] to [(0, 0, 1)]. *)
Theorem Perspective_depth_range (fov aspect near far : R) :
0 < fov < PI -> 0 < aspect -> 1e-6 < near -> near < far ->
let P := Matrix4.Perspective fov aspect near far in
Matrix4.TransformPoint P (Vector3.mk 0 0 (- near)) = Vector3.mk 0 0 (-1) /\
Matrix4.TransformPoint P (Vector3.mk 0 0 (- far)) = Vector3.mk 0 0 1.
Proof.
intros Hfov Ha Hn Hf P. subst P.
unfold Matrix4.TransformPoint, Matrix4.Perspective, Matrix4.mulVec,
  Vector4.ofVector3.
matrix_fields. vector_fields. scalar_R.
assert (Ht : 0 < tan (fov * (5 / 10))) by (apply tan_gt_0; lra).
set (th := tan (fov * (5 / 10))) in *. clearbody th. split.
- replace (0 * 0 + 0 * 0 + -1 * - near + 0 * 1) with near by ring.
  rewrite Homogenized_divides by lra.
  f_equal; field; repeat split; lra.
- replace (0 * 0 + 0 * 0 + -1 * - far + 0 * 1) with far by ring.
  rewrite Homogenized_divides by lra.
  f_equal; field; repeat split; lra.
Qed.

Lemma Perspective_depth_range_witness :
0 < 1 < PI /\ 0 < 1 /\ 1e-6 < 1 /\ 1 < 100 /\
Matrix4.TransformPoint (Matrix4.Perspective 1 1 1 100) (Vector3.mk 0 0 (- 1))
  = Vector3.mk 0 0 (-1).
Proof.
assert (H0 : 0 < 1 < PI) by (pose proof PI2_1; lra).
assert (Ha : 0 < 1) by lra.
assert (H1 : 1e-6 < 1) by lra. assert (H2 : 1 < 100) by lra.
split; [exact H0|]. split; [exact Ha|]. split; [exact H1|]. split; [exact H2|].
exact (proj1 (Perspective_depth_range 1 1 1 100 H0 Ha H1 H2)).
Defined.

Lemma Normalized_parallel (v : Vector3.t R) :
exists k, Vector3.Normalized v = Vector3.scale v k.
Proof.
unfold Vector3.Normalized, Vector3.Normalize. cbv zeta.
destruct (Math.NearZero (Vector3.Length v)) eqn:Hnz.
- exists 1. destruct v as [x y z]. unfold Vector3.scale. vector_fields.
  scalar_R. f_equal; ring.
- exists (/ Vector3.Length v). destruct v as [x y z].
  unfold Vector3.scale, Vector3.div. vector_fields. scalar_R. reflexivity.
Qed.

(** X19.  When [eye] and [target] are further apart than the epsilon,
  the view matrix [LookAt(eye, target, up)] puts [target] on the
  negative z axis at its distance from the eye: it goes to
  [(0, 0, -Distance(eye, target))], for every [up]. *)
Theorem LookAt_target_on_axis (eye target up : Vector3.t R) :
1e-6 < Vector3.Distance eye target ->
Matrix4.TransformPoint (Matrix4.LookAt eye target up) target
  = Vector3.mk 0 0 (- Vector3.Distance eye target).
Proof.
unfold Vector3.Distance. intros Hlen.
pose proof (Length_sqr (Vector3.sub eye target)) as Hsq.
unfold Matrix4.TransformPoint, Matrix4.LookAt. cbv zeta.
rewrite (Normalized_long (Vector3.sub eye target)) by exact Hlen.
set (L := Vector3.Length (Vector3.sub eye target)) in *.
set (z0 := Vector3.div (Vector3.sub eye target) L).
destruct (Normalized_parallel (Vector3.Cross up z0)) as [k Hk].
rewrite Hk. subst z0.
destruct eye as [ex ey ez], target as [tx ty tz], up as [ux uy uz].
unfold Matrix4.mulVec, Vector4.ofVector3, Vector3.Dot, Vector3.Cross,
  Vector3.div, Vector3.sub, Vector3.scale, Vector3.LengthSquared in *.
matrix_fields. vector_fields. scalar_R.
match goal with
| |- Vector4.Homogenized (Vector4.mk ?a ?b ?c ?d) = _ =>
    replace d with 1 by ring
end.
rewrite Homogenized_w1.
assert (HL : L <> 0) by lra.
f_equal.
- field. exact HL.
- field. exact HL.
- transitivity (- ((ex - tx) * (ex - tx) + (ey - ty) * (ey - ty)
                   + (ez - tz) * (ez - tz)) / L).
  + field. exact HL.
  + rewrite <- Hsq. field. exact HL.
Qed.

Lemma LookAt_target_on_axis_witness :
1e-6 < Vector3.Distance (Vector3.mk 0 0 5) (Vector3.mk 0 0 0) /\
Matrix4.TransformPoint
  (Matrix4.LookAt (Vector3.mk 0 0 5) (Vector3.mk 0 0 0) (Vector3.mk 0 1 0))
  (Vector3.mk 0 0 0)
= Vector3.mk 0 0 (- Vector3.Distance (Vector3.mk 0 0 5) (Vector3.mk 0 0 0)).
Proof.
assert (H : 1e-6 < Vector3.Distance (Vector3.mk 0 0 5) (Vector3.mk 0 0 0)).
{ unfold Vector3.Distance, Vector3.Length, Vector3.LengthSquared, Vector3.sub.
  vector_fields. scalar_R.
  replace ((0 - 0) * (0 - 0) + (0 - 0) * (0 - 0) + (5 - 0) * (5 - 0))
    with (5 * 5) by ring.
  rewrite sqrt_square; lra. }
split; [exact H|]. exact (LookAt_target_on_axis _ _ (Vector3.mk 0 1 0) H).
Defined.

Lemma Matrix3_mul_Inverted_R (A : Matrix3.t R) :
1e-6 < Rabs (Matrix3.Determinant A) ->
Matrix3.mul A (Matrix3.Inverted A) = Matrix3.Identity /\
Matrix3.mul (Matrix3.Inverted A) A = Matrix3.Identity.
Proof.
intros Hdet.
assert (Hnz : Matrix3.Determinant A <> 0).
{ intros E. rewrite E, Rabs_R0 in Hdet. lra. }
unfold Matrix3.Inverted. rewrite (proj2 (NearZero_R_false _) Hdet).
assert (Hi : Matrix3.Determinant A * fdiv (fofZ 1) (Matrix3.Determinant A) = 1).
{ scalar_R. field. exact Hnz. }
revert Hi. generalize (fdiv (fofZ 1) (Matrix3.Determinant A)) as i.
clear Hnz Hdet.
destruct A as [a0 a1 a2 a3 a4 a5 a6 a7 a8].
intros i Hi. cbv [Matrix3.Determinant] in Hi.
matrix3_fields. scalar_R.
split; f_equal; first [ ring | rewrite <- Hi; ring ].
Qed.

(** X20.  [Matrix3::Inverted] of a matrix whose determinant exceeds the
  epsilon in absolute value is its inverse on both sides, and
  [Matrix4::GetNormalMatrix] is what keeps normals perpendicular: for
  the normal matrix [N] of [M], [Dot(N * n, M.TransformDirection(t))]
  equals [Dot(n, t)]. *)
Theorem GetNormalMatrix_preserves_Dot (M : Matrix4.t R) (n t : Vector3.t R) :
let A := Matrix3.mk (Matrix4.m0 M) (Matrix4.m1 M) (Matrix4.m2 M)
                    (Matrix4.m4 M) (Matrix4.m5 M) (Matrix4.m6 M)
                    (Matrix4.m8 M) (Matrix4.m9 M) (Matrix4.m10 M) in
1e-6 < Rabs (Matrix3.Determinant A) ->
Matrix3.mul A (Matrix3.Inverted A) = Matrix3.Identity /\
Matrix3.mul (Matrix3.Inverted A) A = Matrix3.Identity /\
Vector3.Dot (Matrix3.mulVec (Matrix4.GetNormalMatrix M) n)
            (Matrix4.TransformDirection M t)
  = Vector3.Dot n t.
Proof.
intros A Hdet.
destruct (Matrix3_mul_Inverted_R A Hdet) as [Hr Hl].
split; [exact Hr|]. split; [exact Hl|].
unfold Matrix4.GetNormalMatrix. cbv zeta. fold A.
revert Hl. generalize (Matrix3.Inverted A) as B. intros B Hl.
subst A. clear Hr Hdet.
destruct M as [a0 a1 a2 a3 a4 a5 a6 a7 a8 a9 a10 a11 a12 a13 a14 a15].
destruct B as [b0 b1 b2 b3 b4 b5 b6 b7 b8].
destruct n as [nx ny nz], t as [tx ty tz].
unfold Matrix4.TransformDirection, Matrix4.mulVec, Vector4.ofVector3,
  Vector4.XYZ, Vector3.Dot.
matrix_fields. matrix3_fields. vector_fields. scalar_R.
injection Hl as E0 E1 E2 E3 E4 E5 E6 E7 E8.
transitivity
  (nx * tx * (0 + b0 * a0 + b1 * a4 + b2 * a8)
   + nx * ty * (0 + b0 * a1 + b1 * a5 + b2 * a9)
   + nx * tz * (0 + b0 * a2 + b1 * a6 + b2 * a10)
   + ny * tx * (0 + b3 * a0 + b4 * a4 + b5 * a8)
   + ny * ty * (0 + b3 * a1 + b4 * a5 + b5 * a9)
   + ny * tz * (0 + b3 * a2 + b4 * a6 + b5 * a10)
   + nz * tx * (0 + b6 * a0 + b7 * a4 + b8 * a8)
   + nz * ty * (0 + b6 * a1 + b7 * a5 + b8 * a9)
   + nz * tz * (0 + b6 * a2 + b7 * a6 + b8 * a10)).
- ring.
- rewrite E0, E1, E2, E3, E4, E5, E6, E7, E8. ring.
Qed.

Lemma GetNormalMatrix_preserves_Dot_witness :
1e-6 < Rabs (Matrix3.Determinant
               (Matrix3.mk 2 0 0 0 4 0 0 0 5)) /\
Vector3.Dot
  (Matrix3.mulVec (Matrix4.GetNormalMatrix (Matrix4.Scale (Vector3.mk 2 4 5)))
                  (Vector3.mk 1 1 0))
  (Matrix4.TransformDirection (Matrix4.Scale (Vector3.mk 2 4 5))
                  (Vector3.mk 1 (-1) 0))
= Vector3.Dot (Vector3.mk 1 1 0) (Vector3.mk 1 (-1) 0).
Proof.
assert (H : 1e-6 < Rabs (Matrix3.Determinant (Matrix3.mk 2 0 0 0 4 0 0 0 5))).
{ unfold Matrix3.Determinant. scalar_R.
  replace (2 * (4 * 5 - 0 * 0) - 0 * (0 * 5 - 0 * 0) + 0 * (0 * 0 - 4 * 0))
    with 40 by ring.
  rewrite Rabs_right; lra. }
split; [exact H|].
exact (proj2 (proj2 (GetNormalMatrix_preserves_Dot
                       (Matrix4.Scale (Vector3.mk 2 4 5))
                       (Vector3.mk 1 1 0) (Vector3.mk 1 (-1) 0) H))).
Defined.

End ProjectionReal.

(* ===================================================================== *)
(** * Further properties: Quaternion.h                                   *)
(* ===================================================================== *)

Section QuaternionReal.
Local Open Scope R_scope.

Ltac quaternion_ring :=
cbv [Quaternion.rotate Quaternion.mul Quaternion.Conjugate
     Quaternion.Identity Quaternion.LengthSquared Quaternion.scale
     Quaternion.x Quaternion.y Quaternion.z Quaternion.w
     Vector3.x Vector3.y Vector3.z] in *;
scalar_R.

(** X21.  The Hamilton product [operator*] is associative with
  [Identity()] as neutral element, the squared length is multiplicative
  (so products of unit quaternions are unit quaternions), and
  [Conjugate] reverses products. *)
Theorem Quaternion_mul_laws (p q r : Quaternion.t R) :
Quaternion.mul (Quaternion.mul p q) r = Quaternion.mul p (Quaternion.mul q r) /\
Quaternion.mul Quaternion.Identity p = p /\
Quaternion.mul p Quaternion.Identity = p /\
Quaternion.LengthSquared (Quaternion.mul p q)
  = Quaternion.LengthSquared p * Quaternion.LengthSquared q /\
Quaternion.Conjugate (Quaternion.mul p q)
  = Quaternion.mul (Quaternion.Conjugate q) (Quaternion.Conjugate p).
Proof.
destruct p as [px py pz pw], q as [qx qy qz qw], r as [rx ry rz rw].
quaternion_ring.
repeat split; first [ring | f_equal; ring].
Qed.

(** X22.  [Inverse()] of a quaternion whose squared length exceeds the
  epsilon is its inverse on both sides; for a unit quaternion it is the
  conjugate.  When the squared length is at most the epsilon it returns
  [Identity()] without dividing. *)
Theorem Inverse_two_sided (q : Quaternion.t R) :
(Quaternion.LengthSquared q <= 1e-6 ->
 Quaternion.Inverse q = Quaternion.Identity) /\
(1e-6 < Quaternion.LengthSquared q ->
 Quaternion.mul q (Quaternion.Inverse q) = Quaternion.Identity /\
 Quaternion.mul (Quaternion.Inverse q) q = Quaternion.Identity) /\
(unit q -> Quaternion.Inverse q = Quaternion.Conjugate q).
Proof.
assert (Hpos : 0 <= Quaternion.LengthSquared q).
{ destruct q as [x y z w]. unfold Quaternion.LengthSquared.
  quaternion_fields. scalar_R. nra. }
unfold Quaternion.Inverse. cbv zeta. split; [|split].
- intros Hle. rewrite (proj2 (NearZero_R_true _)); [reflexivity|].
  rewrite Rabs_right; lra.
- intros Hlen. rewrite (proj2 (NearZero_R_false _)) by (rewrite Rabs_right; lra).
  set (s := Quaternion.LengthSquared q) in *.
  assert (Hs : Quaternion.LengthSquared q = s) by reflexivity.
  clearbody s. destruct q as [x y z w]. quaternion_ring.
  split; f_equal.
  all: first [ field; lra
             | transitivity ((x * x + y * y + z * z + w * w) / s);
               [field; lra | rewrite Hs; field; lra] ].
- intros Hu. unfold unit in Hu. rewrite Hu.
  rewrite (proj2 (NearZero_R_false 1)) by (rewrite Rabs_R1; lra).
  destruct q as [x y z w]. quaternion_ring. f_equal; field.
Qed.

Lemma Inverse_two_sided_witness :
1e-6 < Quaternion.LengthSquared (Quaternion.mk 1 2 3 4) /\
Quaternion.mul (Quaternion.mk 1 2 3 4) (Quaternion.Inverse (Quaternion.mk 1 2 3 4))
  = Quaternion.Identity.
Proof.
assert (H : 1e-6 < Quaternion.LengthSquared (Quaternion.mk 1 2 3 4)).
{ unfold Quaternion.LengthSquared. quaternion_fields. scalar_R. lra. }
split; [exact H|].
exact (proj1 (proj1 (proj2 (Inverse_two_sided (Quaternion.mk 1 2 3 4))) H)).
Defined.

(** X23.  Rotating a vector with [operator*(const Vector3&)] composes
  like the quaternion product, [(p * q) * v = p * (q * v)], and scales
  squared lengths by the fourth power of the quaternion's length.  For
  a unit quaternion it keeps lengths and dot products, and is the same
  as transforming the direction with [ToMatrix()]. *)
Theorem rotate_laws (p q : Quaternion.t R) (v u : Vector3.t R) :
Quaternion.rotate (Quaternion.mul p q) v
  = Quaternion.rotate p (Quaternion.rotate q v) /\
Vector3.LengthSquared (Quaternion.rotate q v)
  = Quaternion.LengthSquared q * Quaternion.LengthSquared q
    * Vector3.LengthSquared v /\
(unit q ->
 Vector3.Dot (Quaternion.rotate q v) (Quaternion.rotate q u) = Vector3.Dot v u /\
 Quaternion.rotate q v = Matrix4.TransformDirection (Quaternion.ToMatrix q) v).
Proof.
destruct p as [px py pz pw], q as [x y z w], v as [vx vy vz], u as [ux uy uz].
unfold unit, Vector3.LengthSquared, Vector3.Dot, Matrix4.TransformDirection,
  Quaternion.ToMatrix, Matrix4.mulVec, Vector4.ofVector3, Vector4.XYZ.
quaternion_ring. matrix_fields. vector_fields. scalar_R.
split; [f_equal; ring|]. split; [ring|].
intros Hu. split.
- transitivity ((x * x + y * y + z * z + w * w) * (x * x + y * y + z * z + w * w)
                * (vx * ux + vy * uy + vz * uz)).
  + ring.
  + rewrite Hu. ring.
- f_equal.
  + transitivity (vx * (x * x + y * y + z * z + w * w)
                  - 2 * (y * y + z * z) * vx + 2 * (x * y - z * w) * vy
                  + 2 * (x * z + y * w) * vz); [ring | rewrite Hu; ring].
  + transitivity (vy * (x * x + y * y + z * z + w * w)
                  + 2 * (x * y + z * w) * vx - 2 * (x * x + z * z) * vy
                  + 2 * (y * z - x * w) * vz); [ring | rewrite Hu; ring].
  + transitivity (vz * (x * x + y * y + z * z + w * w)
                  + 2 * (x * z - y * w) * vx + 2 * (y * z + x * w) * vy
                  - 2 * (x * x + y * y) * vz); [ring | rewrite Hu; ring].
Qed.

(** X24.  [ToMatrix] of a unit quaternion is a rotation matrix: its
  transpose is its inverse and its determinant is 1; and [ToMatrix]
  turns products of unit quaternions into products of matrices. *)
Theorem ToMatrix_rotation (p q : Quaternion.t R) :
unit p -> unit q ->
Matrix4.mul (Quaternion.ToMatrix q) (Matrix4.Transposed (Quaternion.ToMatrix q))
  = Matrix4.Identity /\
Matrix4.Determinant (Quaternion.ToMatrix q) = 1 /\
Quaternion.ToMatrix (Quaternion.mul p q)
  = Matrix4.mul (Quaternion.ToMatrix p) (Quaternion.ToMatrix q).
Proof.
destruct p as [a b c d], q as [x y z w].
unfold unit, Quaternion.ToMatrix, Matrix4.Transposed, Matrix4.Determinant.
quaternion_ring. matrix_fields. scalar_R.
intros Hp Hq.
assert (Hw : w * w = 1 - x * x - y * y - z * z) by lra.
assert (Hd : d * d = 1 - a * a - b * b - c * c) by lra.
split; [|split].
- f_equal; try ring.
  all: ring_simplify; replace (w ^ 2) with (1 - x * x - y * y - z * z) by lra; ring.
- ring_simplify.
  replace (w ^ 2) with (1 - x * x - y * y - z * z) by lra. ring.
- f_equal; try ring.
  all: ring_simplify.
  all: replace (w ^ 2) with (1 - x * x - y * y - z * z) by lra.
  all: replace (d ^ 2) with (1 - a * a - b * b - c * c) by lra.
  all: ring.
Qed.


Lemma rotate_laws_witness :
let q := Quaternion.mk 0 0 1 0 in
unit q /\
Quaternion.rotate q (Vector3.mk 1 2 3)
  = Matrix4.TransformDirection (Quaternion.ToMatrix q) (Vector3.mk 1 2 3).
Proof.
intros q.
assert (Hq : unit q).
{ cbv [unit q Quaternion.LengthSquared Quaternion.x Quaternion.y Quaternion.z
       Quaternion.w]. scalar_R. ring. }
split; [exact Hq|].
exact (proj2 (proj2 (proj2 (rotate_laws q q (Vector3.mk 1 2 3)
                              (Vector3.mk 1 2 3))) Hq)).
Defined.

Lemma ToMatrix_rotation_witness :
let p := Quaternion.mk 1 0 0 0 in
let q := Quaternion.mk 0 1 0 0 in
unit p /\ unit q /\
Quaternion.ToMatrix (Quaternion.mul p q)
  = Matrix4.mul (Quaternion.ToMatrix p) (Quaternion.ToMatrix q).
Proof.
intros p q.
assert (Hp : unit p).
{ cbv [unit p Quaternion.LengthSquared Quaternion.x Quaternion.y Quaternion.z
       Quaternion.w]. scalar_R. ring. }
assert (Hq : unit q).
{ cbv [unit q Quaternion.LengthSquared Quaternion.x Quaternion.y Quaternion.z
       Quaternion.w]. scalar_R. ring. }
split; [exact Hp|]. split; [exact Hq|].
exact (proj2 (proj2 (ToMatrix_rotation p q Hp Hq))).
Defined.

End QuaternionReal.

Section EulerReal.
Local Open Scope R_scope.

Lemma Normalized_axis (x y z : R) :
x * x + y * y + z * z = 1 ->
Vector3.Normalized (Vector3.mk x y z) = Vector3.mk x y z.
Proof.
intros Hu.
assert (Hlen : Vector3.Length (Vector3.mk x y z) = 1).
{ unfold Vector3.Length, Vector3.LengthSquared. vector_fields. scalar_R.
  rewrite Hu. apply sqrt_1. }
rewrite Normalized_long by (rewrite Hlen; lra). rewrite Hlen.
unfold Vector3.div. vector_fields. scalar_R. f_equal; field.
Qed.

(** X25.  [FromEuler(euler)] is a unit quaternion, and it is the product
  of the three axis rotations taken as Z * Y * X: the rotation about
  the x axis by [euler.x] is applied first, then the one about y, then
  the one about z. *)
Theorem FromEuler_composition (euler : Vector3.t R) :
unit (Quaternion.FromEuler euler) /\
Quaternion.FromEuler euler
  = Quaternion.mul
      (Quaternion.mul
         (Quaternion.FromAxisAngle (Vector3.mk 0 0 1) (Vector3.z euler))
         (Quaternion.FromAxisAngle (Vector3.mk 0 1 0) (Vector3.y euler)))
      (Quaternion.FromAxisAngle (Vector3.mk 1 0 0) (Vector3.x euler)).
Proof.
destruct euler as [ex ey ez].
unfold Quaternion.FromAxisAngle. cbv zeta.
rewrite !Normalized_axis by ring.
unfold unit, Quaternion.FromEuler, Quaternion.mul, Quaternion.LengthSquared.
quaternion_fields. vector_fields. scalar_R.
pose proof (sin2_cos2 (ex * (5 / 10))) as Hx.
pose proof (sin2_cos2 (ey * (5 / 10))) as Hy.
pose proof (sin2_cos2 (ez * (5 / 10))) as Hz. unfold Rsqr in *.
set (sx := sin (ex * (5 / 10))) in *. set (cx := cos (ex * (5 / 10))) in *.
set (sy := sin (ey * (5 / 10))) in *. set (cy := cos (ey * (5 / 10))) in *.
set (sz := sin (ez * (5 / 10))) in *. set (cz := cos (ez * (5 / 10))) in *.
clearbody sx cx sy cy sz cz. split.
- transitivity ((sx * sx + cx * cx) * (sy * sy + cy * cy) * (sz * sz + cz * cz)).
  + ring.
  + rewrite Hx, Hy, Hz. ring.
- f_equal; ring.
Qed.

End EulerReal.

(* ===================================================================== *)
(** * Further properties: Camera                                         *)
(* ===================================================================== *)

Section CameraCache.
Context {F : Type} `{Scalar F} `{Libm F}.
Variable Forward Up : Vector3.t F.

Lemma Recalculate_idempotent (c : Camera.t F) :
Camera.Recalculate Forward Up (Camera.Recalculate Forward Up c)
= Camera.Recalculate Forward Up c.
Proof. destruct c. reflexivity. Qed.

(** Every public mutator leaves the two cached matrices equal to what
  [Recalculate] computes from the members. *)
Lemma step_synced (c : Camera.t F) (call : Camera.Call F) :
Camera.Recalculate Forward Up c = c ->
Camera.Recalculate Forward Up (Camera.step Forward Up c call)
= Camera.step Forward Up c call.
Proof.
intros Hc. destruct call as [fov aspect near far | size aspect near far
                             | p | q | target up | offset | q]; cbn [Camera.step].
- unfold Camera.SetPerspective.
  destruct (_ || _); [exact Hc|].
  destruct (aspect <=? 0)%S; [exact Hc|].
  destruct (near <=? 0)%S; [exact Hc|].
  destruct (far <=? near)%S; [exact Hc|].
  apply Recalculate_idempotent.
- unfold Camera.SetOrthographic.
  destruct (size <=? 0)%S; [exact Hc|].
  destruct (aspect <=? 0)%S; [exact Hc|].
  destruct (near <=? 0)%S; [exact Hc|].
  destruct (far <=? near)%S; [exact Hc|].
  apply Recalculate_idempotent.
- apply Recalculate_idempotent.
- apply Recalculate_idempotent.
- apply Recalculate_idempotent.
- apply Recalculate_idempotent.
- apply Recalculate_idempotent.
Qed.

Lemma run_synced (calls : list (Camera.Call F)) :
Camera.Recalculate Forward Up (Camera.run Forward Up calls)
= Camera.run Forward Up calls.
Proof.
unfold Camera.run.
assert (Hstart : Camera.Recalculate Forward Up (Camera.Default Forward Up)
                 = Camera.Default Forward Up)
  by apply Recalculate_idempotent.
revert Hstart. generalize (Camera.Default Forward Up) as c.
induction calls as [|call calls IH]; intros c Hc; [exact Hc|].
cbn [fold_left]. apply IH, step_synced, Hc.
Qed.
End CameraCache.

Section CameraReal.
Local Open Scope R_scope.
Variable Forward Up : Vector3.t R.

Lemma LookAt_eye_R (eye target up : Vector3.t R) :
Matrix4.TransformPoint (Matrix4.LookAt eye target up) eye = Vector3.mk 0 0 0.
Proof.
unfold Matrix4.TransformPoint, Matrix4.LookAt.
generalize (Vector3.Normalized (Vector3.sub eye target)) as z0. intros z0.
generalize (Vector3.Normalized (Vector3.Cross up z0)) as x0. intros x0.
generalize (Vector3.Cross z0 x0) as y0. intros y0.
destruct eye as [ex ey ez], x0 as [xx xy xz], y0 as [yx yy yz],
         z0 as [zx zy zz].
unfold Matrix4.mulVec, Vector4.ofVector3, Vector3.Dot.
matrix_fields. vector_fields. scalar_R.
match goal with
| |- Vector4.Homogenized (Vector4.mk ?a ?b ?c ?d) = _ =>
    replace d with 1 by ring
end.
rewrite Homogenized_w1. f_equal; ring.
Qed.

Lemma Recalculate_valid (c : Camera.t R) :
valid_projection c -> valid_projection (Camera.Recalculate Forward Up c).
Proof. destruct c. exact (fun Hv => Hv). Qed.

Lemma step_valid (c : Camera.t R) (call : Camera.Call R) :
valid_projection c -> valid_projection (Camera.step Forward Up c call).
Proof.
intros Hc. destruct call as [fov aspect near far | size aspect near far
                             | p | q | target up | offset | q]; cbn [Camera.step].
- unfold Camera.SetPerspective.
  destruct (fov <=? 0)%S eqn:E1; [exact Hc|].
  destruct (fov >=? fPI)%S eqn:E2; [exact Hc|].
  destruct (aspect <=? 0)%S eqn:E3; [exact Hc|].
  destruct (near <=? 0)%S eqn:E4; [exact Hc|].
  destruct (far <=? near)%S eqn:E5; [exact Hc|].
  apply fleb_R_false in E1, E2, E3, E4, E5. scalar_R.
  cbn [orb fst]. apply Recalculate_valid.
  destruct Hc as (_ & Hsize & _). unfold valid_projection. cbn. lra.
- unfold Camera.SetOrthographic.
  destruct (size <=? 0)%S eqn:E1; [exact Hc|].
  destruct (aspect <=? 0)%S eqn:E3; [exact Hc|].
  destruct (near <=? 0)%S eqn:E4; [exact Hc|].
  destruct (far <=? near)%S eqn:E5; [exact Hc|].
  apply fleb_R_false in E1, E3, E4, E5. scalar_R.
  cbn [fst]. apply Recalculate_valid.
  destruct Hc as (Hfov & _). unfold valid_projection. cbn. lra.
- apply Recalculate_valid. destruct c. exact Hc.
- apply Recalculate_valid. destruct c. exact Hc.
- apply Recalculate_valid. destruct c. exact Hc.
- apply Recalculate_valid. destruct c. exact Hc.
- apply Recalculate_valid. destruct c. exact Hc.
Qed.

Lemma Default_valid : valid_projection (Camera.Default Forward Up).
Proof.
unfold valid_projection, Camera.Default, Math.ToRadians, Math.DEG2RAD. cbn.
scalar_R. pose proof PI_RGT_0. lra.
Qed.

(** X26.  Whatever sequence of the public mutators ([SetPerspective],
  [SetOrthographic], [SetPosition], [SetRotation], [LookAt], [Move],
  [Rotate]) is applied to a default-constructed camera, accepted or
  rejected: the cached view and projection matrices are the ones
  [Recalculate] computes from the current members; the projection
  parameters stay valid ([0 < fov < PI], [size > 0], [aspect > 0],
  [0 < near < far]); and the view matrix sends the camera position to
  the origin. *)
Theorem Camera_invariants (calls : list (Camera.Call R)) :
let c := Camera.run Forward Up calls in
Camera.Recalculate Forward Up c = c /\
valid_projection c /\
Matrix4.TransformPoint (Camera.m_ViewMatrix c) (Camera.m_Position c)
  = Vector3.mk 0 0 0.
Proof.
intros c. subst c.
pose proof (run_synced Forward Up calls) as Hsync.
split; [exact Hsync|]. split.
- clear Hsync. unfold Camera.run. pose proof Default_valid as Hstart.
  revert Hstart.
  generalize (Camera.Default Forward Up) as c.
  induction calls as [|call calls IH]; intros c Hc; [exact Hc|].
  cbn [fold_left]. apply IH, step_valid, Hc.
- rewrite <- Hsync. destruct (Camera.run Forward Up calls). cbn.
  apply LookAt_eye_R.
Qed.
End CameraReal.

(* ===================================================================== *)
(** * Further properties: Scene                                          *)
(* ===================================================================== *)

Section SceneList.
Context {Body : Type}.
Implicit Types (s : Scene.t Body) (o : Scene.SceneObject Body) (n : string).

Lemma filter_keeps_all (P : Scene.SceneObject Body -> Prop)
  `{forall x, Decision (P x)} (l : list (Scene.SceneObject Body)) :
(forall x, x ∈ l -> P x) -> filter P l = l.
Proof.
induction l as [|x l IH]; intros Hall; [reflexivity|].
rewrite filter_cons_True by (apply Hall; left).
f_equal. apply IH. intros y Hy. apply Hall. right. exact Hy.
Qed.

(** Erasing the one position that holds a name is the same as filtering
  that name out, when no name occurs twice. *)
Lemma erase_is_filter (l : list (Scene.SceneObject Body)) i o :
NoDup (Scene.name <$> l) -> l !! i = Some o ->
delete i l = filter (fun x => Scene.name x <> Scene.name o) l.
Proof.
revert i. induction l as [|x l IH]; intros i Hnd Hi; [discriminate Hi|].
rewrite fmap_cons in Hnd. apply NoDup_cons in Hnd as [Hx Hnd].
destruct i as [|i]; cbn in Hi.
- injection Hi as ->. change (delete 0%nat (o :: l)) with l.
  rewrite filter_cons_False by (intros Hne; apply Hne; reflexivity).
  symmetry. apply filter_keeps_all. intros y Hy Heq.
  apply Hx. rewrite <- Heq. apply list_elem_of_fmap. exists y. split; [reflexivity | exact Hy].
- change (delete (S i) (x :: l)) with (x :: delete i l).
  rewrite filter_cons_True.
  + f_equal. apply IH; assumption.
  + intros Heq. apply Hx. rewrite Heq. apply list_elem_of_fmap.
    exists o. split; [reflexivity|]. eapply list_elem_of_lookup_2, Hi.
Qed.

Lemma erase_last (l : list (Scene.SceneObject Body)) o :
delete (length l) (l ++ [o]) = l.
Proof.
induction l as [|x l IH]; [reflexivity|].
change (delete (length (x :: l)) ((x :: l) ++ [o]))
  with (x :: delete (length l) (l ++ [o])).
rewrite IH. reflexivity.
Qed.

Lemma consistent_NoDup s :
Scene.consistent s -> NoDup (Scene.name <$> Scene.m_Objects s).
Proof.
intros Hs. apply NoDup_alt. intros i j n Hi Hj.
rewrite list_lookup_fmap in Hi, Hj.
destruct (Scene.m_Objects s !! i) as [o1|] eqn:H1; [|discriminate Hi].
destruct (Scene.m_Objects s !! j) as [o2|] eqn:H2; [|discriminate Hj].
cbn in Hi, Hj. eapply consistent_unique; eauto. congruence.
Qed.

Lemma shift_below index i : i < index -> Scene.shift index i = i.
Proof.
intros Hlt. unfold Scene.shift. destruct (Nat.ltb_spec index i); [lia | reflexivity].
Qed.

(** X27.  For the scene reached by any sequence of [AddObject] and
  [RemoveObject] calls: no two stored objects bear the same name;
  [RemoveObject(n)] leaves exactly the stored objects whose name is not
  [n], in their order; and for an object whose name is not in use,
  [AddObject] appends it, [FindObject] then returns it, and removing it
  again restores the scene, list and index alike. *)
Theorem Scene_add_remove_round_trip
  (calls : list (Scene.Call Body)) o n :
let s := Scene.run calls in
NoDup (Scene.name <$> Scene.m_Objects s) /\
Scene.m_Objects (fst (Scene.RemoveObject s n))
  = filter (fun x => Scene.name x <> n) (Scene.m_Objects s) /\
(Scene.FindObject s (Scene.name o) = None ->
 Scene.m_Objects (fst (Scene.AddObject s o)) = Scene.m_Objects s ++ [o] /\
 Scene.FindObject (fst (Scene.AddObject s o)) (Scene.name o) = Some o /\
 fst (Scene.RemoveObject (fst (Scene.AddObject s o)) (Scene.name o)) = s).
Proof.
intros s. pose proof (run_consistent calls) as Hs. fold s in Hs.
clearbody s. pose proof (consistent_NoDup s Hs) as Hnd.
split; [exact Hnd|]. split.
- unfold Scene.RemoveObject.
  destruct (Scene.m_ObjectIndex s !! n) as [index|] eqn:Hn; cbn [fst Scene.m_Objects].
  + apply Hs in Hn as (o' & Ho' & <-). apply erase_is_filter; assumption.
  + symmetry. apply filter_keeps_all. intros x Hx Heq.
    apply list_elem_of_lookup_1 in Hx as [i Hi].
    assert (Hsome : Scene.m_ObjectIndex s !! n = Some i) by (apply Hs; eauto).
    congruence.
- intros Hfind.
  assert (Hfresh : Scene.m_ObjectIndex s !! Scene.name o = None).
  { unfold Scene.FindObject in Hfind.
    destruct (Scene.m_ObjectIndex s !! Scene.name o) as [i|] eqn:Hi; [|reflexivity].
    apply Hs in Hi as (o' & Ho' & _). congruence. }
  unfold Scene.AddObject. rewrite Hfresh. cbn [fst Scene.m_Objects].
  split; [reflexivity|]. split.
  + unfold Scene.FindObject. cbn [Scene.m_ObjectIndex Scene.m_Objects].
    rewrite lookup_insert_eq.
    apply lookup_snoc_Some. right. split; reflexivity.
  + unfold Scene.RemoveObject. cbn [Scene.m_ObjectIndex Scene.m_Objects].
    rewrite lookup_insert_eq. cbn [fst].
    destruct s as [l idx]. cbn [Scene.m_Objects Scene.m_ObjectIndex] in *.
    f_equal.
    * apply erase_last.
    * rewrite delete_insert_eq, delete_id by exact Hfresh.
      apply map_eq. intros k. rewrite lookup_fmap.
      destruct (idx !! k) as [i|] eqn:Hk; [|reflexivity]. cbn.
      f_equal. apply shift_below.
      apply Hs in Hk as (o' & Ho' & _). cbn in Ho'.
      apply lookup_lt_Some in Ho'. exact Ho'.
Qed.

End SceneList.

Lemma Scene_add_remove_round_trip_witness :
  let s := @Scene.run nat [] in
  let o := Scene.mkObject "cube" 7 in
  Scene.FindObject s (Scene.name o) = None /\
  fst (Scene.RemoveObject (fst (Scene.AddObject s o)) (Scene.name o)) = s.
Proof.
  intros s o.
  assert (H : Scene.FindObject s (Scene.name o) = None) by reflexivity.
  split; [exact H|].
  exact (proj2 (proj2 (proj2 (proj2 (@Scene_add_remove_round_trip nat [] o "x")) H))).
Defined.

(* ===================================================================== *)
(** * Further properties: Transform.h, Plane.h, Ray.h                    *)
(* ===================================================================== *)

Section TransformReal.
Local Open Scope R_scope.






(** X29.  For a plane whose normal has length 1, [ClosestPoint(x)] lies on
  the plane, is a fixed point of [ClosestPoint], and its squared
  distance from [x] is the square of [GetDistanceToPoint(x)]; and the
  plane built from a point and a normal of length 1 contains that
  point. *)
Theorem Plane_ClosestPoint (pl : Plane.t R) (x point n : Vector3.t R) :
(Vector3.LengthSquared (Plane.normal pl) = 1 ->
 Plane.GetDistanceToPoint pl (Plane.ClosestPoint pl x) = 0 /\
 Plane.ClosestPoint pl (Plane.ClosestPoint pl x) = Plane.ClosestPoint pl x /\
 Vector3.DistanceSquared x (Plane.ClosestPoint pl x)
   = Plane.GetDistanceToPoint pl x * Plane.GetDistanceToPoint pl x) /\
(Vector3.LengthSquared n = 1 ->
 Plane.GetDistanceToPoint (Plane.ofPointNormal point n) point = 0).
Proof.
split.
- intros Hn. destruct pl as [[nx ny nz] d], x as [px py pz].
  cbv [Plane.GetDistanceToPoint Plane.ClosestPoint Plane.normal Plane.distance
       Vector3.DistanceSquared Vector3.LengthSquared Vector3.Dot Vector3.sub
       Vector3.scale Vector3.x Vector3.y Vector3.z] in *.
  scalar_R. set (g := nx * px + ny * py + nz * pz - d).
  assert (Hg : nx * (px - nx * g) + ny * (py - ny * g) + nz * (pz - nz * g) - d = 0).
  { transitivity (g - g * (nx * nx + ny * ny + nz * nz)).
    - unfold g. ring.
    - rewrite Hn. ring. }
  split; [exact Hg|]. split.
  + rewrite Hg. f_equal; ring.
  + transitivity (g * g * (nx * nx + ny * ny + nz * nz)); [ring | rewrite Hn; ring].
- intros Hn.
  assert (Hnorm : Vector3.Normalized n = n).
  { destruct n as [nx ny nz]. apply Normalized_axis. exact Hn. }
  unfold Plane.ofPointNormal, Plane.GetDistanceToPoint.
  cbn [Plane.normal Plane.distance]. rewrite Hnorm. scalar_R. ring.
Qed.

Lemma Plane_ClosestPoint_witness :
let pl := Plane.mk (Vector3.mk 0 1 0) 2 in
Vector3.LengthSquared (Plane.normal pl) = 1 /\
Plane.GetDistanceToPoint pl (Plane.ClosestPoint pl (Vector3.mk 3 7 (-1))) = 0.
Proof.
intros pl.
assert (H : Vector3.LengthSquared (Plane.normal pl) = 1).
{ cbv [pl Plane.normal Vector3.LengthSquared Vector3.x Vector3.y Vector3.z].
  scalar_R. ring. }
split; [exact H|].
exact (proj1 (proj1 (Plane_ClosestPoint pl (Vector3.mk 3 7 (-1))
                       (Vector3.mk 0 0 0) (Vector3.mk 0 1 0)) H)).
Defined.

(** X30.  For a ray and a plane given by a point and a normal: when
  [Dot(direction, planeNormal)] is within the epsilon of zero,
  [IntersectsPlane] returns false and leaves [distance] as it was;
  otherwise the point of the ray at the written [distance] lies on the
  plane, and the returned flag tells whether that distance is
  non-negative. *)
Theorem Ray_IntersectsPlane
  (r : Ray.t R) (planePoint planeNormal : Vector3.t R) (dist0 : R) :
(Rabs (Vector3.Dot (Ray.direction r) planeNormal) <= 1e-6 ->
 Ray.IntersectsPlane r planePoint planeNormal dist0 = (false, dist0)) /\
(1e-6 < Rabs (Vector3.Dot (Ray.direction r) planeNormal) ->
 let '(hit, dist) := Ray.IntersectsPlane r planePoint planeNormal dist0 in
 Vector3.Dot (Vector3.sub (Ray.GetPoint r dist) planePoint) planeNormal = 0 /\
 (hit = true <-> 0 <= dist)).
Proof.
split.
- intros Hd. unfold Ray.IntersectsPlane. cbv zeta.
  rewrite (proj2 (NearZero_R_true _) Hd). reflexivity.
- intros Hd. unfold Ray.IntersectsPlane. cbv zeta.
  rewrite (proj2 (NearZero_R_false _) Hd).
  assert (Hnz : Vector3.Dot (Ray.direction r) planeNormal <> 0).
  { intros E. rewrite E, Rabs_R0 in Hd. lra. }
  split.
  + destruct r as [[ox oy oz] [dx dy dz]], planePoint as [px py pz],
      planeNormal as [nx ny nz].
    cbv [Ray.GetPoint Ray.origin Ray.direction Vector3.Dot Vector3.sub
         Vector3.add Vector3.scale Vector3.x Vector3.y Vector3.z] in *.
    scalar_R. field. exact Hnz.
  + cbv [fleb R_Scalar]. destruct (Rle_dec _ _) as [Hle | Hgt].
    * split; [intros _; exact Hle | reflexivity].
    * split; [discriminate | intros Hle; contradiction].
Qed.

Lemma Ray_IntersectsPlane_witness :
let r := Ray.mk (Vector3.mk 0 5 0) (Vector3.mk 0 (-1) 0) in
1e-6 < Rabs (Vector3.Dot (Ray.direction r) (Vector3.mk 0 1 0)) /\
(let '(hit, dist) :=
   Ray.IntersectsPlane r (Vector3.mk 0 0 0) (Vector3.mk 0 1 0) 0 in
 Vector3.Dot (Vector3.sub (Ray.GetPoint r dist) (Vector3.mk 0 0 0))
             (Vector3.mk 0 1 0) = 0 /\
 (hit = true <-> 0 <= dist)).
Proof.
intros r.
assert (H : 1e-6 < Rabs (Vector3.Dot (Ray.direction r) (Vector3.mk 0 1 0))).
{ cbv [r Ray.direction Vector3.Dot Vector3.x Vector3.y Vector3.z]. scalar_R.
  replace (0 * 0 + -1 * 1 + 0 * 0) with (-1) by ring.
  rewrite Rabs_left; lra. }
split; [exact H|].
exact (proj2 (Ray_IntersectsPlane r (Vector3.mk 0 0 0) (Vector3.mk 0 1 0) 0) H).
Defined.

End TransformReal.
